(** * A shallow embedding of [midi.py]: the Standard MIDI File codec

    The Python classes [MidiFile], [MidiTrack] and [MidiEvent] are embedded
    as Rocq modules of the same names.  Python integers are [Z], [bytes]
    objects are [list byte], a binary file object is the list of bytes that
    remain to be read, and an exception is a value of [exn] carried by the
    [outcome] monad. *)

From Stdlib Require Import ZArith List Lia Bool String.
From Stdlib Require Import Strings.Byte.
From Stdlib Require Import Permutation.
Import ListNotations.
Local Open Scope Z_scope.

(** ** Exceptions and outcomes *)

Inductive exn : Type :=
| AssertionError
| MIDIError (msg : string)
| OverflowError
| AttributeError.

(** A computation returns a value, raises, or loops for ever. *)
Inductive outcome (A : Type) : Type :=
| Ok (a : A)
| Raise (e : exn)
| Diverge.

Arguments Ok {A} a.
Arguments Raise {A} e.
Arguments Diverge {A}.

Definition bind {A B : Type} (m : outcome A) (k : A -> outcome B) : outcome B :=
  match m with
  | Ok a => k a
  | Raise e => Raise e
  | Diverge => Diverge
  end.

Notation "x <- m ;; k" := (bind m (fun x => k))
  (at level 61, m at next level, right associativity).
Notation "' pat <- m ;; k" := (bind m (fun x => match x with pat => k end))
  (at level 61, pat pattern, m at next level, right associativity).

(** ** Bytes and integers *)

Definition Z_of_byte (b : byte) : Z := Z.of_N (Byte.to_N b).

Definition byte_of_Z (z : Z) : byte :=
  match Byte.of_N (Z.to_N z) with
  | Some b => b
  | None => x00
  end.

(** [int.from_bytes(bs, byteorder="big")] *)
Definition int_from_bytes (bs : list byte) : Z :=
  fold_left (fun acc b => acc * 256 + Z_of_byte b) bs 0.

(** The [n] low-order base-256 digits of [x], most significant first. *)
Fixpoint big_endian (n : nat) (x : Z) : list byte :=
  match n with
  | O => []
  | S n' => big_endian n' (x / 256) ++ [byte_of_Z (x mod 256)]
  end.

(** [x.to_bytes(n, byteorder="big")]: raises [OverflowError] when [x] is
    negative or too big for [n] bytes. *)
Definition to_bytes (x : Z) (n : nat) : outcome (list byte) :=
  if (0 <=? x) && (x <? 256 ^ Z.of_nat n)
  then Ok (big_endian n x)
  else Raise OverflowError.

(** [bytes(n)]: [n] zero bytes. *)
Definition bytes (n : nat) : list byte := repeat x00 n.

Definition bytes_eqb (a b : list byte) : bool :=
  if list_eq_dec Byte.byte_eq_dec a b then true else false.

(** ** Binary file objects

    [f.read(number)] returns the next [number] bytes, or fewer when the end
    of the file comes first, and advances the file.  The codec never calls
    it with a negative count. *)

Definition stream : Type := list byte.

Definition read (f : stream) (number : Z) : list byte * stream :=
  (firstn (Z.to_nat number) f, skipn (Z.to_nat number) f).

(** The messages of the two [MIDIError]s the parser raises. *)
Definition seconds_msg : string :=
  "That file determines time using seconds instead of beats, and doing math with time is hard.".
Definition invalid_event_msg : string :=
  "That file has an invalid MIDI event type, and I couldn't figure out how to ignore those as indicated in the filetype spec.".

(** ** class MidiEvent *)

Module MidiEvent.

Record t : Type := mk {
  _length : Z;
  timedelta : Z;
  note : option Z;
  velocity : option Z;
  channel : option Z;
  _trailing_ignore : list byte;
  _event_info : Z
}.

(** [_read_bytes]: [self._length += number; return f.read(number)].
    The counter grows by the number of bytes asked for. *)
Definition _read_bytes (len : Z) (f : stream) (number : Z)
  : list byte * Z * stream :=
  let '(bs, f) := read f number in (bs, len + number, f).

(** The first [while True] of [__init__]: the delta time.  One iteration
    per byte; at the end of the file [f.read(1)] is empty, [raw] is 0 and
    the loop leaves. *)
Fixpoint __init__timedelta (f : stream) (timedelta len : Z) {struct f}
  : Z * Z * stream :=
  let timedelta := Z.shiftl timedelta 7 in
  match f with
  | [] =>
      let raw := int_from_bytes [] in
      (timedelta + Z.land raw 127, len + 1, [])
  | b :: f' =>
      let raw := int_from_bytes [b] in
      let timedelta := timedelta + Z.land raw 127 in
      if Z.land (Z.shiftr raw 7) 1 =? 0
      then (timedelta, len + 1, f')
      else __init__timedelta f' timedelta (len + 1)
  end.

(** The second [while True]: the length of a system or meta event. *)
Fixpoint __init__ignore (f : stream) (trailing : list byte)
    (ignore_num len : Z) {struct f} : list byte * Z * Z * stream :=
  match f with
  | [] =>
      let ignore_raw := int_from_bytes [] in
      (trailing ++ [], ignore_num + Z.land ignore_raw 127, len + 1, [])
  | b :: f' =>
      let trailing := trailing ++ [b] in
      let ignore_raw := int_from_bytes [b] in
      let ignore_num := ignore_num + Z.land ignore_raw 127 in
      if Z.land (Z.shiftr ignore_raw 7) 1 =? 0
      then (trailing, ignore_num, len + 1, f')
      else __init__ignore f' trailing ignore_num (len + 1)
  end.

Definition __init__ (f : stream) : outcome (t * stream) :=
  let '(timedelta, len, f) := __init__timedelta f 0 0 in
  let '(bs, len, f) := _read_bytes len f 1 in
  let _event_info := int_from_bytes bs in
  let event_type := Z.shiftr _event_info 4 in
  if event_type =? 15 then
    let event_subtype := Z.land _event_info 15 in
    let '(trailing, len, f) :=
      if event_subtype =? 15 then _read_bytes len f 1 else ([], len, f) in
    let '(trailing, ignore_num, len, f) := __init__ignore f trailing 0 len in
    let '(bs, len, f) := _read_bytes len f ignore_num in
    Ok (mk len timedelta None None None (trailing ++ bs) _event_info, f)
  else if (event_type =? 10) || (event_type =? 11) || (event_type =? 14) then
    let '(bs, len, f) := _read_bytes len f 2 in
    Ok (mk len timedelta None None None bs _event_info, f)
  else if (event_type =? 12) || (event_type =? 13) then
    let '(bs, len, f) := _read_bytes len f 1 in
    Ok (mk len timedelta None None None bs _event_info, f)
  else if (event_type =? 8) || (event_type =? 9) then
    let channel := Z.land _event_info 15 in
    let '(bs, len, f) := _read_bytes len f 1 in
    let note := int_from_bytes bs in
    let '(bs, len, f) := _read_bytes len f 1 in
    let velocity := int_from_bytes bs in
    Ok (mk len timedelta (Some note) (Some velocity) (Some channel) []
           _event_info, f)
  else Raise (MIDIError invalid_event_msg).

(** The [while td] loop of [to_file].  It leaves when [td] is zero; a
    negative [td] stays negative under [>> 7] and never leaves. *)
Fixpoint to_file_loop (fuel : nat) (td : Z) (result : list byte)
    (is_first : bool) {struct fuel} : outcome (list byte) :=
  if td =? 0 then Ok result
  else
    match fuel with
    | O => Diverge
    | S fuel' =>
        let next_byte := Z.land td 127 in
        let next_byte :=
          if is_first then next_byte else Z.lor next_byte 128 in
        let td := Z.shiftr td 7 in
        b <- to_bytes next_byte 1 ;;
        to_file_loop fuel' td (b ++ result) false
    end.

(** Iterations granted to the loop: one more than the position of the
    highest bit, which is enough for every non-negative [td]
    (see [to_file_loop_fuel]). *)
Definition to_file_fuel (td : Z) : nat := S (Z.to_nat (Z.log2 td)).

Definition to_file (self : t) : outcome (list byte) :=
  let td := timedelta self in
  result <- to_file_loop (to_file_fuel td) td [] true ;;
  let result :=
    if Z.of_nat (List.length result) =? 0 then bytes 1 else result in
  b <- to_bytes (_event_info self) 1 ;;
  let result := result ++ b in
  result <-
    match note self with
    | Some n =>
        b <- to_bytes n 1 ;;
        let result := result ++ b in
        match velocity self with
        | Some v => b <- to_bytes v 1 ;; Ok (result ++ b)
        | None => Raise AttributeError
        end
    | None => Ok result
    end ;;
  Ok (result ++ _trailing_ignore self).

End MidiEvent.

(** ** class MidiTrack *)

Module MidiTrack.

Record t : Type := mk { events : list MidiEvent.t }.

Definition MTrk : list byte := [x4d; x54; x72; x6b].

(** The [while length] loop of [__init__].  [fuel] bounds the number of
    events; [__init__] grants one more than the number of bytes left,
    which the loop never uses up (see [MidiTrack_loop_total]). *)
Fixpoint __init__loop (fuel : nat) (length : Z) (f : stream)
    (events : list MidiEvent.t) {struct fuel}
  : outcome (list MidiEvent.t * stream) :=
  if length =? 0 then Ok (events, f)
  else
    match fuel with
    | O => Diverge
    | S fuel' =>
        '(event, f) <- MidiEvent.__init__ f ;;
        let events := events ++ [event] in
        let length := length - MidiEvent._length event in
        __init__loop fuel' length f events
    end.

Definition __init__ (f : stream) : outcome (t * stream) :=
  let '(header, f) := read f 4 in
  if negb (bytes_eqb header MTrk) then Raise AssertionError
  else
    let events := [] in
    let '(bs, f) := read f 4 in
    let length := int_from_bytes bs in
    '(events, f) <- __init__loop (S (List.length f)) length f events ;;
    Ok (mk events, f).

(** The [for event in self.events] loop of [to_file]. *)
Fixpoint to_file_loop (events : list MidiEvent.t) (result : list byte)
  : outcome (list byte) :=
  match events with
  | [] => Ok result
  | event :: events' =>
      b <- MidiEvent.to_file event ;;
      to_file_loop events' (result ++ b)
  end.

Definition to_file (self : t) : outcome (list byte) :=
  let result := bytes 0 in
  result <- to_file_loop (events self) result ;;
  l <- to_bytes (Z.of_nat (List.length result)) 4 ;;
  Ok (MTrk ++ l ++ result).

End MidiTrack.

(** ** class MidiFile *)

Module MidiFile.

Record t : Type := mk {
  _length : Z;
  format : Z;
  _num_tracks : Z;
  _division : Z;
  division_type : Z;
  per_quarter_note : Z;
  _trailing : list byte;
  tracks : list MidiTrack.t
}.

Definition MThd : list byte := [x4d; x54; x68; x64].

(** [[MidiTrack(f) for x in range(self._num_tracks)]] *)
Fixpoint __init__tracks (n : nat) (f : stream)
  : outcome (list MidiTrack.t * stream) :=
  match n with
  | O => Ok ([], f)
  | S n' =>
      '(track, f) <- MidiTrack.__init__ f ;;
      '(tracks, f) <- __init__tracks n' f ;;
      Ok (track :: tracks, f)
  end.

Definition __init__ (f : stream) : outcome (t * stream) :=
  let '(header, f) := read f 4 in
  if negb (bytes_eqb header MThd) then Raise AssertionError
  else
    let '(bs, f) := read f 4 in
    let _length := int_from_bytes bs in
    if negb (6 <=? _length) then Raise AssertionError
    else
      let '(bs, f) := read f 2 in
      let format := int_from_bytes bs in
      let '(bs, f) := read f 2 in
      let _num_tracks := int_from_bytes bs in
      let '(bs, f) := read f 2 in
      let _division := int_from_bytes bs in
      let division_type := Z.land (Z.shiftr _division 15) 1 in
      if division_type =? 1 then Raise (MIDIError seconds_msg)
      else
        let per_quarter_note := Z.land _division 16383 in
        let _trailing := bytes 0 in
        let '(_trailing, f) :=
          if 6 <? _length then read f (_length - 6) else (_trailing, f) in
        '(tracks, f) <- __init__tracks (Z.to_nat _num_tracks) f ;;
        Ok (mk _length format _num_tracks _division division_type
               per_quarter_note _trailing tracks, f).

(** The [for track in self.tracks] loop of [to_file]. *)
Fixpoint to_file_loop (tracks : list MidiTrack.t) (result : list byte)
  : outcome (list byte) :=
  match tracks with
  | [] => Ok result
  | track :: tracks' =>
      b <- MidiTrack.to_file track ;;
      to_file_loop tracks' (result ++ b)
  end.

Definition to_file (self : t) : outcome (list byte) :=
  l <- to_bytes (_length self) 4 ;;
  fm <- to_bytes (format self) 2 ;;
  n <- to_bytes (_num_tracks self) 2 ;;
  d <- to_bytes (_division self) 2 ;;
  let result := MThd ++ l ++ fm ++ n ++ d ++ _trailing self in
  to_file_loop (tracks self) result.

End MidiFile.

(** ** The pitch effect

    The two [for] loops of [pitch], run once [amount] has been read as an
    integer.  Events are distinct objects ([chorus] and [delay] insert
    [copy.copy] copies), so updating each in place is a map. *)

Definition pitch_event (amount : Z) (event : MidiEvent.t) : MidiEvent.t :=
  match MidiEvent.note event with
  | None => event
  | Some n =>
      MidiEvent.mk (MidiEvent._length event) (MidiEvent.timedelta event)
        (Some (Z.max 0 (Z.min 127 (n + amount))))
        (MidiEvent.velocity event) (MidiEvent.channel event)
        (MidiEvent._trailing_ignore event) (MidiEvent._event_info event)
  end.

Definition pitch_track (amount : Z) (track : MidiTrack.t) : MidiTrack.t :=
  MidiTrack.mk (map (pitch_event amount) (MidiTrack.events track)).

Definition pitch (amount : Z) (tracks : list MidiTrack.t)
  : list MidiTrack.t :=
  map (pitch_track amount) tracks.

(** ** Variable-length quantities

    The vocabulary in which the delta-time loops are specified: the seven
    payload bits of a byte, its continuation bit, the value of a big-endian
    sequence of groups, and the shape "continuation bit on every byte but
    the last". *)

Definition group (b : byte) : Z := Z.land (Z_of_byte b) 127.

Definition continues (b : byte) : bool :=
  negb (Z.land (Z.shiftr (Z_of_byte b) 7) 1 =? 0).

Definition vlq_step (acc : Z) (b : byte) : Z := acc * 128 + group b.

Definition groups_value (bs : list byte) : Z := fold_left vlq_step bs 0.

Fixpoint vlq_shape (bs : list byte) : bool :=
  match bs with
  | [] => false
  | [b] => negb (continues b)
  | b :: bs' => continues b && vlq_shape bs'
  end.

(** No leading group of zeros, unless the byte stands alone. *)
Definition vlq_minimal (bs : list byte) : bool :=
  match bs with
  | [] => false
  | [b] => true
  | b :: _ => negb (group b =? 0)
  end.

(** Lines 151-163 of [to_file]: the delta time as bytes. *)
Definition to_file_timedelta (td : Z) : outcome (list byte) :=
  result <- MidiEvent.to_file_loop (MidiEvent.to_file_fuel td) td [] true ;;
  Ok (if Z.of_nat (List.length result) =? 0 then bytes 1 else result).

(** ** Byte accounting

    The bytes the parser asked for, read off the parsed objects: an event
    counts its own in [_length]; a track adds the 8 bytes of its chunk
    header; a file adds 8 bytes and the header length it declares. *)

Definition events_requested (events : list MidiEvent.t) : Z :=
  fold_right (fun event n => MidiEvent._length event + n) 0 events.

Definition track_requested (track : MidiTrack.t) : Z :=
  8 + events_requested (MidiTrack.events track).

Definition tracks_requested (tracks : list MidiTrack.t) : Z :=
  fold_right (fun track n => track_requested track + n) 0 tracks.

Definition file_requested (mf : MidiFile.t) : Z :=
  8 + MidiFile._length mf + tracks_requested (MidiFile.tracks mf).

(** The event serialises to as many bytes as were asked for when it was
    parsed. *)
Definition same_length (event : MidiEvent.t) : bool :=
  match MidiEvent.to_file event with
  | Ok bs => Z.of_nat (List.length bs) =? MidiEvent._length event
  | _ => false
  end.

Definition all_same_length (tracks : list MidiTrack.t) : bool :=
  forallb (fun track => forallb same_length (MidiTrack.events track)) tracks.

(** The precondition of track parsing: from [f] on, events can be parsed
    one after another, each within the budget [length] that is left, until
    the budget is exactly used up at [f']. *)
Inductive partitions : Z -> stream -> list MidiEvent.t -> stream -> Prop :=
| partitions_done (f : stream) : partitions 0 f [] f
| partitions_event (length : Z) (f f' f'' : stream) (event : MidiEvent.t)
    (events : list MidiEvent.t) :
    MidiEvent.__init__ f = Ok (event, f') ->
    MidiEvent._length event <= length ->
    partitions (length - MidiEvent._length event) f' events f'' ->
    partitions length f (event :: events) f''.


(** ** The velocity effect

    [velocity_event] is the body of the two [for] loops: [not event.velocity]
    holds for [None] and for 0, and those events are passed over.
    [velocity] is one turn of the prompt loop on an answer that reads as the
    integer [amount]: [None] when the answer is refused and the prompt comes
    again with nothing changed. *)

Definition velocity_event (amount : Z) (event : MidiEvent.t) : MidiEvent.t :=
  match MidiEvent.velocity event with
  | None => event
  | Some v =>
      if v =? 0 then event
      else
        MidiEvent.mk (MidiEvent._length event) (MidiEvent.timedelta event)
          (MidiEvent.note event) (Some amount) (MidiEvent.channel event)
          (MidiEvent._trailing_ignore event) (MidiEvent._event_info event)
  end.

Definition velocity_track (amount : Z) (track : MidiTrack.t) : MidiTrack.t :=
  MidiTrack.mk (map (velocity_event amount) (MidiTrack.events track)).

Definition velocity (amount : Z) (tracks : list MidiTrack.t)
  : option (list MidiTrack.t) :=
  if (amount <? 1) || (127 <? amount) then None
  else Some (map (velocity_track amount) tracks).

(** ** The chorus and delay effects

    Both walk the events of a track from the last index down to 0 and
    insert copies of the note events behind them.  [processed] is the list
    of integers the answer to the prompt was turned into.  What the loops
    can raise is kept apart from the parser's exceptions. *)

Inductive raised : Type := IndexError | UnboundLocalError.

Inductive effect (A : Type) : Type :=
| Done (a : A)
| Raised (e : raised).

Arguments Done {A} a.
Arguments Raised {A} e.

(** [l.insert(i, x)] for [i >= 0]: past the end it appends. *)
Definition list_insert {A : Type} (i : nat) (x : A) (l : list A) : list A :=
  firstn i l ++ x :: skipn i l.

(** [copy.copy(event)] with [timedelta] set afterwards. *)
Definition with_timedelta (event : MidiEvent.t) (td : Z) : MidiEvent.t :=
  MidiEvent.mk (MidiEvent._length event) td (MidiEvent.note event)
    (MidiEvent.velocity event) (MidiEvent.channel event)
    (MidiEvent._trailing_ignore event) (MidiEvent._event_info event).

(** The copy [chorus] makes of [event], whose note is [n], for [pitch]. *)
Definition chorus_copy (event : MidiEvent.t) (n pitch : Z) : MidiEvent.t :=
  MidiEvent.mk (MidiEvent._length event) 0
    (Some (Z.max 0 (Z.min 127 (n + pitch))))
    (MidiEvent.velocity event) (MidiEvent.channel event)
    (MidiEvent._trailing_ignore event) (MidiEvent._event_info event).

(** [for pitch in processed]: each copy goes to index [idx + 1]. *)
Fixpoint chorus_pitches (processed : list Z) (event : MidiEvent.t) (n : Z)
    (idx : nat) (events : list MidiEvent.t) : list MidiEvent.t :=
  match processed with
  | [] => events
  | pitch :: processed' =>
      chorus_pitches processed' event n idx
        (list_insert (idx + 1) (chorus_copy event n pitch) events)
  end.

(** [for idx in range(len(track.events)-1, -1, -1)], with [count] indices
    still to visit: the next one is [count - 1]. *)
Fixpoint chorus_loop (count : nat) (processed : list Z)
    (events : list MidiEvent.t) : effect (list MidiEvent.t) :=
  match count with
  | O => Done events
  | S idx =>
      match nth_error events idx with
      | None => Raised IndexError
      | Some event =>
          match MidiEvent.note event with
          | None => chorus_loop idx processed events
          | Some n =>
              chorus_loop idx processed
                (chorus_pitches processed event n idx events)
          end
      end
  end.

Definition chorus_track (processed : list Z) (track : MidiTrack.t)
  : effect MidiTrack.t :=
  match chorus_loop (List.length (MidiTrack.events track)) processed
          (MidiTrack.events track) with
  | Done events => Done (MidiTrack.mk events)
  | Raised e => Raised e
  end.

Fixpoint chorus (processed : list Z) (tracks : list MidiTrack.t)
  : effect (list MidiTrack.t) :=
  match tracks with
  | [] => Done []
  | track :: tracks' =>
      match chorus_track processed track with
      | Raised e => Raised e
      | Done track' =>
          match chorus processed tracks' with
          | Raised e => Raised e
          | Done tracks'' => Done (track' :: tracks'')
          end
      end
  end.

(** The [for i, aftertrack in enumerate(after, 1)] loop of [delay] with its
    [else].  [j] is the next value of the enumeration, [i] the variable of
    the function: unbound ([None]) until the loop has run once in this call
    of [delay].  When [after] is used up the [else] does [i += 1], which
    raises if [i] is unbound. *)
Fixpoint delay_scan (after : list MidiEvent.t) (j : nat) (i : option nat)
    (ticks : Z) : effect (nat * Z) :=
  match after with
  | [] =>
      match i with
      | None => Raised UnboundLocalError
      | Some i => Done ((i + 1)%nat, ticks)
      end
  | aftertrack :: after' =>
      if ticks <? MidiEvent.timedelta aftertrack then Done (j, ticks)
      else
        delay_scan after' (j + 1)%nat (Some j)
          (ticks - MidiEvent.timedelta aftertrack)
  end.

(** [track.events[k].timedelta -= ticks], for [k] within the list. *)
Definition retime (k : nat) (ticks : Z) (events : list MidiEvent.t)
  : list MidiEvent.t :=
  match nth_error events k with
  | Some event =>
      firstn k events ++
      with_timedelta event (MidiEvent.timedelta event - ticks) ::
      skipn (k + 1) events
  | None => events
  end.

(** The body of [for ticks in processed]. *)
Definition delay_insert (event : MidiEvent.t) (idx : nat) (ticks : Z)
    (i : option nat) (events : list MidiEvent.t)
  : effect (list MidiEvent.t * option nat) :=
  let after := skipn (idx + 1) events in
  match delay_scan after 1 i ticks with
  | Raised e => Raised e
  | Done (i, ticks) =>
      let new_event := with_timedelta event ticks in
      let events :=
        if (idx + i <? List.length events)%nat
        then retime (idx + i) ticks events
        else events in
      Done (list_insert (idx + i) new_event events, Some i)
  end.

Fixpoint delay_ticks (processed : list Z) (event : MidiEvent.t) (idx : nat)
    (i : option nat) (events : list MidiEvent.t)
  : effect (list MidiEvent.t * option nat) :=
  match processed with
  | [] => Done (events, i)
  | ticks :: processed' =>
      match delay_insert event idx ticks i events with
      | Raised e => Raised e
      | Done (events, i) => delay_ticks processed' event idx i events
      end
  end.

Fixpoint delay_loop (count : nat) (processed : list Z) (i : option nat)
    (events : list MidiEvent.t) : effect (list MidiEvent.t * option nat) :=
  match count with
  | O => Done (events, i)
  | S idx =>
      match nth_error events idx with
      | None => Raised IndexError
      | Some event =>
          match MidiEvent.note event with
          | None => delay_loop idx processed i events
          | Some _ =>
              match delay_ticks processed event idx i events with
              | Raised e => Raised e
              | Done (events, i) => delay_loop idx processed i events
              end
          end
      end
  end.

(** [for track in tracks], the variable [i] carried from track to track. *)
Fixpoint delay_tracks (processed : list Z) (i : option nat)
    (tracks : list MidiTrack.t) : effect (list MidiTrack.t * option nat) :=
  match tracks with
  | [] => Done ([], i)
  | track :: tracks' =>
      match delay_loop (List.length (MidiTrack.events track)) processed i
              (MidiTrack.events track) with
      | Raised e => Raised e
      | Done (events, i) =>
          match delay_tracks processed i tracks' with
          | Raised e => Raised e
          | Done (tracks'', i) => Done (MidiTrack.mk events :: tracks'', i)
          end
      end
  end.

(** The loops of [delay] once [processed] holds the tick counts: [i] is
    unbound when the function is entered. *)
Definition delay (processed : list Z) (tracks : list MidiTrack.t)
  : effect (list MidiTrack.t) :=
  match delay_tracks processed None tracks with
  | Raised e => Raised e
  | Done (tracks', _) => Done tracks'
  end.

(** ** Time lines

    What a listener hears of a track: each event without its delta time,
    at the tick it falls on. *)

Definition untimed (event : MidiEvent.t) : MidiEvent.t :=
  with_timedelta event 0.

Fixpoint timeline (t0 : Z) (events : list MidiEvent.t)
  : list (Z * MidiEvent.t) :=
  match events with
  | [] => []
  | event :: events' =>
      let t := t0 + MidiEvent.timedelta event in
      (t, untimed event) :: timeline t events'
  end.

(** The entries [delay] is to add: for each event with a note and each
    tick count, the event that many ticks later. *)
Fixpoint delay_copies (processed : list Z) (t0 : Z)
    (events : list MidiEvent.t) : list (Z * MidiEvent.t) :=
  match events with
  | [] => []
  | event :: events' =>
      let t := t0 + MidiEvent.timedelta event in
      match MidiEvent.note event with
      | None => delay_copies processed t events'
      | Some _ =>
          map (fun ticks => (t + ticks, untimed event)) processed ++
          delay_copies processed t events'
      end
  end.

(** What [chorus] is to make of a list of events: behind each event with a
    note, its copies, the one for the last pitch first. *)
Definition chorus_spec (processed : list Z) (events : list MidiEvent.t)
  : list MidiEvent.t :=
  flat_map
    (fun event =>
       match MidiEvent.note event with
       | None => [event]
       | Some n => event :: rev (map (chorus_copy event n) processed)
       end)
    events.

(** The time line [chorus] is to give: each event where it was, and
    behind an event with a note its copies on the same tick. *)
Fixpoint chorus_timeline (processed : list Z) (t0 : Z)
    (events : list MidiEvent.t) : list (Z * MidiEvent.t) :=
  match events with
  | [] => []
  | event :: events' =>
      let t := t0 + MidiEvent.timedelta event in
      (t, untimed event) ::
      match MidiEvent.note event with
      | None => []
      | Some n =>
          rev (map (fun pitch => (t, chorus_copy event n pitch)) processed)
      end ++ chorus_timeline processed t events'
  end.

(** ** Saving and loading again

    [event_body] is [MidiEvent.__init__] from line 111 on, after the
    delta-time loop has left [timedelta] and the counter [len].
    [with_length] sets the counter of an event, [relength] sets it to the
    number of bytes [to_file] writes for the event, which is what the
    parser counts when it reads those bytes back.  An event [reloads] when
    its bytes, followed by anything, parse back to it. *)

Definition event_body (timedelta len : Z) (f : stream)
  : outcome (MidiEvent.t * stream) :=
  let '(bs, len, f) := MidiEvent._read_bytes len f 1 in
  let _event_info := int_from_bytes bs in
  let event_type := Z.shiftr _event_info 4 in
  if event_type =? 15 then
    let event_subtype := Z.land _event_info 15 in
    let '(trailing, len, f) :=
      if event_subtype =? 15 then MidiEvent._read_bytes len f 1
      else ([], len, f) in
    let '(trailing, ignore_num, len, f) :=
      MidiEvent.__init__ignore f trailing 0 len in
    let '(bs, len, f) := MidiEvent._read_bytes len f ignore_num in
    Ok (MidiEvent.mk len timedelta None None None (trailing ++ bs)
          _event_info, f)
  else if (event_type =? 10) || (event_type =? 11) || (event_type =? 14) then
    let '(bs, len, f) := MidiEvent._read_bytes len f 2 in
    Ok (MidiEvent.mk len timedelta None None None bs _event_info, f)
  else if (event_type =? 12) || (event_type =? 13) then
    let '(bs, len, f) := MidiEvent._read_bytes len f 1 in
    Ok (MidiEvent.mk len timedelta None None None bs _event_info, f)
  else if (event_type =? 8) || (event_type =? 9) then
    let channel := Z.land _event_info 15 in
    let '(bs, len, f) := MidiEvent._read_bytes len f 1 in
    let note := int_from_bytes bs in
    let '(bs, len, f) := MidiEvent._read_bytes len f 1 in
    let velocity := int_from_bytes bs in
    Ok (MidiEvent.mk len timedelta (Some note) (Some velocity) (Some channel)
          [] _event_info, f)
  else Raise (MIDIError invalid_event_msg).

Definition with_length (event : MidiEvent.t) (len : Z) : MidiEvent.t :=
  MidiEvent.mk len (MidiEvent.timedelta event) (MidiEvent.note event)
    (MidiEvent.velocity event) (MidiEvent.channel event)
    (MidiEvent._trailing_ignore event) (MidiEvent._event_info event).

Definition with_note (event : MidiEvent.t) (n v : Z) : MidiEvent.t :=
  MidiEvent.mk (MidiEvent._length event) (MidiEvent.timedelta event)
    (Some n) (Some v) (MidiEvent.channel event)
    (MidiEvent._trailing_ignore event) (MidiEvent._event_info event).

Definition relength (event : MidiEvent.t) : MidiEvent.t :=
  match MidiEvent.to_file event with
  | Ok bs => with_length event (Z.of_nat (List.length bs))
  | _ => event
  end.

Definition relength_track (track : MidiTrack.t) : MidiTrack.t :=
  MidiTrack.mk (map relength (MidiTrack.events track)).

(** The file object with its list of tracks replaced, as the effects
    leave it. *)
Definition with_tracks (mf : MidiFile.t) (tracks : list MidiTrack.t)
  : MidiFile.t :=
  MidiFile.mk (MidiFile._length mf) (MidiFile.format mf)
    (MidiFile._num_tracks mf) (MidiFile._division mf)
    (MidiFile.division_type mf) (MidiFile.per_quarter_note mf)
    (MidiFile._trailing mf) tracks.

Definition reloads (event : MidiEvent.t) : Prop :=
  exists bs,
    MidiEvent.to_file event = Ok bs /\
    forall rest,
      MidiEvent.__init__ (bs ++ rest) =
      Ok (with_length event (Z.of_nat (List.length bs)), rest).

(** The file object that loading the saved bytes of [mf] gives: the
    header fields as they are, the two fields [__init__] derives from
    [_division] derived again, and every event's counter recounted. *)
Definition reloaded (mf : MidiFile.t) : MidiFile.t :=
  MidiFile.mk (MidiFile._length mf) (MidiFile.format mf)
    (MidiFile._num_tracks mf) (MidiFile._division mf)
    (Z.land (Z.shiftr (MidiFile._division mf) 15) 1)
    (Z.land (MidiFile._division mf) 16383)
    (MidiFile._trailing mf) (map relength_track (MidiFile.tracks mf)).

Definition all_reload (tracks : list MidiTrack.t) : Prop :=
  Forall (fun track => Forall reloads (MidiTrack.events track)) tracks.

(** ** Canonical files

    The files the amended round trip is about, described on their bytes
    as sections 4.2 and 6 of the specification describe the format.  An
    event is a delta time followed by a status byte and the payload its
    type nibble asks for.  What is asked beyond the format: the delta time
    is in its minimal encoding, and the length of a system or meta event
    is written in one byte, so it is below 128. *)

Definition event_type (status : byte) : Z := Z.shiftr (Z_of_byte status) 4.

Inductive canonical_body : list byte -> Prop :=
| body_note (status n v : byte) :
    event_type status = 8 \/ event_type status = 9 ->
    canonical_body [status; n; v]
| body_two_bytes (status a b : byte) :
    event_type status = 10 \/ event_type status = 11 \/
    event_type status = 14 ->
    canonical_body [status; a; b]
| body_one_byte (status a : byte) :
    event_type status = 12 \/ event_type status = 13 ->
    canonical_body [status; a]
| body_meta (ty len : byte) (payload : list byte) :
    Z_of_byte len < 128 ->
    Z.of_nat (List.length payload) = Z_of_byte len ->
    canonical_body (xff :: ty :: len :: payload)
| body_system (status len : byte) (payload : list byte) :
    event_type status = 15 ->
    Z.land (Z_of_byte status) 15 <> 15 ->
    Z_of_byte len < 128 ->
    Z.of_nat (List.length payload) = Z_of_byte len ->
    canonical_body (status :: len :: payload).

Definition canonical_event (c : list byte) : Prop :=
  exists delta body,
    c = delta ++ body /\ vlq_shape delta = true /\
    vlq_minimal delta = true /\ canonical_body body.

(** A track chunk: "MTrk", the 4-byte length, the events. *)
Definition track_bytes (prefix : list byte) (chunks : list (list byte))
  : list byte :=
  MidiTrack.MTrk ++ prefix ++ List.concat chunks.

Definition canonical_track (prefix : list byte) (chunks : list (list byte))
  : Prop :=
  List.length prefix = 4%nat /\
  int_from_bytes prefix = Z.of_nat (List.length (List.concat chunks)) /\
  Forall canonical_event chunks.

(** A file: "MThd", the 4-byte header length, format, number of tracks,
    division, the header bytes beyond the sixth, the track chunks.  A
    track is given by its length bytes and its events. *)
Definition file_bytes (prefix fmt num dv trailing : list byte)
    (tracks : list (list byte * list (list byte))) : list byte :=
  MidiFile.MThd ++ prefix ++ fmt ++ num ++ dv ++ trailing ++
  List.concat (map (fun t => track_bytes (fst t) (snd t)) tracks).

Definition canonical_file (prefix fmt num dv trailing : list byte)
    (tracks : list (list byte * list (list byte))) : Prop :=
  List.length prefix = 4%nat /\ List.length fmt = 2%nat /\
  List.length num = 2%nat /\ List.length dv = 2%nat /\
  6 <= int_from_bytes prefix /\
  Z.of_nat (List.length trailing) = int_from_bytes prefix - 6 /\
  Z.testbit (int_from_bytes dv) 15 = false /\
  int_from_bytes num = Z.of_nat (List.length tracks) /\
  Forall (fun t => canonical_track (fst t) (snd t)) tracks.

(** What the parse of a chunk of bytes into an event is to satisfy: the
    event is parsed from exactly these bytes, whatever follows them, it
    serialises to them, and its counter is their number. *)
Definition parsed_from (event : MidiEvent.t) (c : list byte) : Prop :=
  (forall rest, MidiEvent.__init__ (c ++ rest) = Ok (event, rest)) /\
  MidiEvent.to_file event = Ok c /\
  MidiEvent._length event = Z.of_nat (List.length c).

(** ** Examples *)

Definition sample_file : stream :=
  MidiFile.MThd ++ [x00; x00; x00; x06; x00; x01; x00; x01; x00; x60] ++
  MidiTrack.MTrk ++ [x00; x00; x00; x0c] ++
  [x00; x90; x3c; x40] ++ [x81; x00; x80; x3c; x00] ++ [x00; xc0; x05].

(** The same note-on in a one-track file, its delta time 0 written in two
    bytes, 80 00. *)
Definition padded_file : stream :=
  MidiFile.MThd ++ [x00; x00; x00; x06; x00; x01; x00; x01; x00; x60] ++
  MidiTrack.MTrk ++ [x00; x00; x00; x05] ++ [x80; x00; x90; x3c; x40].

(** What [sample_file] parses to. *)
Definition sample_track : MidiTrack.t :=
  MidiTrack.mk
    [MidiEvent.mk 4 0 (Some 60) (Some 64) (Some 0) [] 144;
     MidiEvent.mk 5 128 (Some 60) (Some 0) (Some 0) [] 128;
     MidiEvent.mk 3 0 None None None [x05] 192].

Definition sample_midi : MidiFile.t :=
  MidiFile.mk 6 1 1 96 0 96 [] [sample_track].

Example event_note_on :
  MidiEvent.__init__ [x00; x90; x3c; x40; xff] =
  Ok (MidiEvent.mk 4 0 (Some 60) (Some 64) (Some 0) [] 144, [xff]).
Proof. reflexivity. Qed.

Example event_note_on_bytes :
  MidiEvent.to_file (MidiEvent.mk 4 300 (Some 60) (Some 64) (Some 0) [] 144) =
  Ok [x82; x2c; x90; x3c; x40].
Proof. reflexivity. Qed.

Example sample_file_parses :
  exists mf, MidiFile.__init__ sample_file = Ok (mf, []) /\
             MidiFile.to_file mf = Ok sample_file.
Proof. eexists; split; reflexivity. Qed.

(** * Properties *)

(** ** Bytes and integers *)

Lemma Z_of_byte_range (b : byte) : 0 <= Z_of_byte b < 256.
Proof.
  unfold Z_of_byte. pose proof (Byte.to_N_bounded b). lia.
Qed.

Lemma byte_of_Z_of_byte (b : byte) : byte_of_Z (Z_of_byte b) = b.
Proof.
  unfold byte_of_Z, Z_of_byte. rewrite N2Z.id, Byte.of_to_N. reflexivity.
Qed.

Lemma Z_of_byte_of_Z (z : Z) : 0 <= z < 256 -> Z_of_byte (byte_of_Z z) = z.
Proof.
  intros Hz. unfold byte_of_Z, Z_of_byte.
  destruct (Byte.of_N (Z.to_N z)) as [b|] eqn:E.
  - apply Byte.to_of_N in E. rewrite E. lia.
  - apply Byte.of_N_None_iff in E. lia.
Qed.

Lemma Z_of_byte_inj (a b : byte) : Z_of_byte a = Z_of_byte b -> a = b.
Proof.
  intros H. rewrite <- (byte_of_Z_of_byte a), <- (byte_of_Z_of_byte b).
  now rewrite H.
Qed.

Lemma int_from_bytes_nil : int_from_bytes [] = 0.
Proof. reflexivity. Qed.

Lemma int_from_bytes_one (b : byte) : int_from_bytes [b] = Z_of_byte b.
Proof. reflexivity. Qed.

Lemma int_from_bytes_snoc (bs : list byte) (b : byte) :
  int_from_bytes (bs ++ [b]) = int_from_bytes bs * 256 + Z_of_byte b.
Proof. unfold int_from_bytes. rewrite fold_left_app. reflexivity. Qed.

Lemma int_from_bytes_range (bs : list byte) :
  0 <= int_from_bytes bs < 256 ^ Z.of_nat (List.length bs).
Proof.
  induction bs as [|b bs IH] using rev_ind.
  - cbn. lia.
  - rewrite int_from_bytes_snoc, length_app. cbn [List.length].
    replace (Z.of_nat (List.length bs + 1)) with (Z.of_nat (List.length bs) + 1) by lia.
    rewrite Z.pow_add_r by lia.
    pose proof (Z_of_byte_range b). lia.
Qed.

Lemma big_endian_length (n : nat) (x : Z) : List.length (big_endian n x) = n.
Proof.
  revert x. induction n as [|n IH]; intros x; cbn.
  - reflexivity.
  - rewrite length_app, IH. cbn. lia.
Qed.

Lemma big_endian_from_bytes (bs : list byte) :
  big_endian (List.length bs) (int_from_bytes bs) = bs.
Proof.
  induction bs as [|b bs IH] using rev_ind.
  - reflexivity.
  - rewrite length_app, Nat.add_comm. cbn [List.length Nat.add big_endian].
    rewrite int_from_bytes_snoc.
    pose proof (Z_of_byte_range b).
    replace ((int_from_bytes bs * 256 + Z_of_byte b) / 256)
      with (int_from_bytes bs) by (apply Z.div_unique with (Z_of_byte b); lia).
    replace ((int_from_bytes bs * 256 + Z_of_byte b) mod 256)
      with (Z_of_byte b) by (apply Z.mod_unique with (int_from_bytes bs); lia).
    now rewrite IH, byte_of_Z_of_byte.
Qed.

Lemma int_from_bytes_big_endian (n : nat) (x : Z) :
  int_from_bytes (big_endian n x) = x mod 256 ^ Z.of_nat n.
Proof.
  revert x. induction n as [|n IH]; intros x.
  - cbn. now rewrite Z.mod_1_r.
  - cbn [big_endian]. rewrite int_from_bytes_snoc, IH.
    rewrite Z_of_byte_of_Z by (apply Z.mod_pos_bound; lia).
    replace (Z.of_nat (S n)) with (1 + Z.of_nat n) by lia.
    rewrite Z.pow_add_r, Z.pow_1_r by lia.
    rewrite Z.rem_mul_r by lia. lia.
Qed.

(** [to_bytes] gives back the bytes an integer was read from. *)
Lemma to_bytes_from_bytes (bs : list byte) (n : nat) :
  List.length bs = n -> to_bytes (int_from_bytes bs) n = Ok bs.
Proof.
  intros <-. unfold to_bytes. pose proof (int_from_bytes_range bs) as H.
  replace (0 <=? int_from_bytes bs) with true by (symmetry; apply Z.leb_le; lia).
  replace (int_from_bytes bs <? 256 ^ Z.of_nat (List.length bs)) with true
    by (symmetry; apply Z.ltb_lt; lia).
  cbn. now rewrite big_endian_from_bytes.
Qed.

Lemma to_bytes_one (x : Z) :
  0 <= x < 256 -> to_bytes x 1 = Ok [byte_of_Z x].
Proof.
  intros H. unfold to_bytes.
  replace (0 <=? x) with true by (symmetry; apply Z.leb_le; lia).
  replace (x <? 256 ^ Z.of_nat 1) with true by (symmetry; apply Z.ltb_lt; cbn; lia).
  cbn. rewrite Z.mod_small by lia. reflexivity.
Qed.

Lemma to_bytes_Ok (x : Z) (n : nat) (bs : list byte) :
  to_bytes x n = Ok bs ->
  0 <= x < 256 ^ Z.of_nat n /\ List.length bs = n /\ int_from_bytes bs = x.
Proof.
  unfold to_bytes. intros H.
  destruct (0 <=? x) eqn:E1; [|discriminate].
  destruct (x <? 256 ^ Z.of_nat n) eqn:E2; [|discriminate].
  cbn in H. injection H as <-.
  apply Z.leb_le in E1. apply Z.ltb_lt in E2.
  repeat split; try lia.
  - apply big_endian_length.
  - rewrite int_from_bytes_big_endian. apply Z.mod_small. lia.
Qed.

Lemma read_app (f : stream) (n : Z) :
  f = fst (read f n) ++ snd (read f n).
Proof. unfold read. cbn. symmetry. apply firstn_skipn. Qed.

(** ** Variable-length quantities *)

Ltac byte_cases b :=
  destruct b; vm_compute; intros; try discriminate;
  repeat split; solve [reflexivity | discriminate | intro; discriminate].

Lemma group_range (b : byte) : 0 <= group b < 128.
Proof. byte_cases b. Qed.

Lemma group_low (b : byte) : continues b = false -> group b = Z_of_byte b.
Proof. byte_cases b. Qed.

Lemma low_byte (b : byte) :
  continues b = false -> byte_of_Z (group b) = b.
Proof. byte_cases b. Qed.

Lemma high_byte (b : byte) :
  continues b = true -> byte_of_Z (Z.lor (group b) 128) = b.
Proof. byte_cases b. Qed.

Lemma x80_only (b : byte) :
  continues b = true -> group b = 0 -> b = x80.
Proof. byte_cases b. Qed.

Lemma x00_only (b : byte) :
  continues b = false -> group b = 0 -> b = x00.
Proof. byte_cases b. Qed.

Lemma byte_of_group (g : Z) :
  0 <= g < 128 ->
  continues (byte_of_Z g) = false /\ group (byte_of_Z g) = g /\
  continues (byte_of_Z (Z.lor g 128)) = true /\
  group (byte_of_Z (Z.lor g 128)) = g /\ 0 <= Z.lor g 128 < 256.
Proof.
  intros Hg. rewrite <- (Z_of_byte_of_Z g) by lia.
  assert (Hb : Z_of_byte (byte_of_Z g) < 128) by (rewrite Z_of_byte_of_Z; lia).
  revert Hb. generalize (byte_of_Z g). intros b.
  rewrite byte_of_Z_of_byte.
  byte_cases b.
Qed.

Lemma land_127 (td : Z) : Z.land td 127 = td mod 128.
Proof. change 127 with (Z.ones 7). rewrite Z.land_ones by lia. reflexivity. Qed.

Lemma shiftr_7 (td : Z) : Z.shiftr td 7 = td / 128.
Proof. rewrite Z.shiftr_div_pow2 by lia. reflexivity. Qed.

Lemma shiftl_7 (td : Z) : Z.shiftl td 7 = td * 128.
Proof. rewrite Z.shiftl_mul_pow2 by lia. reflexivity. Qed.

Lemma groups_value_snoc (bs : list byte) (b : byte) :
  groups_value (bs ++ [b]) = groups_value bs * 128 + group b.
Proof. unfold groups_value. rewrite fold_left_app. reflexivity. Qed.

Lemma groups_value_nonneg (bs : list byte) : 0 <= groups_value bs.
Proof.
  induction bs as [|b bs IH] using rev_ind.
  - reflexivity.
  - rewrite groups_value_snoc. pose proof (group_range b). lia.
Qed.

Lemma vlq_shape_cons (c : byte) (bs : list byte) :
  bs <> [] -> vlq_shape (c :: bs) = continues c && vlq_shape bs.
Proof. destruct bs; [congruence | reflexivity]. Qed.

Lemma vlq_shape_snoc (hi : list byte) (b : byte) :
  forallb continues hi = true -> continues b = false ->
  vlq_shape (hi ++ [b]) = true.
Proof.
  induction hi as [|c hi IH]; intros Hhi Hb.
  - cbn. now rewrite Hb.
  - cbn in Hhi. apply andb_true_iff in Hhi as [Hc Hhi].
    cbn [app]. rewrite vlq_shape_cons by (destruct hi; discriminate).
    now rewrite Hc, IH.
Qed.

Lemma vlq_shape_inv (bs : list byte) :
  vlq_shape bs = true ->
  exists hi b, bs = hi ++ [b] /\ forallb continues hi = true /\
               continues b = false.
Proof.
  induction bs as [|c bs IH]; intros H.
  - discriminate.
  - destruct bs as [|d bs'].
    + exists [], c. cbn in H. repeat split. now apply negb_true_iff.
    + cbn [vlq_shape] in H. apply andb_true_iff in H as [Hc H].
      destruct (IH H) as (hi & b & E & Hhi & Hb).
      exists (c :: hi), b. rewrite E. repeat split; trivial.
      cbn. now rewrite Hc.
Qed.

(** *** The decoding loop, one byte at a time *)

Lemma timedelta_nil (acc len : Z) :
  MidiEvent.__init__timedelta [] acc len = (acc * 128, len + 1, []).
Proof.
  cbn [MidiEvent.__init__timedelta]. rewrite shiftl_7, int_from_bytes_nil.
  cbn. now rewrite Z.add_0_r.
Qed.

Lemma timedelta_cons (b : byte) (f : stream) (acc len : Z) :
  MidiEvent.__init__timedelta (b :: f) acc len =
  if continues b
  then MidiEvent.__init__timedelta f (vlq_step acc b) (len + 1)
  else (vlq_step acc b, len + 1, f).
Proof.
  cbn [MidiEvent.__init__timedelta].
  rewrite shiftl_7, int_from_bytes_one. unfold continues, vlq_step, group.
  destruct (Z.land (Z.shiftr (Z_of_byte b) 7) 1 =? 0); reflexivity.
Qed.

Lemma timedelta_decode (bs rest : list byte) :
  forall acc len,
  vlq_shape bs = true ->
  MidiEvent.__init__timedelta (bs ++ rest) acc len =
  (fold_left vlq_step bs acc, len + Z.of_nat (List.length bs), rest).
Proof.
  induction bs as [|b bs IH]; intros acc len H.
  - discriminate.
  - cbn [app]. rewrite timedelta_cons. destruct bs as [|d bs'].
    + cbn in H. apply negb_true_iff in H. rewrite H. cbn. reflexivity.
    + cbn [vlq_shape] in H. apply andb_true_iff in H as [Hb H].
      rewrite Hb. rewrite (IH _ _ H). cbn [fold_left List.length].
      f_equal. f_equal. lia.
Qed.

(** What the loop has read when it leaves: a well-shaped quantity, unless
    the file ended first, in which case it counted a byte it never got. *)
Lemma timedelta_inv (f : stream) :
  forall acc len v len' f',
  MidiEvent.__init__timedelta f acc len = (v, len', f') ->
  exists bs,
    f = bs ++ f' /\ len + Z.of_nat (List.length bs) <= len' /\
    len + 1 <= len' /\ (f <> [] -> bs <> []) /\
    (len' = len + Z.of_nat (List.length bs) ->
     vlq_shape bs = true /\ v = fold_left vlq_step bs acc).
Proof.
  induction f as [|b f IH]; intros acc len v len' f' H.
  - rewrite timedelta_nil in H. injection H as <- <- <-.
    exists []. cbn [List.length app].
    split; [reflexivity|]. split; [lia|]. split; [lia|].
    split; [congruence|]. intros; lia.
  - rewrite timedelta_cons in H. destruct (continues b) eqn:Hb.
    + apply IH in H as (bs & E & Hle & H1 & Hne & Heq).
      exists (b :: bs). cbn [List.length app fold_left].
      split; [now rewrite E|]. split; [lia|]. split; [lia|].
      split; [discriminate|]. intros Hl.
      destruct Heq as [Hs Hv]; [lia|]. split; [|exact Hv].
      rewrite vlq_shape_cons by (destruct bs; [discriminate Hs|discriminate]).
      now rewrite Hb, Hs.
    + injection H as <- <- <-. exists [b]. cbn [List.length app fold_left].
      split; [reflexivity|]. split; [lia|]. split; [lia|].
      split; [discriminate|]. intros _. cbn. now rewrite Hb.
Qed.

(** *** The encoding loop *)

Lemma to_file_loop_zero (fuel : nat) (result : list byte) (first : bool) :
  MidiEvent.to_file_loop fuel 0 result first = Ok result.
Proof. destruct fuel; reflexivity. Qed.

Lemma to_file_loop_step (fuel : nat) (td : Z) (result : list byte)
    (first : bool) :
  0 < td ->
  MidiEvent.to_file_loop (S fuel) td result first =
  MidiEvent.to_file_loop fuel (td / 128)
    (byte_of_Z (if first then td mod 128 else Z.lor (td mod 128) 128)
       :: result) false.
Proof.
  intros Htd. cbn [MidiEvent.to_file_loop].
  replace (td =? 0) with false by (symmetry; apply Z.eqb_neq; lia).
  rewrite land_127, shiftr_7.
  assert (Hg : 0 <= td mod 128 < 128) by (apply Z.mod_pos_bound; lia).
  destruct (byte_of_group _ Hg) as (_ & _ & _ & _ & Hr).
  rewrite to_bytes_one by (destruct first; lia).
  reflexivity.
Qed.

Lemma to_file_loop_mono (fuel : nat) :
  forall td result first bs,
  MidiEvent.to_file_loop fuel td result first = Ok bs ->
  forall fuel', (fuel <= fuel')%nat ->
  MidiEvent.to_file_loop fuel' td result first = Ok bs.
Proof.
  induction fuel as [|fuel IH]; intros td result first bs H fuel' Hle.
  - destruct (Z.eq_dec td 0) as [->|Hne].
    + rewrite to_file_loop_zero. cbn in H. exact H.
    + cbn in H. apply Z.eqb_neq in Hne. rewrite Hne in H. discriminate.
  - destruct fuel' as [|fuel']; [lia|].
    cbn [MidiEvent.to_file_loop] in *.
    destruct (td =? 0); [exact H|].
    destruct (to_bytes _ 1) as [b| |]; cbn [bind] in *; try discriminate.
    apply IH; [exact H | lia].
Qed.

(** A negative delta time never leaves the loop. *)
Lemma to_file_loop_negative (fuel : nat) :
  forall td result first,
  td < 0 -> MidiEvent.to_file_loop fuel td result first = Diverge.
Proof.
  induction fuel as [|fuel IH]; intros td result first Htd;
    cbn [MidiEvent.to_file_loop];
    replace (td =? 0) with false by (symmetry; apply Z.eqb_neq; lia).
  - reflexivity.
  - rewrite land_127.
    assert (Hg : 0 <= td mod 128 < 128) by (apply Z.mod_pos_bound; lia).
    destruct (byte_of_group _ Hg) as (_ & _ & _ & _ & Hr).
    rewrite to_bytes_one by (destruct first; lia). cbn [bind].
    apply IH. apply Z.shiftr_neg. exact Htd.
Qed.

Example to_file_negative_timedelta :
  MidiEvent.to_file (MidiEvent.mk 4 (-1) (Some 60) (Some 64) (Some 0) [] 144) =
  Diverge.
Proof.
  unfold MidiEvent.to_file. cbn [MidiEvent.timedelta].
  now rewrite to_file_loop_negative.
Qed.

(** For a positive delta time the loop leaves with the big-endian groups of
    [td], none of them a leading zero, put in front of [result]. *)
Lemma to_file_loop_spec (fuel : nat) :
  forall td result first,
  0 < td -> Z.log2 td < Z.of_nat fuel ->
  exists hi b,
    MidiEvent.to_file_loop fuel td result first = Ok (hi ++ b :: result) /\
    forallb continues hi = true /\ continues b = negb first /\
    groups_value (hi ++ [b]) = td /\ group (hd b hi) <> 0.
Proof.
  induction fuel as [|fuel IH]; intros td result first Htd Hlog.
  - pose proof (Z.log2_nonneg td). lia.
  - rewrite to_file_loop_step by exact Htd.
    assert (Hg : 0 <= td mod 128 < 128) by (apply Z.mod_pos_bound; lia).
    destruct (byte_of_group _ Hg) as (Hc0 & Hg0 & Hc1 & Hg1 & _).
    pose proof (Z.div_mod td 128 ltac:(lia)) as Hdm.
    set (b0 := byte_of_Z (if first then td mod 128 else Z.lor (td mod 128) 128)).
    assert (Hb0 : continues b0 = negb first /\ group b0 = td mod 128)
      by (subst b0; destruct first; split; assumption).
    destruct Hb0 as [Hb0c Hb0g].
    destruct (Z.eq_dec (td / 128) 0) as [Hz|Hnz].
    + rewrite Hz, to_file_loop_zero. exists [], b0. cbn [app hd forallb].
      repeat split; trivial.
      * unfold groups_value. cbn. unfold vlq_step. lia.
      * lia.
    + assert (Hpos : 0 < td / 128) by (pose proof (Z.div_pos td 128); lia).
      assert (Hlog' : Z.log2 (td / 128) < Z.of_nat fuel).
      { rewrite <- shiftr_7, Z.log2_shiftr by lia.
        assert (7 <= Z.log2 td).
        { change 7 with (Z.log2 128). apply Z.log2_le_mono. lia. }
        lia. }
      destruct (IH (td / 128) (b0 :: result) false Hpos Hlog')
        as (hi & b & E & Hhi & Hb & Hv & Hlead).
      exists (hi ++ [b]), b0. rewrite <- app_assoc. cbn [app].
      repeat split; trivial.
      * rewrite forallb_app, Hhi. cbn. now rewrite Hb.
      * rewrite groups_value_snoc, Hv. lia.
      * destruct hi; exact Hlead.
Qed.

(** The fuel [to_file] grants is enough: whatever any amount of fuel
    returns, the granted amount returns too. *)
Lemma to_file_loop_fuel (fuel : nat) (td : Z) (result bs : list byte)
    (first : bool) :
  0 <= td ->
  MidiEvent.to_file_loop fuel td result first = Ok bs ->
  MidiEvent.to_file_loop (MidiEvent.to_file_fuel td) td result first = Ok bs.
Proof.
  intros Htd H. destruct (Z.eq_dec td 0) as [->|Hne].
  - rewrite to_file_loop_zero in *. exact H.
  - destruct (to_file_loop_spec (MidiEvent.to_file_fuel td) td result first)
      as (hi & b & E & _); [lia | |].
    + unfold MidiEvent.to_file_fuel. pose proof (Z.log2_nonneg td). lia.
    + pose proof (to_file_loop_mono _ _ _ _ _ H
                    (Nat.max fuel (MidiEvent.to_file_fuel td))
                    (Nat.le_max_l _ _)) as H1.
      pose proof (to_file_loop_mono _ _ _ _ _ E
                    (Nat.max fuel (MidiEvent.to_file_fuel td))
                    (Nat.le_max_r _ _)) as H2.
      rewrite E. congruence.
Qed.

(** *** Minimal encodings are the encoder's fixed points *)

Lemma groups_value_pos (bs : list byte) :
  bs <> [] -> group (hd x00 bs) <> 0 -> 0 < groups_value bs.
Proof.
  induction bs as [|b bs IH] using rev_ind; intros Hne Hlead.
  - congruence.
  - rewrite groups_value_snoc. pose proof (group_range b).
    destruct bs as [|c bs'].
    + cbn in *. lia.
    + cbn [app hd] in *. assert (0 < groups_value (c :: bs'))
        by (apply IH; [discriminate | exact Hlead]). lia.
Qed.

Lemma to_file_loop_groups (hi : list byte) :
  forall result,
  forallb continues hi = true ->
  (hi <> [] -> group (hd x00 hi) <> 0) ->
  MidiEvent.to_file_loop (List.length hi) (groups_value hi) result false =
  Ok (hi ++ result).
Proof.
  induction hi as [|c hi IH] using rev_ind; intros result Hhi Hlead.
  - reflexivity.
  - rewrite forallb_app in Hhi. apply andb_true_iff in Hhi as [Hhi Hc].
    cbn in Hc. rewrite andb_true_r in Hc.
    assert (Hpos : 0 < groups_value (hi ++ [c])).
    { apply groups_value_pos; [destruct hi; discriminate|].
      apply Hlead. destruct hi; discriminate. }
    rewrite length_app, Nat.add_comm. cbn [List.length Nat.add].
    rewrite to_file_loop_step by exact Hpos.
    rewrite groups_value_snoc in *. pose proof (group_range c) as Hg.
    replace ((groups_value hi * 128 + group c) / 128) with (groups_value hi)
      by (apply Z.div_unique with (group c); lia).
    replace ((groups_value hi * 128 + group c) mod 128) with (group c)
      by (apply Z.mod_unique with (groups_value hi); lia).
    rewrite high_byte by exact Hc. rewrite IH.
    + now rewrite <- app_assoc.
    + exact Hhi.
    + intros Hne. destruct hi as [|d hi']; [congruence|].
      apply Hlead. discriminate.
Qed.

(** Encoding the value of a minimal, well-shaped sequence gives it back. *)
Lemma to_file_timedelta_minimal (bs : list byte) :
  vlq_shape bs = true -> vlq_minimal bs = true ->
  to_file_timedelta (groups_value bs) = Ok bs.
Proof.
  intros Hs Hm. destruct (vlq_shape_inv _ Hs) as (hi & b & -> & Hhi & Hb).
  pose proof (group_range b) as Hg. pose proof (groups_value_nonneg hi) as Hhi0.
  assert (Hlead : hi <> [] -> group (hd x00 hi) <> 0).
  { intros Hne. destruct hi as [|c hi']; [congruence|].
    cbn [app vlq_minimal hd] in *. destruct (hi' ++ [b]) eqn:E.
    - destruct hi'; discriminate.
    - apply negb_true_iff, Z.eqb_neq in Hm. exact Hm. }
  unfold to_file_timedelta.
  destruct (Z.eq_dec (groups_value (hi ++ [b])) 0) as [Hz|Hnz].
  - rewrite Hz. cbn. f_equal.
    destruct hi as [|c hi'].
    + unfold groups_value in Hz. cbn in Hz. unfold vlq_step in Hz.
      cbn. f_equal. symmetry. apply x00_only; [exact Hb | lia].
    + assert (0 < groups_value ((c :: hi') ++ [b])).
      { apply groups_value_pos; [discriminate|]. apply Hlead. discriminate. }
      lia.
  - assert (Hpos : 0 < groups_value (hi ++ [b]))
      by (pose proof (groups_value_nonneg (hi ++ [b])); lia).
    assert (E : MidiEvent.to_file_loop (S (List.length hi))
                  (groups_value (hi ++ [b])) [] true = Ok (hi ++ [b])).
    { rewrite to_file_loop_step by exact Hpos.
      rewrite groups_value_snoc.
      replace ((groups_value hi * 128 + group b) / 128) with (groups_value hi)
        by (apply Z.div_unique with (group b); lia).
      replace ((groups_value hi * 128 + group b) mod 128) with (group b)
        by (apply Z.mod_unique with (groups_value hi); lia).
      rewrite low_byte by exact Hb.
      apply to_file_loop_groups; assumption. }
    apply to_file_loop_fuel in E; [|lia]. rewrite E. cbn [bind].
    destruct (hi ++ [b]) eqn:E'; [destruct hi; discriminate|]. reflexivity.
Qed.

(** Any well-shaped sequence is some [0x80] bytes in front of a minimal
    one of the same value. *)
Lemma vlq_strip (bs : list byte) :
  vlq_shape bs = true ->
  exists k c,
    bs = repeat x80 k ++ c /\ vlq_shape c = true /\ vlq_minimal c = true /\
    groups_value c = groups_value bs.
Proof.
  induction bs as [|b bs IH]; intros Hs.
  - discriminate.
  - destruct bs as [|d bs'].
    + exists O, [b]. repeat split. exact Hs.
    + pose proof Hs as Hs'. cbn [vlq_shape] in Hs'.
      apply andb_true_iff in Hs' as [Hb Hs'].
      destruct (Z.eq_dec (group b) 0) as [Hz|Hnz].
      * apply (x80_only _ Hb) in Hz. subst b.
        destruct (IH Hs') as (k & c & E & Hc & Hm & Hv).
        exists (S k), c. cbn [repeat app]. rewrite <- E.
        repeat split; assumption.
      * exists O, (b :: d :: bs'). cbn [repeat app vlq_minimal].
        repeat split; trivial. apply negb_true_iff, Z.eqb_neq. exact Hnz.
Qed.

(** Re-encoding a decoded quantity: the minimal sequence of the same
    value, never longer than what was read, and equal to it whenever it is
    as long. *)
Lemma timedelta_reencode (bs : list byte) :
  vlq_shape bs = true ->
  exists c,
    to_file_timedelta (groups_value bs) = Ok c /\
    vlq_shape c = true /\ vlq_minimal c = true /\
    groups_value c = groups_value bs /\
    (List.length c <= List.length bs)%nat /\
    (List.length c = List.length bs -> c = bs).
Proof.
  intros Hs. destruct (vlq_strip _ Hs) as (k & c & E & Hc & Hm & Hv).
  exists c. rewrite <- Hv. split; [now apply to_file_timedelta_minimal|].
  split; [exact Hc|]. split; [exact Hm|]. split; [reflexivity|].
  assert (Hl : List.length bs = (k + List.length c)%nat)
    by (rewrite E, length_app, repeat_length; reflexivity).
  split; [lia|]. intros Hlen. assert (k = O) by lia. subst k. now rewrite E.
Qed.

Lemma to_file_unfold (self : MidiEvent.t) :
  MidiEvent.to_file self =
  (result <- to_file_timedelta (MidiEvent.timedelta self) ;;
   b <- to_bytes (MidiEvent._event_info self) 1 ;;
   let result := result ++ b in
   result <-
     match MidiEvent.note self with
     | Some n =>
         b <- to_bytes n 1 ;;
         let result := result ++ b in
         match MidiEvent.velocity self with
         | Some v => b <- to_bytes v 1 ;; Ok (result ++ b)
         | None => Raise AttributeError
         end
     | None => Ok result
     end ;;
   Ok (result ++ MidiEvent._trailing_ignore self)).
Proof.
  unfold MidiEvent.to_file, to_file_timedelta.
  destruct (MidiEvent.to_file_loop _ _ _ _); reflexivity.
Qed.

Lemma timedelta_len_shift (f : stream) :
  forall acc len v l r,
  MidiEvent.__init__timedelta f acc 0 = (v, l, r) ->
  MidiEvent.__init__timedelta f acc len = (v, len + l, r).
Proof.
  induction f as [|b f IH]; intros acc len v l r H.
  - rewrite timedelta_nil in *. injection H as <- <- <-. reflexivity.
  - rewrite timedelta_cons in *. destruct (continues b).
    + destruct (MidiEvent.__init__timedelta f (vlq_step acc b) 0)
        as [[v0 l0] r0] eqn:E0.
      rewrite (IH _ (0 + 1) _ _ _ E0) in H.
      assert (Hl : l = 0 + 1 + l0) by congruence.
      assert (Hv : v = v0) by congruence. assert (Hr : r = r0) by congruence.
      rewrite (IH _ (len + 1) _ _ _ E0), Hl, Hv, Hr. f_equal. f_equal. lia.
    + injection H as <- <- <-. reflexivity.
Qed.

(** What it means for the decoding loop to read exactly [bs]. *)
Lemma timedelta_reads (bs rest : list byte) (v : Z) :
  MidiEvent.__init__timedelta (bs ++ rest) 0 0 =
    (v, Z.of_nat (List.length bs), rest) ->
  vlq_shape bs = true /\ groups_value bs = v.
Proof.
  intros H. apply timedelta_inv in H as (bs' & E & _ & _ & _ & Heq).
  apply app_inv_tail in E. subst bs'.
  destruct Heq as [Hs Hv]; [lia|]. split; [exact Hs | now rewrite Hv].
Qed.

(** ** The variable-length integer codec *)

(** C4: for every non-negative [v] the encoding loop of [to_file] returns
    bytes that the decoding loop of [__init__] reads back as [v], consuming
    exactly those bytes; the bytes are the big-endian 7-bit groups of [v]
    with the continuation bit on every byte but the last, no other
    well-shaped sequence of that value is shorter, and 0 is the single
    byte 0x00. *)
Theorem C4_varlen_roundtrip (v : Z) :
  0 <= v ->
  exists bs,
    to_file_timedelta v = Ok bs /\
    (forall rest,
       MidiEvent.__init__timedelta (bs ++ rest) 0 0 =
       (v, Z.of_nat (List.length bs), rest)) /\
    vlq_shape bs = true /\ groups_value bs = v /\ vlq_minimal bs = true /\
    (forall bs', vlq_shape bs' = true -> groups_value bs' = v ->
                 (List.length bs <= List.length bs')%nat) /\
    (v = 0 -> bs = [x00]).
Proof.
  intros Hv.
  assert (Hex : exists bs, to_file_timedelta v = Ok bs /\ vlq_shape bs = true
                  /\ groups_value bs = v /\ vlq_minimal bs = true
                  /\ (v = 0 -> bs = [x00])).
  { destruct (Z.eq_dec v 0) as [->|Hne].
    - exists [x00]. repeat split.
    - destruct (to_file_loop_spec (MidiEvent.to_file_fuel v) v [] true)
        as (hi & b & E & Hhi & Hb & Hval & Hlead); [lia | |].
      + unfold MidiEvent.to_file_fuel. pose proof (Z.log2_nonneg v). lia.
      + exists (hi ++ [b]). unfold to_file_timedelta. rewrite E. cbn [bind].
        split.
        { destruct (hi ++ [b]) eqn:E'; [destruct hi; discriminate|].
          reflexivity. }
        split; [now apply vlq_shape_snoc|]. split; [exact Hval|].
        split; [|intros; lia].
        destruct hi as [|c hi']; [reflexivity|]. cbn [app vlq_minimal hd] in *.
        destruct (hi' ++ [b]) eqn:E'; [destruct hi'; discriminate|].
        apply negb_true_iff, Z.eqb_neq. exact Hlead. }
  destruct Hex as (bs & E & Hs & Hval & Hm & Hz).
  exists bs. split; [exact E|]. split.
  { intros rest. rewrite timedelta_decode by exact Hs.
    unfold groups_value in Hval. rewrite Hval. reflexivity. }
  split; [exact Hs|]. split; [exact Hval|]. split; [exact Hm|].
  split; [|exact Hz].
  intros bs' Hs' Hv'.
  destruct (timedelta_reencode _ Hs') as (c & Ec & _ & _ & _ & Hle & _).
  rewrite Hv', E in Ec. injection Ec as <-. exact Hle.
Qed.

Lemma C4_varlen_roundtrip_witness :
  0 <= 16384 /\
  exists bs,
    to_file_timedelta 16384 = Ok bs /\
    (forall rest,
       MidiEvent.__init__timedelta (bs ++ rest) 0 0 =
       (16384, Z.of_nat (List.length bs), rest)) /\
    vlq_shape bs = true /\ groups_value bs = 16384 /\ vlq_minimal bs = true /\
    (forall bs', vlq_shape bs' = true -> groups_value bs' = 16384 ->
                 (List.length bs <= List.length bs')%nat) /\
    (16384 = 0 -> bs = [x00]).
Proof. split; [lia | apply (C4_varlen_roundtrip 16384); lia]. Defined.

(** C10: the delta-time loop reads non-minimal encodings.  Whenever it
    reads [bs] as [v], it reads 0x80 followed by [bs] as the same [v] with
    one more byte consumed; [to_file] writes the minimal encoding of [v],
    which is never longer than [bs], is read back as [v], and differs from
    the sequence with the extra 0x80.  So two different byte sequences
    decode to one value. *)
Theorem C10_decoder_accepts_nonminimal :
  (forall bs rest v,
     MidiEvent.__init__timedelta (bs ++ rest) 0 0 =
       (v, Z.of_nat (List.length bs), rest) ->
     MidiEvent.__init__timedelta ((x80 :: bs) ++ rest) 0 0 =
       (v, Z.of_nat (List.length (x80 :: bs)), rest) /\
     exists c,
       to_file_timedelta v = Ok c /\ vlq_minimal c = true /\
       (List.length c <= List.length bs)%nat /\
       c <> x80 :: bs /\
       MidiEvent.__init__timedelta (c ++ rest) 0 0 =
         (v, Z.of_nat (List.length c), rest)) /\
  (exists b1 b2 v,
     b1 <> b2 /\
     MidiEvent.__init__timedelta b1 0 0 = (v, Z.of_nat (List.length b1), []) /\
     MidiEvent.__init__timedelta b2 0 0 = (v, Z.of_nat (List.length b2), [])).
Proof.
  split.
  - intros bs rest v H. split.
    + cbn [app]. rewrite timedelta_cons.
      replace (continues x80) with true by reflexivity.
      replace (vlq_step 0 x80) with 0 by reflexivity.
      rewrite (timedelta_len_shift _ _ (0 + 1) _ _ _ H).
      f_equal. f_equal. cbn [List.length]. lia.
    + destruct (timedelta_reads _ _ _ H) as [Hs Hv].
      destruct (timedelta_reencode _ Hs) as (c & Ec & Hc & Hm & Hvc & Hle & _).
      rewrite Hv in Ec. exists c. split; [exact Ec|]. split; [exact Hm|].
      split; [exact Hle|]. split.
      * intros ->. cbn [List.length] in Hle. lia.
      * rewrite timedelta_decode by exact Hc.
        unfold groups_value in Hvc, Hv. now rewrite Hvc, Hv.
  - exists [x00], [x80; x00], 0. repeat split. discriminate.
Qed.

Lemma C10_decoder_accepts_nonminimal_witness :
  MidiEvent.__init__timedelta ([x81; x00] ++ [x90]) 0 0 =
    (128, Z.of_nat (List.length [x81; x00]), [x90]) /\
  MidiEvent.__init__timedelta ((x80 :: [x81; x00]) ++ [x90]) 0 0 =
    (128, Z.of_nat (List.length (x80 :: [x81; x00])), [x90]).
Proof.
  split; [reflexivity|].
  apply (proj1 C10_decoder_accepts_nonminimal [x81; x00] [x90] 128).
  reflexivity.
Defined.

(** ** The length of a system or meta event *)

(** C2, at the bytes 81 00: read as a variable-length quantity, the way the
    delta-time loop reads them, they are 128; the length loop adds the two
    groups without shifting and finds 1.  So the text event
    [00 FF 01 81 00] followed by 128 bytes of text keeps one byte of text
    and counts 6 bytes, and the other 127 bytes are left to be read as the
    next events. *)
Theorem C2_meta_length_not_shifted :
  forall rest : stream,
    MidiEvent.__init__timedelta ([x81; x00] ++ rest) 0 0 = (128, 2, rest) /\
    MidiEvent.__init__ignore ([x81; x00] ++ rest) [] 0 0 =
      ([x81; x00], 1, 2, rest) /\
    MidiEvent.__init__
      ([x00; xff; x01; x81; x00] ++ repeat x41 128 ++ rest) =
    Ok (MidiEvent.mk 6 0 None None None [x01; x81; x00; x41] 255,
        repeat x41 127 ++ rest).
Proof. intros rest. repeat split. Qed.

(** What the length loop computes in general: it moves past the bytes of a
    well-shaped quantity and returns the sum of their groups. *)
Lemma ignore_sums_groups (bs rest : list byte) :
  forall trailing ignore_num len,
  vlq_shape bs = true ->
  MidiEvent.__init__ignore (bs ++ rest) trailing ignore_num len =
  (trailing ++ bs, fold_left (fun acc b => acc + group b) bs ignore_num,
   len + Z.of_nat (List.length bs), rest).
Proof.
  induction bs as [|b bs IH]; intros trailing ignore_num len H.
  - discriminate.
  - cbn [app MidiEvent.__init__ignore]. rewrite int_from_bytes_one.
    fold (group b).
    replace (Z.land (Z.shiftr (Z_of_byte b) 7) 1 =? 0) with (negb (continues b))
      by (unfold continues; now rewrite negb_involutive).
    destruct bs as [|d bs'].
    + cbn in H. rewrite H. cbn. reflexivity.
    + cbn [vlq_shape] in H. apply andb_true_iff in H as [Hb H].
      rewrite Hb. cbn [negb]. rewrite (IH _ _ _ H).
      cbn [fold_left List.length]. rewrite <- app_assoc. cbn [app].
      f_equal. f_equal. lia.
Qed.

(** ** The division field *)

(** C3, at the division 0x4000: the file is accepted as ticks-based
    (bit 15 is clear), its low 15 bits are 16384, and the stored
    ticks-per-quarter-note is 0, because the mask has 14 ones. *)
Theorem C3_per_quarter_note_drops_bit_14 :
  exists mf,
    MidiFile.__init__
      (MidiFile.MThd ++ [x00; x00; x00; x06; x00; x00; x00; x00; x40; x00]) =
      Ok (mf, []) /\
    MidiFile._division mf = 16384 /\
    MidiFile.division_type mf = 0 /\
    Z.land (MidiFile._division mf) 32767 = 16384 /\
    MidiFile.per_quarter_note mf = 0.
Proof. eexists. repeat split. Qed.

(** What every accepted file stores: the low 14 bits of the division. *)
Lemma per_quarter_note_low_14 (f f' : stream) (mf : MidiFile.t) :
  MidiFile.__init__ f = Ok (mf, f') ->
  MidiFile.per_quarter_note mf = Z.land (MidiFile._division mf) 16383.
Proof.
  unfold MidiFile.__init__. intros H.
  repeat match type of H with
         | (let '(_, _) := ?r in _) = _ => destruct r
         | (if ?c then _ else _) = _ => destruct c; try discriminate
         end.
  destruct (MidiFile.__init__tracks _ _) as [[tracks f1]| |];
    cbn [bind] in H; try discriminate.
  injection H as <- <-. reflexivity.
Qed.

(** ** The pitch effect *)

(** C9: [pitch] replaces the note of every event that has one by
    [max 0 (min 127 (note + amount))], which lies in 0..127, changes no
    other field, and leaves the events without a note as they are. *)
Theorem C9_pitch_clamps (amount : Z) (tracks : list MidiTrack.t) :
  List.length (pitch amount tracks) = List.length tracks /\
  forall i track,
    nth_error tracks i = Some track ->
    exists track',
      nth_error (pitch amount tracks) i = Some track' /\
      List.length (MidiTrack.events track') =
        List.length (MidiTrack.events track) /\
      forall j event,
        nth_error (MidiTrack.events track) j = Some event ->
        exists event',
          nth_error (MidiTrack.events track') j = Some event' /\
          match MidiEvent.note event with
          | None => event' = event
          | Some n =>
              MidiEvent.note event' = Some (Z.max 0 (Z.min 127 (n + amount))) /\
              0 <= Z.max 0 (Z.min 127 (n + amount)) <= 127 /\
              MidiEvent._length event' = MidiEvent._length event /\
              MidiEvent.timedelta event' = MidiEvent.timedelta event /\
              MidiEvent.velocity event' = MidiEvent.velocity event /\
              MidiEvent.channel event' = MidiEvent.channel event /\
              MidiEvent._trailing_ignore event' =
                MidiEvent._trailing_ignore event /\
              MidiEvent._event_info event' = MidiEvent._event_info event
          end.
Proof.
  split; [apply length_map|].
  intros i track Hi. exists (pitch_track amount track).
  split; [unfold pitch; now rewrite nth_error_map, Hi|].
  split; [apply length_map|].
  intros j event Hj. exists (pitch_event amount event).
  split; [cbn; now rewrite nth_error_map, Hj|].
  unfold pitch_event. destruct (MidiEvent.note event) as [n|] eqn:En.
  - cbn. repeat split; lia.
  - reflexivity.
Qed.

(** ** Serialising events and tracks *)

(** C7 as stated fails: note 300 with velocity 64 satisfies both invariants
    and [to_file] raises [OverflowError] at [note.to_bytes(1)]. *)
Lemma C7_note_300_overflows :
  let event := MidiEvent.mk 4 0 (Some 300) (Some 64) (Some 0) [] 144 in
  (MidiEvent.note event = None <-> MidiEvent.velocity event = None) /\
  0 <= MidiEvent.timedelta event /\
  MidiEvent.to_file event = Raise OverflowError.
Proof. cbn. repeat split; intros; try discriminate; lia. Qed.

Lemma to_bytes_overflow (x : Z) (n : nat) :
  ~ 0 <= x < 256 ^ Z.of_nat n -> to_bytes x n = Raise OverflowError.
Proof.
  intros H. unfold to_bytes.
  destruct (0 <=? x) eqn:E1; [|reflexivity].
  destruct (x <? 256 ^ Z.of_nat n) eqn:E2; [|reflexivity].
  apply Z.leb_le in E1. apply Z.ltb_lt in E2. lia.
Qed.

Lemma to_file_timedelta_returns (td : Z) :
  0 <= td -> exists d, to_file_timedelta td = Ok d.
Proof.
  intros Htd. destruct (Z.eq_dec td 0) as [->|Hnz].
  - exists [x00]. reflexivity.
  - destruct (to_file_loop_spec (MidiEvent.to_file_fuel td) td [] true)
      as (hi & b & E & _); [lia | |].
    + unfold MidiEvent.to_file_fuel. pose proof (Z.log2_nonneg td). lia.
    + unfold to_file_timedelta. rewrite E. cbn [bind]. eexists. reflexivity.
Qed.

(** C7, amended: under the two invariants (the delta time is non-negative;
    note and velocity are both absent or both present) the outcome of
    [to_file] is decided by the ranges alone.  When the status byte and,
    if present, the note and the velocity are all in 0..255, [to_file]
    returns the delta time, the status byte, the note and velocity bytes
    holding exactly the stored values (128..255 included, nothing clamped)
    and the opaque bytes.  When the status byte, or a note or velocity
    that is present, is outside 0..255, [to_file] raises
    [OverflowError]. *)
Theorem C7_to_file_outcome (event : MidiEvent.t) :
  0 <= MidiEvent.timedelta event ->
  (MidiEvent.note event = None <-> MidiEvent.velocity event = None) ->
  exists td,
    to_file_timedelta (MidiEvent.timedelta event) = Ok td /\
    if (0 <=? MidiEvent._event_info event) &&
       (MidiEvent._event_info event <? 256)
    then
      exists info,
        Z_of_byte info = MidiEvent._event_info event /\
        match MidiEvent.note event, MidiEvent.velocity event with
        | Some n, Some v =>
            if (0 <=? n) && (n <? 256) && (0 <=? v) && (v <? 256)
            then
              exists nb vb,
                Z_of_byte nb = n /\ Z_of_byte vb = v /\
                MidiEvent.to_file event =
                  Ok (td ++ [info; nb; vb] ++
                      MidiEvent._trailing_ignore event)
            else MidiEvent.to_file event = Raise OverflowError
        | _, _ =>
            MidiEvent.to_file event =
              Ok (td ++ [info] ++ MidiEvent._trailing_ignore event)
        end
    else MidiEvent.to_file event = Raise OverflowError.
Proof.
  intros Htd Hboth.
  destruct (to_file_timedelta_returns _ Htd) as [td Etd].
  exists td. split; [exact Etd|].
  rewrite to_file_unfold, Etd. cbn [bind].
  destruct ((0 <=? MidiEvent._event_info event) &&
            (MidiEvent._event_info event <? 256)) eqn:Ei.
  - apply andb_true_iff in Ei as [Ei1 Ei2].
    apply Z.leb_le in Ei1. apply Z.ltb_lt in Ei2.
    exists (byte_of_Z (MidiEvent._event_info event)).
    rewrite Z_of_byte_of_Z by lia. split; [reflexivity|].
    rewrite to_bytes_one by lia. cbn [bind].
    destruct (MidiEvent.note event) as [n|],
             (MidiEvent.velocity event) as [v|].
    + destruct ((0 <=? n) && (n <? 256)) eqn:En; cbn [andb].
      * apply andb_true_iff in En as [En1 En2].
        apply Z.leb_le in En1. apply Z.ltb_lt in En2.
        rewrite (to_bytes_one n) by lia. cbn [bind].
        destruct ((0 <=? v) && (v <? 256)) eqn:Ev.
        -- apply andb_true_iff in Ev as [Ev1 Ev2].
           apply Z.leb_le in Ev1. apply Z.ltb_lt in Ev2.
           exists (byte_of_Z n), (byte_of_Z v).
           rewrite !Z_of_byte_of_Z by lia.
           rewrite to_bytes_one by lia. cbn [bind andb].
           repeat split. now rewrite <- !app_assoc.
        -- rewrite to_bytes_overflow; [reflexivity|].
           change (256 ^ Z.of_nat 1) with 256. intros [H1 H2].
           apply Z.leb_le in H1. apply Z.ltb_lt in H2.
           now rewrite H1, H2 in Ev.
      * rewrite to_bytes_overflow; [reflexivity|].
        change (256 ^ Z.of_nat 1) with 256. intros [H1 H2].
        apply Z.leb_le in H1. apply Z.ltb_lt in H2.
        now rewrite H1, H2 in En.
    + exfalso. destruct Hboth as [_ H]. specialize (H eq_refl). discriminate.
    + exfalso. destruct Hboth as [H _]. specialize (H eq_refl). discriminate.
    + cbn [bind]. now rewrite <- !app_assoc.
  - rewrite to_bytes_overflow; [reflexivity|].
    change (256 ^ Z.of_nat 1) with 256. intros [H1 H2].
    apply Z.leb_le in H1. apply Z.ltb_lt in H2.
    now rewrite H1, H2 in Ei.
Qed.

Lemma C7_to_file_outcome_witness :
  exists td,
    to_file_timedelta 200 = Ok td /\
    exists info,
      Z_of_byte info = 144 /\
      exists nb vb,
        Z_of_byte nb = 200 /\ Z_of_byte vb = 255 /\
        MidiEvent.to_file
          (MidiEvent.mk 5 200 (Some 200) (Some 255) (Some 0) [] 144) =
        Ok (td ++ [info; nb; vb] ++ []).
Proof.
  apply (C7_to_file_outcome
           (MidiEvent.mk 5 200 (Some 200) (Some 255) (Some 0) [] 144)).
  - cbn. lia.
  - cbn. split; discriminate.
Defined.

Lemma track_to_file_loop (events : list MidiEvent.t) :
  forall (bodies : list (list byte)) (result : list byte),
  Forall2 (fun event body => MidiEvent.to_file event = Ok body) events bodies ->
  MidiTrack.to_file_loop events result = Ok (result ++ List.concat bodies).
Proof.
  induction events as [|event events IH]; intros bodies result H;
    inversion H as [|? body ? bodies' Hb Hbs]; subst; cbn [MidiTrack.to_file_loop List.concat].
  - now rewrite app_nil_r.
  - rewrite Hb. cbn [bind]. rewrite (IH _ _ Hbs). now rewrite <- app_assoc.
Qed.

(** C6: whatever the events of a track are, [to_file] returns "MTrk", then
    four bytes that are the big-endian length of the concatenation of the
    events' own serialisations, then that concatenation.  A track holds no
    declared length: [events] is its only field. *)
Theorem C6_track_length_recomputed (track : MidiTrack.t)
    (bodies : list (list byte)) :
  Forall2 (fun event body => MidiEvent.to_file event = Ok body)
    (MidiTrack.events track) bodies ->
  Z.of_nat (List.length (List.concat bodies)) < 2 ^ 32 ->
  exists prefix,
    MidiTrack.to_file track = Ok (MidiTrack.MTrk ++ prefix ++ List.concat bodies) /\
    List.length prefix = 4%nat /\
    int_from_bytes prefix = Z.of_nat (List.length (List.concat bodies)).
Proof.
  intros Hb Hlen. unfold MidiTrack.to_file.
  rewrite (track_to_file_loop _ _ _ Hb). cbn [bind bytes repeat app].
  destruct (to_bytes (Z.of_nat (List.length (List.concat bodies))) 4)
    as [prefix| |] eqn:E.
  - apply to_bytes_Ok in E as (_ & Hl & Hi). exists prefix. cbn [bind].
    repeat split; assumption.
  - exfalso. unfold to_bytes in E.
    replace (0 <=? Z.of_nat (List.length (List.concat bodies))) with true in E
      by (symmetry; apply Z.leb_le; lia).
    replace (Z.of_nat (List.length (List.concat bodies)) <? 256 ^ Z.of_nat 4)
      with true in E by (symmetry; apply Z.ltb_lt; exact Hlen).
    discriminate.
  - unfold to_bytes in E.
    destruct (_ && _) in E; discriminate.
Qed.

Lemma C6_track_length_recomputed_witness :
  exists prefix,
    MidiTrack.to_file
      (MidiTrack.mk
         [MidiEvent.mk 4 0 (Some 60) (Some 64) (Some 0) [] 144;
          MidiEvent.mk 5 128 (Some 60) (Some 0) (Some 0) [] 128]) =
    Ok (MidiTrack.MTrk ++ prefix ++
        List.concat [[x00; x90; x3c; x40]; [x81; x00; x80; x3c; x00]]) /\
    List.length prefix = 4%nat /\
    int_from_bytes prefix =
      Z.of_nat
        (List.length (List.concat [[x00; x90; x3c; x40]; [x81; x00; x80; x3c; x00]])).
Proof.
  apply (C6_track_length_recomputed
           (MidiTrack.mk
              [MidiEvent.mk 4 0 (Some 60) (Some 64) (Some 0) [] 144;
               MidiEvent.mk 5 128 (Some 60) (Some 0) (Some 0) [] 128])
           [[x00; x90; x3c; x40]; [x81; x00; x80; x3c; x00]]).
  - repeat constructor.
  - cbn. lia.
Defined.

(** ** What parsing one event consumes *)

Lemma read_inv (f f' : stream) (n : Z) (bs : list byte) :
  read f n = (bs, f') -> 0 <= n ->
  f = bs ++ f' /\ Z.of_nat (List.length bs) <= n.
Proof.
  unfold read. intros H Hn. injection H as <- <-.
  split; [symmetry; apply firstn_skipn|].
  pose proof (firstn_le_length (Z.to_nat n) f). lia.
Qed.

Lemma read_bytes_inv (len len' n : Z) (f f' : stream) (bs : list byte) :
  MidiEvent._read_bytes len f n = (bs, len', f') -> 0 <= n ->
  len' = len + n /\ f = bs ++ f' /\ Z.of_nat (List.length bs) <= n.
Proof.
  unfold MidiEvent._read_bytes. destruct (read f n) as [bs0 f0] eqn:E.
  intros H Hn. injection H as <- <- <-.
  split; [reflexivity|]. now apply read_inv.
Qed.

Lemma ignore_inv (f : stream) :
  forall trailing n len trailing' n' len' f',
  MidiEvent.__init__ignore f trailing n len = (trailing', n', len', f') ->
  0 <= n ->
  exists bs,
    f = bs ++ f' /\ trailing' = trailing ++ bs /\
    len + Z.of_nat (List.length bs) <= len' /\ 0 <= n'.
Proof.
  induction f as [|b f IH]; intros trailing n len trailing' n' len' f' H Hn.
  - cbn in H. injection H as <- <- <- <-. exists [].
    cbn [List.length app]. repeat split; lia.
  - cbn [MidiEvent.__init__ignore] in H. rewrite int_from_bytes_one in H.
    fold (group b) in H. pose proof (group_range b) as Hg.
    destruct (Z.land (Z.shiftr (Z_of_byte b) 7) 1 =? 0).
    + injection H as <- <- <- <-. exists [b].
      cbn [List.length app]. repeat split; lia.
    + apply IH in H as (bs & E & Et & Hle & Hn'); [|lia].
      exists (b :: bs). cbn [List.length app].
      rewrite Et, <- app_assoc, E. repeat split; lia.
Qed.

Lemma one_byte (bs : list byte) :
  Z.of_nat (List.length bs) = 1 -> exists b, bs = [b].
Proof.
  destruct bs as [|b [|c bs]]; cbn [List.length]; intros H; try lia.
  now exists b.
Qed.

(** The end of each case of [event_inv]: the pieces read add up to the
    file, their number is bounded by the counter, and when the two agree
    [to_file] writes the status byte and the payload back. *)
Ltac event_case Heq Hfin :=
  cbn [MidiEvent._length MidiEvent.timedelta];
  split; [subst; rewrite <- ?app_assoc; reflexivity|];
  split; [discriminate|];
  rewrite ?length_app in *; cbn [List.length] in *;
  split; [lia|]; split; [lia|]; intros Hall;
  let Hshape := fresh "Hshape" in
  let Hv := fresh "Hv" in
  destruct Heq as [Hshape Hv]; [lia|];
  split; [exact Hshape|]; split; [exact Hv|];
  let td0 := fresh "td" in
  let Etd0 := fresh "Etd" in
  intros td0 Etd0;
  rewrite to_file_unfold;
  cbn [MidiEvent._length MidiEvent.timedelta MidiEvent.note
       MidiEvent.velocity MidiEvent._trailing_ignore MidiEvent._event_info];
  rewrite Hv in Etd0 |- *; rewrite Etd0; cbn [bind];
  rewrite Hfin by (cbn [List.length]; lia); cbn [bind];
  rewrite ?to_bytes_from_bytes by lia; cbn [bind];
  rewrite ?app_nil_r, <- ?app_assoc; reflexivity.

(** An accepted event: the bytes read for it are a delta time [delta] and a
    [body] that starts with the status byte; the counter [_length] is at
    least their number, and equal to it exactly when no read ran into the
    end of the file.  In that case [delta] is well shaped and [to_file]
    writes the re-encoded delta time followed by [body] unchanged. *)
Lemma event_inv (f f' : stream) (event : MidiEvent.t) :
  MidiEvent.__init__ f = Ok (event, f') ->
  exists delta body,
    f = delta ++ body ++ f' /\ body <> [] /\
    Z.of_nat (List.length delta + List.length body) <= MidiEvent._length event /\
    2 <= MidiEvent._length event /\
    (Z.of_nat (List.length delta + List.length body) = MidiEvent._length event ->
     vlq_shape delta = true /\
     MidiEvent.timedelta event = groups_value delta /\
     forall td,
       to_file_timedelta (MidiEvent.timedelta event) = Ok td ->
       MidiEvent.to_file event = Ok (td ++ body)).
Proof.
  unfold MidiEvent.__init__. intros H.
  destruct (MidiEvent.__init__timedelta f 0 0) as [[td len] f1] eqn:Etd.
  destruct (MidiEvent._read_bytes len f1 1) as [[sb len2] f2] eqn:Es.
  apply timedelta_inv in Etd as (delta & Ef & Hle & H1 & _ & Heq).
  apply read_bytes_inv in Es as (-> & Ef1 & Hsb); [|lia].
  exists delta.
  destruct sb as [|s sb']; [cbn in H; discriminate|].
  assert (Hfin : Z.of_nat (List.length (s :: sb')) = 1 ->
                 to_bytes (int_from_bytes (s :: sb')) 1 = Ok (s :: sb'))
    by (intros; apply to_bytes_from_bytes; lia).
  set (event_type := Z.shiftr (int_from_bytes (s :: sb')) 4) in H.
  destruct (event_type =? 15).
  { (* system and meta events *)
    destruct (if Z.land (int_from_bytes (s :: sb')) 15 =? 15
              then MidiEvent._read_bytes (len + 1) f2 1
              else ([], len + 1, f2)) as [[tr len3] f3] eqn:Et.
    assert (Htr : f2 = tr ++ f3 /\ len + 1 + Z.of_nat (List.length tr) <= len3).
    { destruct (Z.land (int_from_bytes (s :: sb')) 15 =? 15).
      - apply read_bytes_inv in Et as (-> & E & Hl); [|lia]. split; [exact E|lia].
      - injection Et as <- <- <-. cbn [List.length app]. split; [reflexivity|lia]. }
    destruct Htr as [Ef2 Hl3].
    destruct (MidiEvent.__init__ignore f3 tr 0 len3)
      as [[[tr' ign] len4] f4] eqn:Ei.
    apply ignore_inv in Ei as (ib & Ef3 & -> & Hl4 & Hign); [|lia].
    destruct (MidiEvent._read_bytes len4 f4 ign) as [[pb len5] f5] eqn:Ep.
    apply read_bytes_inv in Ep as (-> & Ef4 & Hpb); [|lia].
    injection H as <- <-.
    exists ((s :: sb') ++ (tr ++ ib) ++ pb). event_case Heq Hfin. }
  destruct ((event_type =? 10) || (event_type =? 11) || (event_type =? 14)).
  { (* two opaque bytes *)
    destruct (MidiEvent._read_bytes (len + 1) f2 2) as [[pb len5] f5] eqn:Ep.
    apply read_bytes_inv in Ep as (-> & Ef4 & Hpb); [|lia].
    injection H as <- <-.
    exists ((s :: sb') ++ pb). event_case Heq Hfin. }
  destruct ((event_type =? 12) || (event_type =? 13)).
  { (* one opaque byte *)
    destruct (MidiEvent._read_bytes (len + 1) f2 1) as [[pb len5] f5] eqn:Ep.
    apply read_bytes_inv in Ep as (-> & Ef4 & Hpb); [|lia].
    injection H as <- <-.
    exists ((s :: sb') ++ pb). event_case Heq Hfin. }
  destruct ((event_type =? 8) || (event_type =? 9)); [|discriminate].
  (* note off and note on *)
  destruct (MidiEvent._read_bytes (len + 1) f2 1) as [[nb len4] f4] eqn:En.
  apply read_bytes_inv in En as (-> & Ef2 & Hnb); [|lia].
  destruct (MidiEvent._read_bytes (len + 1 + 1) f4 1) as [[vb len5] f5] eqn:Ev.
  apply read_bytes_inv in Ev as (-> & Ef4 & Hvb); [|lia].
  injection H as <- <-.
  exists ((s :: sb') ++ nb ++ vb). event_case Heq Hfin.
Qed.

(** An accepted event leaves a shorter file behind. *)
Lemma event_shrinks (f f' : stream) (event : MidiEvent.t) :
  MidiEvent.__init__ f = Ok (event, f') ->
  (List.length f' < List.length f)%nat /\
  Z.of_nat (List.length f) <=
    MidiEvent._length event + Z.of_nat (List.length f') /\
  2 <= MidiEvent._length event.
Proof.
  intros H. apply event_inv in H as (delta & body & E & Hb & Hle & H2 & _).
  rewrite E, !length_app. destruct body; [congruence|]. cbn [List.length] in *.
  repeat split; lia.
Qed.

(** Round trip of one event: when no read ran into the end of the file,
    [to_file] returns at most as many bytes as were read, and exactly the
    bytes that were read when it returns as many. *)
Lemma event_roundtrip (f f' : stream) (event : MidiEvent.t) :
  MidiEvent.__init__ f = Ok (event, f') ->
  Z.of_nat (List.length f) =
    MidiEvent._length event + Z.of_nat (List.length f') ->
  exists bs,
    MidiEvent.to_file event = Ok bs /\
    Z.of_nat (List.length bs) <= MidiEvent._length event /\
    (Z.of_nat (List.length bs) = MidiEvent._length event -> bs ++ f' = f).
Proof.
  intros H Hfull.
  apply event_inv in H as (delta & body & E & Hb & Hle & H2 & Heq).
  assert (Hlen : Z.of_nat (List.length delta + List.length body) =
                 MidiEvent._length event)
    by (rewrite E, !length_app in Hfull; lia).
  destruct (Heq Hlen) as (Hs & Hv & Hto).
  destruct (timedelta_reencode _ Hs) as (c & Ec & _ & _ & _ & Hcl & Hce).
  rewrite <- Hv in Ec. exists (c ++ body).
  split; [now apply Hto|]. rewrite length_app. split; [lia|].
  intros Hsame. rewrite Hce by lia. now rewrite E, app_assoc.
Qed.

(** With every byte there, serialising to as many bytes as were read is
    the same as the delta time having been minimally encoded. *)
Lemma same_length_iff_minimal (f f' : stream) (event : MidiEvent.t) :
  MidiEvent.__init__ f = Ok (event, f') ->
  Z.of_nat (List.length f) =
    MidiEvent._length event + Z.of_nat (List.length f') ->
  exists delta body,
    f = delta ++ body ++ f' /\ vlq_shape delta = true /\
    MidiEvent.timedelta event = groups_value delta /\
    (same_length event = true <-> vlq_minimal delta = true).
Proof.
  intros H Hfull.
  apply event_inv in H as (delta & body & E & Hb & Hle & H2 & Heq).
  assert (Hlen : Z.of_nat (List.length delta + List.length body) =
                 MidiEvent._length event)
    by (rewrite E, !length_app in Hfull; lia).
  destruct (Heq Hlen) as (Hs & Hv & Hto).
  exists delta, body. split; [exact E|]. split; [exact Hs|].
  split; [exact Hv|].
  destruct (timedelta_reencode _ Hs) as (c & Ec & _ & Hm & _ & Hcl & Hce).
  rewrite <- Hv in Ec. unfold same_length. rewrite (Hto _ Ec), length_app.
  split.
  - intros Hsame. apply Z.eqb_eq in Hsame. rewrite <- Hce by lia. exact Hm.
  - intros Hmin. apply Z.eqb_eq.
    pose proof (to_file_timedelta_minimal _ Hs Hmin) as Ed.
    rewrite <- Hv, Ec in Ed. injection Ed as ->. lia.
Qed.

(** ** Parsing a track *)

Lemma event_no_diverge (f : stream) : MidiEvent.__init__ f <> Diverge.
Proof.
  unfold MidiEvent.__init__.
  repeat match goal with
         | |- (let '(_, _) := ?r in _) <> _ => destruct r
         | |- (if ?c then _ else _) <> _ => destruct c
         end; discriminate.
Qed.

Lemma track_loop_zero (fuel : nat) (f : stream) (events : list MidiEvent.t) :
  MidiTrack.__init__loop fuel 0 f events = Ok (events, f).
Proof. destruct fuel; reflexivity. Qed.

Lemma track_loop_step (fuel : nat) (length : Z) (f : stream)
    (events : list MidiEvent.t) :
  length <> 0 ->
  MidiTrack.__init__loop (S fuel) length f events =
  ('(event, f) <- MidiEvent.__init__ f ;;
   MidiTrack.__init__loop fuel (length - MidiEvent._length event) f
     (events ++ [event])).
Proof.
  intros Hne. cbn [MidiTrack.__init__loop].
  apply Z.eqb_neq in Hne. now rewrite Hne.
Qed.

(** The loop never uses up the fuel [__init__] grants it: every event it
    accepts shortens the file, and at the end of the file the event parser
    raises. *)
Lemma MidiTrack_loop_total (fuel : nat) :
  forall length f events,
  (List.length f < fuel)%nat ->
  MidiTrack.__init__loop fuel length f events <> Diverge.
Proof.
  induction fuel as [|fuel IH]; intros length f events Hfuel; [lia|].
  destruct (Z.eq_dec length 0) as [->|Hne].
  - rewrite track_loop_zero. discriminate.
  - rewrite track_loop_step by exact Hne.
    destruct (MidiEvent.__init__ f) as [[event f1]| |] eqn:E; cbn [bind].
    + apply IH. apply event_shrinks in E. lia.
    + discriminate.
    + now apply event_no_diverge in E.
Qed.

(** More fuel changes nothing once the loop has left. *)
Lemma track_loop_mono (fuel : nat) :
  forall length f events r,
  MidiTrack.__init__loop fuel length f events = r -> r <> Diverge ->
  forall fuel', (fuel <= fuel')%nat ->
  MidiTrack.__init__loop fuel' length f events = r.
Proof.
  induction fuel as [|fuel IH]; intros length f events r H Hr fuel' Hle.
  - destruct (Z.eq_dec length 0) as [->|Hne].
    + rewrite track_loop_zero in *. exact H.
    + cbn in H. apply Z.eqb_neq in Hne. rewrite Hne in H. congruence.
  - destruct fuel' as [|fuel']; [lia|].
    destruct (Z.eq_dec length 0) as [->|Hne].
    + rewrite track_loop_zero in *. exact H.
    + rewrite track_loop_step in * by exact Hne.
      destruct (MidiEvent.__init__ f) as [[event f1]| |]; cbn [bind] in *;
        try exact H.
      apply (IH _ _ _ _ H Hr). lia.
Qed.

Lemma track_loop_partitions (length : Z) (f f' : stream)
    (events : list MidiEvent.t) :
  partitions length f events f' ->
  forall fuel acc,
  (List.length f < fuel)%nat ->
  MidiTrack.__init__loop fuel length f acc = Ok (acc ++ events, f').
Proof.
  induction 1 as [f|length f f' f'' event events E Hle _ IH];
    intros fuel acc Hfuel.
  - now rewrite track_loop_zero, app_nil_r.
  - destruct fuel as [|fuel]; [lia|].
    pose proof (event_shrinks _ _ _ E) as (Hlt & _ & H2).
    rewrite track_loop_step by lia. rewrite E. cbn [bind].
    rewrite IH by lia. now rewrite <- app_assoc.
Qed.

Lemma partitions_requested (length : Z) (f f' : stream)
    (events : list MidiEvent.t) :
  partitions length f events f' -> length = events_requested events.
Proof.
  induction 1 as [f|length f f' f'' event events E Hle _ IH]; cbn.
  - reflexivity.
  - fold (events_requested events). lia.
Qed.

Lemma track_header (prefix : list byte) (f : stream) :
  List.length prefix = 4%nat ->
  MidiTrack.__init__ (MidiTrack.MTrk ++ prefix ++ f) =
  ('(events, f) <-
     MidiTrack.__init__loop (S (List.length f)) (int_from_bytes prefix) f [] ;;
   Ok (MidiTrack.mk events, f)).
Proof.
  intros Hp. destruct prefix as [|a [|b [|c [|d [|]]]]]; try discriminate.
  reflexivity.
Qed.

(** C8: when the events that follow the chunk header use up the declared
    length exactly, none of them overshooting what is left,
    [MidiTrack.__init__] returns; it has parsed exactly those events, whose
    counters sum to the declared length, and leaves the file where the last
    of them ends.  The loop does so with any fuel above the number of bytes
    left. *)
Theorem C8_track_parse_terminates (prefix : list byte) (f f' : stream)
    (events : list MidiEvent.t) :
  List.length prefix = 4%nat ->
  partitions (int_from_bytes prefix) f events f' ->
  MidiTrack.__init__ (MidiTrack.MTrk ++ prefix ++ f) =
    Ok (MidiTrack.mk events, f') /\
  int_from_bytes prefix = events_requested events /\
  forall fuel,
    (List.length f < fuel)%nat ->
    MidiTrack.__init__loop fuel (int_from_bytes prefix) f [] = Ok (events, f').
Proof.
  intros Hp Hpart. split; [|split].
  - rewrite track_header by exact Hp.
    rewrite (track_loop_partitions _ _ _ _ Hpart) by lia. reflexivity.
  - exact (partitions_requested _ _ _ _ Hpart).
  - intros fuel Hfuel. now rewrite (track_loop_partitions _ _ _ _ Hpart).
Qed.

Lemma C8_track_parse_terminates_witness :
  MidiTrack.__init__
    (MidiTrack.MTrk ++ [x00; x00; x00; x07] ++
     [x00; x90; x3c; x40; x00; xc0; x05; xff]) =
    Ok (MidiTrack.mk
          [MidiEvent.mk 4 0 (Some 60) (Some 64) (Some 0) [] 144;
           MidiEvent.mk 3 0 None None None [x05] 192], [xff]) /\
  int_from_bytes [x00; x00; x00; x07] =
    events_requested
      [MidiEvent.mk 4 0 (Some 60) (Some 64) (Some 0) [] 144;
       MidiEvent.mk 3 0 None None None [x05] 192] /\
  forall fuel,
    (List.length [x00; x90; x3c; x40; x00; xc0; x05; xff] < fuel)%nat ->
    MidiTrack.__init__loop fuel (int_from_bytes [x00; x00; x00; x07])
      [x00; x90; x3c; x40; x00; xc0; x05; xff] [] =
    Ok ([MidiEvent.mk 4 0 (Some 60) (Some 64) (Some 0) [] 144;
         MidiEvent.mk 3 0 None None None [x05] 192], [xff]).
Proof.
  apply (C8_track_parse_terminates [x00; x00; x00; x07]
           [x00; x90; x3c; x40; x00; xc0; x05; xff] [xff]).
  - reflexivity.
  - apply (partitions_event 7 _ [x00; xc0; x05; xff] [xff]
             (MidiEvent.mk 4 0 (Some 60) (Some 64) (Some 0) [] 144));
      [reflexivity | cbn; lia |].
    apply (partitions_event 3 _ [xff] [xff]
             (MidiEvent.mk 3 0 None None None [x05] 192));
      [reflexivity | cbn; lia |].
    apply partitions_done.
Defined.

(** ** Rejections *)

Lemma top_bit_set (d : Z) :
  Z.testbit d 15 = true -> Z.land (Z.shiftr d 15) 1 = 1.
Proof.
  intros H. change 1 with (Z.ones 1) at 1. rewrite Z.land_ones by lia.
  change (2 ^ 1) with 2. rewrite <- Z.bit0_mod, Z.shiftr_spec by lia.
  cbn [Z.add]. now rewrite H.
Qed.

Lemma read_bytes_one (len : Z) (b : byte) (f : stream) :
  MidiEvent._read_bytes len (b :: f) 1 = ([b], len + 1, f).
Proof. reflexivity. Qed.


Lemma file_header (prefix fmt num dv : list byte) (f : stream) :
  List.length prefix = 4%nat -> List.length fmt = 2%nat ->
  List.length num = 2%nat -> List.length dv = 2%nat ->
  MidiFile.__init__ (MidiFile.MThd ++ prefix ++ fmt ++ num ++ dv ++ f) =
  let _length := int_from_bytes prefix in
  if negb (6 <=? _length) then Raise AssertionError
  else
    let _division := int_from_bytes dv in
    let division_type := Z.land (Z.shiftr _division 15) 1 in
    if division_type =? 1 then Raise (MIDIError seconds_msg)
    else
      let '(_trailing, f) :=
        if 6 <? _length then read f (_length - 6) else (bytes 0, f) in
      '(tracks, f) <-
        MidiFile.__init__tracks (Z.to_nat (int_from_bytes num)) f ;;
      Ok (MidiFile.mk _length (int_from_bytes fmt) (int_from_bytes num)
            _division division_type (Z.land _division 16383) _trailing
            tracks, f).
Proof.
  intros Hp Hf Hn Hd.
  destruct prefix as [|p1 [|p2 [|p3 [|p4 [|]]]]]; try discriminate.
  destruct fmt as [|f1 [|f2 [|]]]; try discriminate.
  destruct num as [|n1 [|n2 [|]]]; try discriminate.
  destruct dv as [|d1 [|d2 [|]]]; try discriminate.
  reflexivity.
Qed.

Lemma top_bit_unset (d : Z) :
  Z.testbit d 15 = false -> Z.land (Z.shiftr d 15) 1 = 0.
Proof.
  intros H. change 1 with (Z.ones 1) at 1. rewrite Z.land_ones by lia.
  change (2 ^ 1) with 2. rewrite <- Z.bit0_mod, Z.shiftr_spec by lia.
  cbn [Z.add]. now rewrite H.
Qed.








(** ** Round trip *)

Lemma track_loop_inv (fuel : nat) :
  forall length f acc events f',
  MidiTrack.__init__loop fuel length f acc = Ok (events, f') ->
  exists new,
    events = acc ++ new /\ length = events_requested new /\
    Z.of_nat (List.length f) <=
      events_requested new + Z.of_nat (List.length f') /\
    (Z.of_nat (List.length f) =
       events_requested new + Z.of_nat (List.length f') ->
     forallb same_length new = true ->
     exists bodies,
       Forall2 (fun event body => MidiEvent.to_file event = Ok body)
         new bodies /\
       List.concat bodies ++ f' = f /\
       Z.of_nat (List.length (List.concat bodies)) = events_requested new).
Proof.
  induction fuel as [|fuel IH]; intros length f acc events f' H.
  - cbn in H. destruct (length =? 0) eqn:E; [|discriminate].
    apply Z.eqb_eq in E. injection H as <- <-. exists [].
    rewrite app_nil_r. cbn. repeat split; try lia.
    intros _ _. exists []. cbn. repeat split. constructor.
  - destruct (Z.eq_dec length 0) as [->|Hne].
    + rewrite track_loop_zero in H. injection H as <- <-. exists [].
      rewrite app_nil_r. cbn. repeat split; try lia.
      intros _ _. exists []. cbn. repeat split. constructor.
    + rewrite track_loop_step in H by exact Hne.
      destruct (MidiEvent.__init__ f) as [[event f1]| |] eqn:Ev;
        cbn [bind] in H; try discriminate.
      apply IH in H as (new & -> & Hreq & Hle & Heq).
      pose proof (event_shrinks _ _ _ Ev) as (_ & Hev & _).
      exists (event :: new). rewrite <- app_assoc. cbn [app events_requested fold_right].
      fold (events_requested new).
      split; [reflexivity|]. split; [lia|]. split; [lia|].
      intros Hfull Hsame. cbn [forallb] in Hsame.
      apply andb_true_iff in Hsame as [Hs1 Hs2].
      destruct (event_roundtrip _ _ _ Ev) as (bs & Ebs & _ & Hbs); [lia|].
      unfold same_length in Hs1. rewrite Ebs in Hs1. apply Z.eqb_eq in Hs1.
      destruct Heq as (bodies & Hb & Hc & Hl); [lia | exact Hs2 |].
      exists (bs :: bodies). cbn [List.concat].
      split; [constructor; assumption|].
      split; [rewrite <- app_assoc, Hc; now apply Hbs|].
      rewrite length_app. lia.
Qed.

Lemma bytes_eqb_eq (a b : list byte) : bytes_eqb a b = true -> a = b.
Proof.
  unfold bytes_eqb. destruct (list_eq_dec byte_eq_dec a b);
    [trivial | discriminate].
Qed.

Lemma track_roundtrip (f f' : stream) (track : MidiTrack.t) :
  MidiTrack.__init__ f = Ok (track, f') ->
  Z.of_nat (List.length f) <=
    track_requested track + Z.of_nat (List.length f') /\
  (Z.of_nat (List.length f) =
     track_requested track + Z.of_nat (List.length f') ->
   forallb same_length (MidiTrack.events track) = true ->
   exists bs, MidiTrack.to_file track = Ok bs /\ bs ++ f' = f).
Proof.
  unfold MidiTrack.__init__. intros H.
  destruct (read f 4) as [header f1] eqn:E1.
  destruct (bytes_eqb header MidiTrack.MTrk) eqn:Eh; [|discriminate].
  apply bytes_eqb_eq in Eh. subst header. cbn [negb] in H.
  destruct (read f1 4) as [prefix f2] eqn:E2.
  destruct (MidiTrack.__init__loop _ _ f2 []) as [[events f3]| |] eqn:El;
    cbn [bind] in H; try discriminate.
  injection H as <- <-.
  apply read_inv in E1 as [Ef _]; [|lia].
  apply read_inv in E2 as [Ef1 Hp]; [|lia].
  apply track_loop_inv in El as (new & Enew & Hreq & Hle & Heq).
  cbn [app] in Enew. subst events.
  unfold track_requested. cbn [MidiTrack.events].
  assert (Hlen : Z.of_nat (List.length f) =
                 4 + Z.of_nat (List.length prefix) + Z.of_nat (List.length f2))
    by (rewrite Ef, Ef1, !length_app; cbn [List.length MidiTrack.MTrk]; lia).
  split; [lia|]. intros Hfull Hsame.
  destruct Heq as (bodies & Hb & Hc & Hl); [lia | exact Hsame |].
  unfold MidiTrack.to_file. cbn [MidiTrack.events].
  rewrite (track_to_file_loop _ _ _ Hb). cbn [bind bytes repeat app].
  rewrite Hl, <- Hreq, to_bytes_from_bytes by lia. cbn [bind].
  eexists. split; [reflexivity|].
  now rewrite Ef, Ef1, <- !app_assoc, Hc.
Qed.

Lemma tracks_roundtrip (n : nat) :
  forall f tracks f',
  MidiFile.__init__tracks n f = Ok (tracks, f') ->
  Z.of_nat (List.length f) <=
    tracks_requested tracks + Z.of_nat (List.length f') /\
  (Z.of_nat (List.length f) =
     tracks_requested tracks + Z.of_nat (List.length f') ->
   all_same_length tracks = true ->
   exists bodies,
     Forall2 (fun track body => MidiTrack.to_file track = Ok body)
       tracks bodies /\
     List.concat bodies ++ f' = f).
Proof.
  induction n as [|n IH]; intros f tracks f' H; cbn [MidiFile.__init__tracks] in H.
  - injection H as <- <-. cbn. split; [lia|]. intros _ _.
    exists []. split; [constructor | reflexivity].
  - destruct (MidiTrack.__init__ f) as [[track f1]| |] eqn:Et;
      cbn [bind] in H; try discriminate.
    destruct (MidiFile.__init__tracks n f1) as [[tracks' f2]| |] eqn:Ets;
      cbn [bind] in H; try discriminate.
    injection H as <- <-.
    apply track_roundtrip in Et as [Hle1 Heq1].
    apply IH in Ets as [Hle2 Heq2].
    cbn [tracks_requested fold_right]. fold (tracks_requested tracks').
    split; [lia|]. intros Hfull Hsame.
    cbn [all_same_length forallb] in Hsame.
    apply andb_true_iff in Hsame as [Hs1 Hs2].
    destruct Heq1 as (bs & Ebs & Hbs); [lia | exact Hs1 |].
    destruct Heq2 as (bodies & Hb & Hc); [lia | exact Hs2 |].
    exists (bs :: bodies). cbn [List.concat].
    split; [constructor; assumption|].
    now rewrite <- app_assoc, Hc.
Qed.

Lemma file_to_file_loop (tracks : list MidiTrack.t) :
  forall (bodies : list (list byte)) (result : list byte),
  Forall2 (fun track body => MidiTrack.to_file track = Ok body) tracks bodies ->
  MidiFile.to_file_loop tracks result = Ok (result ++ List.concat bodies).
Proof.
  induction tracks as [|track tracks IH]; intros bodies result H;
    inversion H as [|? body ? bodies' Hb Hbs]; subst;
    cbn [MidiFile.to_file_loop List.concat].
  - now rewrite app_nil_r.
  - rewrite Hb. cbn [bind]. rewrite (IH _ _ Hbs). now rewrite <- app_assoc.
Qed.

(** C1 as stated fails: [padded_file] is a one-track file whose chunk
    lengths are exact and whose only event has its delta time 0 written as
    80 00.  The parser accepts it, reading every byte and running into no
    end of file; [to_file] writes the delta time as 00 and the track length
    as 4, so the result is one byte shorter than the input. *)
Lemma C1_padded_delta_not_reproduced :
  exists mf bs,
    MidiFile.__init__ padded_file = Ok (mf, []) /\
    Z.of_nat (List.length padded_file) = file_requested mf /\
    MidiFile.to_file mf = Ok bs /\
    bs <> padded_file /\
    (List.length bs < List.length padded_file)%nat.
Proof.
  eexists. eexists. split; [reflexivity|]. split; [reflexivity|].
  split; [reflexivity|]. split; [discriminate | cbn; lia].
Qed.

(** When the parser accepts [f], no read ran into the end of the file
    (the bytes consumed are as many as the parser asked for) and every
    event it returned serialises to as many bytes as it counted for it,
    [to_file] returns exactly the bytes that were consumed: followed by
    what the parser left unread, they are [f]. *)
Theorem roundtrip_when_same_length (f f' : stream) (mf : MidiFile.t) :
  MidiFile.__init__ f = Ok (mf, f') ->
  Z.of_nat (List.length f) = file_requested mf + Z.of_nat (List.length f') ->
  all_same_length (MidiFile.tracks mf) = true ->
  exists bs, MidiFile.to_file mf = Ok bs /\ bs ++ f' = f.
Proof.
  unfold MidiFile.__init__. intros H.
  destruct (read f 4) as [header f1] eqn:E1.
  destruct (bytes_eqb header MidiFile.MThd) eqn:Eh; [|discriminate].
  apply bytes_eqb_eq in Eh. subst header. cbn [negb] in H.
  destruct (read f1 4) as [prefix f2] eqn:E2.
  destruct (6 <=? int_from_bytes prefix) eqn:E6; [|discriminate].
  apply Z.leb_le in E6. cbn [negb] in H.
  destruct (read f2 2) as [fmt f3] eqn:E3.
  destruct (read f3 2) as [num f4] eqn:E4.
  destruct (read f4 2) as [dv f5] eqn:E5.
  destruct (Z.land (Z.shiftr (int_from_bytes dv) 15) 1 =? 1); [discriminate|].
  destruct (if 6 <? int_from_bytes prefix
            then read f5 (int_from_bytes prefix - 6)
            else (bytes 0, f5)) as [tr f6] eqn:E7.
  destruct (MidiFile.__init__tracks _ f6) as [[tracks f7]| |] eqn:Et;
    cbn [bind] in H; try discriminate.
  injection H as <- <-.
  unfold file_requested.
  cbn [MidiFile._length MidiFile.tracks MidiFile.format MidiFile._num_tracks
       MidiFile._division MidiFile._trailing].
  intros Hfull Hsame.
  apply read_inv in E1 as [Ef _]; [|lia].
  apply read_inv in E2 as [Ef1 Hp]; [|lia].
  apply read_inv in E3 as [Ef2 Hfmt]; [|lia].
  apply read_inv in E4 as [Ef3 Hnum]; [|lia].
  apply read_inv in E5 as [Ef4 Hdv]; [|lia].
  assert (Htr : f5 = tr ++ f6 /\
                Z.of_nat (List.length tr) <= int_from_bytes prefix - 6).
  { destruct (6 <? int_from_bytes prefix) eqn:El.
    - apply Z.ltb_lt in El. apply read_inv in E7; [exact E7 | lia].
    - injection E7 as <- <-. cbn. split; [reflexivity | lia]. }
  destruct Htr as [Ef5 Htr].
  apply tracks_roundtrip in Et as [Hle Heq].
  assert (Hlen : Z.of_nat (List.length f) =
                 4 + Z.of_nat (List.length prefix) + Z.of_nat (List.length fmt)
                 + Z.of_nat (List.length num) + Z.of_nat (List.length dv)
                 + Z.of_nat (List.length tr) + Z.of_nat (List.length f6))
    by (rewrite Ef, Ef1, Ef2, Ef3, Ef4, Ef5, !length_app;
        cbn [List.length MidiFile.MThd]; lia).
  destruct Heq as (bodies & Hb & Hc); [lia | exact Hsame |].
  unfold MidiFile.to_file.
  cbn [MidiFile._length MidiFile.tracks MidiFile.format MidiFile._num_tracks
       MidiFile._division MidiFile._trailing].
  rewrite !to_bytes_from_bytes by lia. cbn [bind].
  rewrite (file_to_file_loop _ _ _ Hb).
  eexists. split; [reflexivity|].
  now rewrite Ef, Ef1, Ef2, Ef3, Ef4, Ef5, <- !app_assoc, Hc.
Qed.

Lemma roundtrip_when_same_length_witness :
  exists bs,
    MidiFile.to_file
      (MidiFile.mk 6 1 1 96 0 96 []
         [MidiTrack.mk
            [MidiEvent.mk 4 0 (Some 60) (Some 64) (Some 0) [] 144;
             MidiEvent.mk 5 128 (Some 60) (Some 0) (Some 0) [] 128;
             MidiEvent.mk 3 0 None None None [x05] 192]]) = Ok bs /\
    bs ++ [] = sample_file.
Proof.
  apply (roundtrip_when_same_length sample_file []); reflexivity.
Defined.

(** * Further properties of the codec *)

(** The delta-time bytes [to_file] writes for a non-negative delta time. *)
Lemma to_file_timedelta_shape (td : Z) :
  0 <= td ->
  exists bs,
    to_file_timedelta td = Ok bs /\ vlq_shape bs = true /\
    groups_value bs = td /\ vlq_minimal bs = true.
Proof.
  intros Htd. destruct (Z.eq_dec td 0) as [->|Hne].
  - exists [x00]. repeat split.
  - destruct (to_file_loop_spec (MidiEvent.to_file_fuel td) td [] true)
      as (hi & b & E & Hhi & Hb & Hval & Hlead); [lia | |].
    + unfold MidiEvent.to_file_fuel. pose proof (Z.log2_nonneg td). lia.
    + exists (hi ++ [b]). unfold to_file_timedelta. rewrite E. cbn [bind].
      split.
      { destruct (hi ++ [b]) eqn:E'; [destruct hi; discriminate|].
        reflexivity. }
      split; [now apply vlq_shape_snoc|]. split; [exact Hval|].
      destruct hi as [|c hi']; [reflexivity|]. cbn [app vlq_minimal hd] in *.
      destruct (hi' ++ [b]) eqn:E'; [destruct hi'; discriminate|].
      apply negb_true_iff, Z.eqb_neq. exact Hlead.
Qed.

Lemma shiftr_4_nibble (status : Z) (k : Z) :
  16 * k <= status < 16 * k + 16 -> Z.shiftr status 4 = k.
Proof.
  intros H. rewrite Z.shiftr_div_pow2 by lia. change (2 ^ 4) with 16.
  symmetry. apply Z.div_unique with (status - 16 * k); lia.
Qed.

Lemma read_bytes_app (len : Z) (bs : list byte) (f : stream) :
  MidiEvent._read_bytes len (bs ++ f) (Z.of_nat (List.length bs)) =
  (bs, len + Z.of_nat (List.length bs), f).
Proof.
  unfold MidiEvent._read_bytes, read. rewrite Nat2Z.id.
  rewrite firstn_app, skipn_app, Nat.sub_diag, firstn_all, skipn_all.
  cbn [firstn skipn app]. now rewrite app_nil_r.
Qed.

(** ** Serialise, then parse *)

(** A note-off or note-on event with a non-negative delta time and byte
    values serialises to bytes that parse back to the same delta time,
    status, note and velocity; the parser sets the channel to the low
    nibble of the status and the counter to the number of bytes. *)
Theorem note_event_serialise_parse (len td status n v : Z) (ch : option Z)
    (rest : stream) :
  0 <= td -> 128 <= status < 160 -> 0 <= n < 256 -> 0 <= v < 256 ->
  exists bs,
    MidiEvent.to_file (MidiEvent.mk len td (Some n) (Some v) ch [] status) =
      Ok bs /\
    MidiEvent.__init__ (bs ++ rest) =
      Ok (MidiEvent.mk (Z.of_nat (List.length bs)) td (Some n) (Some v)
            (Some (Z.land status 15)) [] status, rest).
Proof.
  intros Htd Hst Hn Hv.
  destruct (to_file_timedelta_shape td Htd) as (d & Ed & Hs & Hval & _).
  exists (d ++ [byte_of_Z status; byte_of_Z n; byte_of_Z v]).
  split.
  - rewrite to_file_unfold. cbn [MidiEvent.timedelta MidiEvent._event_info
      MidiEvent.note MidiEvent.velocity MidiEvent._trailing_ignore].
    rewrite Ed. cbn [bind]. rewrite !to_bytes_one by lia. cbn [bind].
    now rewrite app_nil_r, <- !app_assoc.
  - unfold MidiEvent.__init__. rewrite <- app_assoc.
    rewrite timedelta_decode by exact Hs. cbn [app].
    rewrite read_bytes_one, int_from_bytes_one, Z_of_byte_of_Z by lia.
    assert (Ht : Z.shiftr status 4 = 8 \/ Z.shiftr status 4 = 9).
    { destruct (Z_lt_le_dec status 144);
        [left | right]; apply shiftr_4_nibble; lia. }
    unfold groups_value in Hval.
    destruct Ht as [Ht|Ht]; rewrite Ht; cbn [Z.eqb Pos.eqb orb];
      rewrite !read_bytes_one, !int_from_bytes_one, !Z_of_byte_of_Z by lia;
      rewrite Hval, length_app; cbn [List.length];
      repeat f_equal; lia.
Qed.

Lemma note_event_serialise_parse_witness :
  exists bs,
    MidiEvent.to_file (MidiEvent.mk 0 300 (Some 200) (Some 1) None [] 153) =
      Ok bs /\
    MidiEvent.__init__ (bs ++ [xff]) =
      Ok (MidiEvent.mk (Z.of_nat (List.length bs)) 300 (Some 200) (Some 1)
            (Some (Z.land 153 15)) [] 153, [xff]).
Proof.
  apply (note_event_serialise_parse 0 300 153 200 1 None [xff]); lia.
Defined.

(** An event with one of the fixed-size opaque payloads (two bytes after a
    status 0xA., 0xB. or 0xE., one byte after 0xC. or 0xD.) serialises to
    bytes that parse back to the same delta time, status and payload. *)
Theorem opaque_event_serialise_parse (len td status : Z) (ch : option Z)
    (payload : list byte) (rest : stream) :
  0 <= td ->
  ((160 <= status < 192 \/ 224 <= status < 240) /\ List.length payload = 2%nat)
  \/ (192 <= status < 224 /\ List.length payload = 1%nat) ->
  exists bs,
    MidiEvent.to_file (MidiEvent.mk len td None None ch payload status) =
      Ok bs /\
    MidiEvent.__init__ (bs ++ rest) =
      Ok (MidiEvent.mk (Z.of_nat (List.length bs)) td None None None payload
            status, rest).
Proof.
  intros Htd Hst.
  destruct (to_file_timedelta_shape td Htd) as (d & Ed & Hs & Hval & _).
  exists (d ++ [byte_of_Z status] ++ payload).
  assert (Hbyte : 0 <= status < 256) by lia.
  split.
  - rewrite to_file_unfold. cbn [MidiEvent.timedelta MidiEvent._event_info
      MidiEvent.note MidiEvent.velocity MidiEvent._trailing_ignore].
    rewrite Ed. cbn [bind]. rewrite !to_bytes_one by lia. cbn [bind].
    now rewrite <- !app_assoc.
  - unfold MidiEvent.__init__. rewrite <- !app_assoc.
    rewrite timedelta_decode by exact Hs. cbn [app].
    rewrite read_bytes_one, int_from_bytes_one, Z_of_byte_of_Z by lia.
    unfold groups_value in Hval. rewrite Hval.
    assert (Ht : exists k, Z.shiftr status 4 = k /\
                   ((k = 10 \/ k = 11 \/ k = 14) /\ List.length payload = 2%nat
                    \/ (k = 12 \/ k = 13) /\ List.length payload = 1%nat)).
    { exists (Z.shiftr status 4). split; [reflexivity|].
      rewrite Z.shiftr_div_pow2 by lia. change (2 ^ 4) with 16.
      pose proof (Z.div_mod status 16 ltac:(lia)).
      pose proof (Z.mod_pos_bound status 16 ltac:(lia)). lia. }
    destruct Ht as (k & -> & [[Hk Hl]|[Hk Hl]]).
    + replace (k =? 15) with false by (symmetry; apply Z.eqb_neq; lia).
      replace ((k =? 10) || (k =? 11) || (k =? 14)) with true
        by (destruct Hk as [->|[->| ->]]; reflexivity).
      change 2 with (Z.of_nat 2). rewrite <- Hl, read_bytes_app.
      rewrite !length_app. cbn [List.length]. repeat f_equal. lia.
    + replace (k =? 15) with false by (symmetry; apply Z.eqb_neq; lia).
      replace ((k =? 10) || (k =? 11) || (k =? 14)) with false
        by (destruct Hk as [->| ->]; reflexivity).
      replace ((k =? 12) || (k =? 13)) with true
        by (destruct Hk as [->| ->]; reflexivity).
      change 1 with (Z.of_nat 1) at 2. rewrite <- Hl, read_bytes_app.
      rewrite !length_app. cbn [List.length]. repeat f_equal. lia.
Qed.

Lemma opaque_event_serialise_parse_witness :
  exists bs,
    MidiEvent.to_file
      (MidiEvent.mk 0 128 None None (Some 3) [x07; x64] 179) = Ok bs /\
    MidiEvent.__init__ (bs ++ []) =
      Ok (MidiEvent.mk (Z.of_nat (List.length bs)) 128 None None None
            [x07; x64] 179, []).
Proof.
  apply (opaque_event_serialise_parse 0 128 179 (Some 3) [x07; x64] []).
  - lia.
  - left. split; [left; lia | reflexivity].
Defined.

(** ** Meta and system events with a one-byte length *)

(** When the length of a meta event (status 0xFF) or of a system event
    (status 0xF0 to 0xFE) is a single byte below 128 and that many bytes
    follow, the parser keeps the meta type, the length byte and the payload
    as the opaque bytes, counts every byte, and stops right after the
    payload; [to_file] writes the event back byte for byte when the delta
    time was minimal. *)
Theorem short_meta_event_parse (delta payload : list byte) (ty lb : byte)
    (rest : stream) :
  vlq_shape delta = true -> continues lb = false ->
  Z.of_nat (List.length payload) = Z_of_byte lb ->
  (let event :=
     MidiEvent.mk (Z.of_nat (List.length delta) + 3 + Z_of_byte lb)
       (groups_value delta) None None None (ty :: lb :: payload) 255 in
   MidiEvent.__init__ (delta ++ [xff; ty; lb] ++ payload ++ rest) =
     Ok (event, rest) /\
   (vlq_minimal delta = true ->
    MidiEvent.to_file event = Ok (delta ++ [xff; ty; lb] ++ payload))) /\
  (forall status : byte,
     240 <= Z_of_byte status < 255 ->
     let event :=
       MidiEvent.mk (Z.of_nat (List.length delta) + 2 + Z_of_byte lb)
         (groups_value delta) None None None (lb :: payload)
         (Z_of_byte status) in
     MidiEvent.__init__ (delta ++ [status; lb] ++ payload ++ rest) =
       Ok (event, rest) /\
     (vlq_minimal delta = true ->
      MidiEvent.to_file event = Ok (delta ++ [status; lb] ++ payload))).
Proof.
  intros Hs Hlb Hlen.
  assert (Hign : forall trailing len,
            MidiEvent.__init__ignore (lb :: payload ++ rest) trailing 0 len =
            (trailing ++ [lb], Z_of_byte lb, len + 1, payload ++ rest)).
  { intros trailing len.
    rewrite (ignore_sums_groups [lb] (payload ++ rest))
      by (cbn; now rewrite Hlb).
    cbn [fold_left List.length]. now rewrite (group_low _ Hlb). }
  assert (Hto : forall len sb body,
            vlq_minimal delta = true ->
            MidiEvent.to_file
              (MidiEvent.mk len (groups_value delta) None None None body
                 (Z_of_byte sb)) = Ok (delta ++ [sb] ++ body)).
  { intros len sb body Hm. rewrite to_file_unfold.
    cbn [MidiEvent.timedelta MidiEvent._event_info MidiEvent.note
         MidiEvent.velocity MidiEvent._trailing_ignore].
    rewrite (to_file_timedelta_minimal _ Hs Hm). cbn [bind].
    rewrite to_bytes_one by apply Z_of_byte_range. cbn [bind].
    now rewrite byte_of_Z_of_byte, <- !app_assoc. }
  split.
  - cbv zeta. split; [|intros Hm; exact (Hto _ xff _ Hm)].
    unfold MidiEvent.__init__.
    rewrite timedelta_decode by exact Hs. cbn [app].
    rewrite read_bytes_one, int_from_bytes_one.
    change (Z_of_byte xff) with 255.
    change (Z.shiftr 255 4 =? 15) with true.
    change (Z.land 255 15 =? 15) with true. cbv iota.
    rewrite read_bytes_one, Hign.
    rewrite <- Hlen, read_bytes_app. cbn [app].
    unfold groups_value. do 3 f_equal. lia.
  - intros status Hst. cbv zeta.
    split; [|intros Hm; exact (Hto _ status _ Hm)].
    unfold MidiEvent.__init__.
    rewrite timedelta_decode by exact Hs. cbn [app].
    rewrite read_bytes_one, int_from_bytes_one.
    rewrite (shiftr_4_nibble _ 15) by lia. cbn [Z.eqb Pos.eqb].
    replace (Z.land (Z_of_byte status) 15 =? 15) with false.
    2:{ symmetry. apply Z.eqb_neq. change 15 with (Z.ones 4).
        rewrite Z.land_ones by lia. change (2 ^ 4) with 16.
        pose proof (Z.div_mod (Z_of_byte status) 16 ltac:(lia)).
        pose proof (Z.mod_pos_bound (Z_of_byte status) 16 ltac:(lia)).
        change (Z.ones 4) with 15. lia. }
    rewrite Hign. rewrite <- Hlen, read_bytes_app. cbn [app].
    unfold groups_value. do 3 f_equal. lia.
Qed.

Lemma short_meta_event_parse_witness :
  MidiEvent.__init__ ([x00] ++ [xff; x2f; x00] ++ [] ++ [x4d]) =
    Ok (MidiEvent.mk (Z.of_nat (List.length [x00]) + 3 + Z_of_byte x00)
          (groups_value [x00]) None None None [x2f; x00] 255, [x4d]).
Proof.
  apply (proj1 (short_meta_event_parse [x00] [] x2f x00 [x4d]
                  eq_refl eq_refl eq_refl)).
Defined.

(** ** Files that end too early *)

(** A note event cut off after its status byte, or after its note byte, is
    accepted: the bytes that are missing read as 0, the counter counts them
    all the same, and nothing is raised.  [to_file] then writes the three
    bytes in full. *)
Theorem truncated_note_event_accepted (delta : list byte) (status : byte)
    (p : list byte) :
  vlq_shape delta = true -> 128 <= Z_of_byte status < 160 ->
  (List.length p < 2)%nat ->
  let event :=
    MidiEvent.mk (Z.of_nat (List.length delta) + 3) (groups_value delta)
      (Some (int_from_bytes p)) (Some 0) (Some (Z.land (Z_of_byte status) 15))
      [] (Z_of_byte status) in
  MidiEvent.__init__ (delta ++ status :: p) = Ok (event, []) /\
  (vlq_minimal delta = true ->
   MidiEvent.to_file event =
     Ok (delta ++ [status; byte_of_Z (int_from_bytes p); x00])).
Proof.
  intros Hs Hst Hp. cbv zeta. split.
  - unfold MidiEvent.__init__.
    rewrite timedelta_decode by exact Hs.
    rewrite read_bytes_one, int_from_bytes_one.
    assert (Ht : Z.shiftr (Z_of_byte status) 4 = 8 \/
                 Z.shiftr (Z_of_byte status) 4 = 9).
    { destruct (Z_lt_le_dec (Z_of_byte status) 144);
        [left | right]; apply shiftr_4_nibble; lia. }
    destruct p as [|nb [|vb p']]; [| |cbn in Hp; lia];
      destruct Ht as [Ht|Ht]; rewrite Ht; cbn [Z.eqb Pos.eqb orb];
      unfold MidiEvent._read_bytes, read, int_from_bytes, groups_value;
      change (Z.to_nat 1) with 1%nat; cbn [firstn skipn fold_left];
      do 3 f_equal; lia.
  - intros Hm. rewrite to_file_unfold.
    cbn [MidiEvent.timedelta MidiEvent._event_info MidiEvent.note
         MidiEvent.velocity MidiEvent._trailing_ignore].
    rewrite (to_file_timedelta_minimal _ Hs Hm). cbn [bind].
    assert (Hn : 0 <= int_from_bytes p < 256).
    { destruct p as [|nb [|vb p']]; cbn [List.length] in Hp; [| |lia].
      - change (int_from_bytes []) with 0. lia.
      - rewrite int_from_bytes_one. apply Z_of_byte_range. }
    rewrite !to_bytes_one by (try apply Z_of_byte_range; lia). cbn [bind].
    now rewrite byte_of_Z_of_byte, app_nil_r, <- !app_assoc.
Qed.

Lemma truncated_note_event_accepted_witness :
  MidiEvent.__init__ ([x00] ++ x90 :: [x3c]) =
    Ok (MidiEvent.mk (Z.of_nat (List.length [x00]) + 3) (groups_value [x00])
          (Some (int_from_bytes [x3c])) (Some 0)
          (Some (Z.land (Z_of_byte x90) 15)) [] (Z_of_byte x90), []).
Proof.
  apply (proj1 (truncated_note_event_accepted [x00] x90 [x3c] eq_refl
                  ltac:(cbn; lia) ltac:(cbn; lia))).
Defined.

(** A header cut off after its declared length (or inside it) is accepted
    as a file of format 0 with no tracks: the missing fields read as 0. *)
Theorem truncated_header_accepted (prefix : list byte) :
  (List.length prefix <= 4)%nat -> 6 <= int_from_bytes prefix ->
  MidiFile.__init__ (MidiFile.MThd ++ prefix) =
    Ok (MidiFile.mk (int_from_bytes prefix) 0 0 0 0 0 [] [], []) /\
  MidiFile.to_file (MidiFile.mk (int_from_bytes prefix) 0 0 0 0 0 [] []) =
    Ok (MidiFile.MThd ++ big_endian 4 (int_from_bytes prefix) ++
        [x00; x00; x00; x00; x00; x00]).
Proof.
  intros Hp Hlen. split.
  - unfold MidiFile.__init__.
    assert (E1 : read (MidiFile.MThd ++ prefix) 4 = (MidiFile.MThd, prefix))
      by reflexivity.
    rewrite E1. change (bytes_eqb MidiFile.MThd MidiFile.MThd) with true.
    cbn [negb].
    assert (E2 : read prefix 4 = (prefix, [])).
    { unfold read. change (Z.to_nat 4) with 4%nat.
      now rewrite firstn_all2, skipn_all2 by lia. }
    rewrite E2.
    replace (6 <=? int_from_bytes prefix) with true
      by (symmetry; apply Z.leb_le; exact Hlen).
    cbn [negb read firstn skipn Z.to_nat Pos.to_nat Pos.iter_op Nat.add].
    change (int_from_bytes []) with 0. cbn [Z.shiftr Z.shiftl Z.land Z.eqb].
    destruct (6 <? int_from_bytes prefix); cbn [read]; 
      rewrite ?firstn_nil, ?skipn_nil; reflexivity.
  - unfold MidiFile.to_file.
    cbn [MidiFile._length MidiFile.format MidiFile._num_tracks
         MidiFile._division MidiFile._trailing MidiFile.tracks].
    pose proof (int_from_bytes_range prefix) as Hr.
    assert (H4 : int_from_bytes prefix < 256 ^ Z.of_nat 4).
    { eapply Z.lt_le_trans; [apply Hr|].
      apply Z.pow_le_mono_r; lia. }
    unfold to_bytes at 1.
    replace (0 <=? int_from_bytes prefix) with true
      by (symmetry; apply Z.leb_le; lia).
    replace (int_from_bytes prefix <? 256 ^ Z.of_nat 4) with true
      by (symmetry; apply Z.ltb_lt; exact H4).
    reflexivity.
Qed.

Lemma truncated_header_accepted_witness :
  MidiFile.__init__ (MidiFile.MThd ++ [x06]) =
    Ok (MidiFile.mk (int_from_bytes [x06]) 0 0 0 0 0 [] [], []).
Proof.
  apply (proj1 (truncated_header_accepted [x06] ltac:(cbn; lia)
                  ltac:(cbn; lia))).
Defined.

(** ** Parse, then serialise: never an error *)

Lemma timedelta_rest (f : stream) :
  forall acc len v len' f',
  MidiEvent.__init__timedelta f acc len = (v, len', f') -> f' <> [] ->
  exists bs,
    f = bs ++ f' /\ len' = len + Z.of_nat (List.length bs) /\
    vlq_shape bs = true /\ v = fold_left vlq_step bs acc.
Proof.
  induction f as [|b f IH]; intros acc len v len' f' H Hne.
  - rewrite timedelta_nil in H. injection H as <- <- <-. congruence.
  - rewrite timedelta_cons in H. destruct (continues b) eqn:Hb.
    + apply IH in H as (bs & E & Hl & Hs & Hv); [|exact Hne].
      exists (b :: bs). cbn [List.length app fold_left].
      split; [now rewrite E|]. split; [lia|]. split; [|exact Hv].
      rewrite vlq_shape_cons by (destruct bs; [discriminate Hs|discriminate]).
      now rewrite Hb, Hs.
    + injection H as <- <- <-. exists [b]. cbn [List.length app fold_left].
      split; [reflexivity|]. split; [lia|]. split; [|reflexivity].
      cbn. now rewrite Hb.
Qed.

Lemma int_from_bytes_short (bs : list byte) :
  Z.of_nat (List.length bs) <= 1 -> 0 <= int_from_bytes bs < 256.
Proof.
  destruct bs as [|b [|c bs]]; cbn [List.length]; intros H; [| |lia].
  - change (int_from_bytes []) with 0. lia.
  - rewrite int_from_bytes_one. apply Z_of_byte_range.
Qed.

(** The end of each case of [event_parse_serialises]. *)
Ltac serialises_case c s Ec :=
  rewrite to_file_unfold;
  cbn [MidiEvent._length MidiEvent.timedelta MidiEvent.note
       MidiEvent.velocity MidiEvent._trailing_ignore MidiEvent._event_info];
  rewrite Ec; cbn [bind];
  rewrite int_from_bytes_one, to_bytes_one by apply Z_of_byte_range;
  cbn [bind];
  rewrite ?to_bytes_one by (apply int_from_bytes_short; lia); cbn [bind];
  eexists; split; [reflexivity|];
  rewrite ?length_app in *; cbn [List.length] in *; lia.

(** Whatever event the parser returns, [to_file] returns bytes for it, no
    more of them than the parser counted. *)
Lemma event_parse_serialises (f f' : stream) (event : MidiEvent.t) :
  MidiEvent.__init__ f = Ok (event, f') ->
  exists bs,
    MidiEvent.to_file event = Ok bs /\
    Z.of_nat (List.length bs) <= MidiEvent._length event.
Proof.
  unfold MidiEvent.__init__. intros H.
  destruct (MidiEvent.__init__timedelta f 0 0) as [[td len] f1] eqn:Etd.
  destruct (MidiEvent._read_bytes len f1 1) as [[sb len2] f2] eqn:Es.
  apply read_bytes_inv in Es as (-> & Ef1 & Hsb); [|lia].
  destruct sb as [|s sb']; [cbn in H; discriminate|].
  destruct sb' as [|s' sb']; [|cbn [List.length] in Hsb; lia].
  apply timedelta_rest in Etd as (delta & Ef & -> & Hs & ->);
    [|rewrite Ef1; discriminate].
  destruct (timedelta_reencode _ Hs) as (c & Ec & _ & _ & _ & Hcl & _).
  fold (groups_value delta) in H.
  set (event_type := Z.shiftr (int_from_bytes [s]) 4) in H.
  destruct (event_type =? 15).
  { destruct (if Z.land (int_from_bytes [s]) 15 =? 15
              then MidiEvent._read_bytes (0 + Z.of_nat (List.length delta) + 1) f2 1
              else ([], 0 + Z.of_nat (List.length delta) + 1, f2))
      as [[tr len3] f3] eqn:Et.
    assert (Htr : 0 + Z.of_nat (List.length delta) + 1
                  + Z.of_nat (List.length tr) <= len3).
    { destruct (Z.land (int_from_bytes [s]) 15 =? 15).
      - apply read_bytes_inv in Et as (-> & E & Hl); lia.
      - injection Et as <- <- <-. cbn [List.length]. lia. }
    destruct (MidiEvent.__init__ignore f3 tr 0 len3)
      as [[[tr' ign] len4] f4] eqn:Ei.
    apply ignore_inv in Ei as (ib & Ef3 & -> & Hl4 & Hign); [|lia].
    destruct (MidiEvent._read_bytes len4 f4 ign) as [[pb len5] f5] eqn:Ep.
    apply read_bytes_inv in Ep as (-> & Ef4 & Hpb); [|lia].
    injection H as <- <-. serialises_case c s Ec. }
  destruct ((event_type =? 10) || (event_type =? 11) || (event_type =? 14)).
  { destruct (MidiEvent._read_bytes (0 + Z.of_nat (List.length delta) + 1) f2 2)
      as [[pb len5] f5] eqn:Ep.
    apply read_bytes_inv in Ep as (-> & Ef4 & Hpb); [|lia].
    injection H as <- <-. serialises_case c s Ec. }
  destruct ((event_type =? 12) || (event_type =? 13)).
  { destruct (MidiEvent._read_bytes (0 + Z.of_nat (List.length delta) + 1) f2 1)
      as [[pb len5] f5] eqn:Ep.
    apply read_bytes_inv in Ep as (-> & Ef4 & Hpb); [|lia].
    injection H as <- <-. serialises_case c s Ec. }
  destruct ((event_type =? 8) || (event_type =? 9)); [|discriminate].
  destruct (MidiEvent._read_bytes (0 + Z.of_nat (List.length delta) + 1) f2 1)
    as [[nb len4] f4] eqn:En.
  apply read_bytes_inv in En as (-> & Ef2 & Hnb); [|lia].
  destruct (MidiEvent._read_bytes (0 + Z.of_nat (List.length delta) + 1 + 1) f4 1)
    as [[vb len5] f5] eqn:Ev.
  apply read_bytes_inv in Ev as (-> & Ef4 & Hvb); [|lia].
  injection H as <- <-. serialises_case c s Ec.
Qed.

Lemma track_loop_serialises (fuel : nat) :
  forall length f acc events f',
  MidiTrack.__init__loop fuel length f acc = Ok (events, f') ->
  exists new bodies,
    events = acc ++ new /\ length = events_requested new /\
    Forall2 (fun event body => MidiEvent.to_file event = Ok body) new bodies /\
    Z.of_nat (List.length (List.concat bodies)) <= events_requested new.
Proof.
  induction fuel as [|fuel IH]; intros length f acc events f' H.
  - cbn in H. destruct (length =? 0) eqn:E; [|discriminate].
    apply Z.eqb_eq in E. injection H as <- <-. exists [], [].
    rewrite app_nil_r. cbn. repeat split; try lia. constructor.
  - destruct (Z.eq_dec length 0) as [->|Hne].
    + rewrite track_loop_zero in H. injection H as <- <-. exists [], [].
      rewrite app_nil_r. cbn. repeat split; try lia. constructor.
    + rewrite track_loop_step in H by exact Hne.
      destruct (MidiEvent.__init__ f) as [[event f1]| |] eqn:Ev;
        cbn [bind] in H; try discriminate.
      apply IH in H as (new & bodies & -> & Hreq & Hb & Hl).
      destruct (event_parse_serialises _ _ _ Ev) as (bs & Ebs & Hbs).
      exists (event :: new), (bs :: bodies). rewrite <- app_assoc.
      cbn [app events_requested fold_right List.concat].
      fold (events_requested new). rewrite length_app.
      split; [reflexivity|]. split; [lia|].
      split; [constructor; assumption | lia].
Qed.

Lemma track_parse_serialises (f f' : stream) (track : MidiTrack.t) :
  MidiTrack.__init__ f = Ok (track, f') ->
  exists bs,
    MidiTrack.to_file track = Ok bs /\
    Z.of_nat (List.length bs) <= track_requested track.
Proof.
  unfold MidiTrack.__init__. intros H.
  destruct (read f 4) as [header f1] eqn:E1.
  destruct (bytes_eqb header MidiTrack.MTrk) eqn:Eh; [|discriminate].
  cbn [negb] in H.
  destruct (read f1 4) as [prefix f2] eqn:E2.
  destruct (MidiTrack.__init__loop _ _ f2 []) as [[events f3]| |] eqn:El;
    cbn [bind] in H; try discriminate.
  injection H as <- <-.
  apply read_inv in E2 as [_ Hp]; [|lia].
  apply track_loop_serialises in El as (new & bodies & Enew & Hreq & Hb & Hl).
  cbn [app] in Enew. subst events.
  unfold track_requested, MidiTrack.to_file. cbn [MidiTrack.events].
  rewrite (track_to_file_loop _ _ _ Hb). cbn [bind bytes repeat app].
  pose proof (int_from_bytes_range prefix) as Hr.
  assert (H4 : int_from_bytes prefix < 256 ^ Z.of_nat 4).
  { eapply Z.lt_le_trans; [apply Hr|]. apply Z.pow_le_mono_r; lia. }
  unfold to_bytes.
  replace (0 <=? Z.of_nat (List.length (List.concat bodies))) with true
    by (symmetry; apply Z.leb_le; lia).
  replace (Z.of_nat (List.length (List.concat bodies)) <? 256 ^ Z.of_nat 4)
    with true by (symmetry; apply Z.ltb_lt; lia).
  cbn [andb bind]. eexists. split; [reflexivity|].
  rewrite !length_app, big_endian_length. cbn [List.length MidiTrack.MTrk]. lia.
Qed.

Lemma tracks_parse_serialise (n : nat) :
  forall f tracks f',
  MidiFile.__init__tracks n f = Ok (tracks, f') ->
  List.length tracks = n /\
  exists bodies,
    Forall2 (fun track body => MidiTrack.to_file track = Ok body)
      tracks bodies /\
    Z.of_nat (List.length (List.concat bodies)) <= tracks_requested tracks.
Proof.
  induction n as [|n IH]; intros f tracks f' H; cbn [MidiFile.__init__tracks] in H.
  - injection H as <- <-. split; [reflexivity|]. exists []. cbn.
    split; [constructor | lia].
  - destruct (MidiTrack.__init__ f) as [[track f1]| |] eqn:Et;
      cbn [bind] in H; try discriminate.
    destruct (MidiFile.__init__tracks n f1) as [[tracks' f2]| |] eqn:Ets;
      cbn [bind] in H; try discriminate.
    injection H as <- <-.
    apply track_parse_serialises in Et as (bs & Ebs & Hbs).
    apply IH in Ets as (Hn & bodies & Hb & Hl).
    split; [cbn; now rewrite Hn|].
    exists (bs :: bodies).
    cbn [tracks_requested fold_right List.concat].
    fold (tracks_requested tracks'). rewrite length_app.
    split; [constructor; assumption | lia].
Qed.

(** Serialising a file right after parsing it never fails, also when the
    input was cut short or padded: [to_file] returns at most as many bytes
    as the parser asked for.  The file holds as many tracks as its header
    declares, its header length is at least 6 and its division has bit 15
    clear. *)
Theorem parsed_file_serialises (f f' : stream) (mf : MidiFile.t) :
  MidiFile.__init__ f = Ok (mf, f') ->
  (exists bs,
     MidiFile.to_file mf = Ok bs /\
     Z.of_nat (List.length bs) <= file_requested mf) /\
  List.length (MidiFile.tracks mf) = Z.to_nat (MidiFile._num_tracks mf) /\
  6 <= MidiFile._length mf < 2 ^ 32 /\
  0 <= MidiFile._num_tracks mf < 2 ^ 16 /\
  0 <= MidiFile._division mf < 2 ^ 15 /\
  MidiFile.division_type mf = 0 /\
  Z.of_nat (List.length (MidiFile._trailing mf)) <= MidiFile._length mf - 6.
Proof.
  unfold MidiFile.__init__. intros H.
  destruct (read f 4) as [header f1] eqn:E1.
  destruct (bytes_eqb header MidiFile.MThd) eqn:Eh; [|discriminate].
  apply bytes_eqb_eq in Eh. subst header. cbn [negb] in H.
  destruct (read f1 4) as [prefix f2] eqn:E2.
  destruct (6 <=? int_from_bytes prefix) eqn:E6; [|discriminate].
  apply Z.leb_le in E6. cbn [negb] in H.
  destruct (read f2 2) as [fmt f3] eqn:E3.
  destruct (read f3 2) as [num f4] eqn:E4.
  destruct (read f4 2) as [dv f5] eqn:E5.
  destruct (Z.land (Z.shiftr (int_from_bytes dv) 15) 1 =? 1) eqn:Ed;
    [discriminate|].
  destruct (if 6 <? int_from_bytes prefix
            then read f5 (int_from_bytes prefix - 6)
            else (bytes 0, f5)) as [tr f6] eqn:E7.
  destruct (MidiFile.__init__tracks _ f6) as [[tracks f7]| |] eqn:Et;
    cbn [bind] in H; try discriminate.
  injection H as <- <-.
  unfold file_requested.
  cbn [MidiFile._length MidiFile.tracks MidiFile.format MidiFile._num_tracks
       MidiFile._division MidiFile._trailing MidiFile.division_type].
  apply read_inv in E2 as [_ Hp]; [|lia].
  apply read_inv in E3 as [_ Hfmt]; [|lia].
  apply read_inv in E4 as [_ Hnum]; [|lia].
  apply read_inv in E5 as [_ Hdv]; [|lia].
  assert (Htr : Z.of_nat (List.length tr) <= int_from_bytes prefix - 6).
  { destruct (6 <? int_from_bytes prefix) eqn:El.
    - apply Z.ltb_lt in El. apply read_inv in E7; [apply E7 | lia].
    - injection E7 as <- <-. cbn. lia. }
  apply tracks_parse_serialise in Et as (Hn & bodies & Hb & Hl).
  assert (Hrange : forall (bs : list byte) (k : nat),
            Z.of_nat (List.length bs) <= Z.of_nat k ->
            0 <= int_from_bytes bs < 256 ^ Z.of_nat k).
  { intros bs k Hk. pose proof (int_from_bytes_range bs) as Hr.
    split; [lia|]. eapply Z.lt_le_trans; [apply Hr|].
    apply Z.pow_le_mono_r; lia. }
  pose proof (Hrange prefix 4%nat ltac:(lia)) as Rp.
  pose proof (Hrange fmt 2%nat ltac:(lia)) as Rf.
  pose proof (Hrange num 2%nat ltac:(lia)) as Rn.
  pose proof (Hrange dv 2%nat ltac:(lia)) as Rd.
  assert (Hdiv : int_from_bytes dv < 2 ^ 15).
  { apply Z.eqb_neq in Ed.
    destruct (Z_lt_le_dec (int_from_bytes dv) (2 ^ 15)) as [Hlt|Hge];
      [exact Hlt|]. exfalso. apply Ed.
    rewrite Z.shiftr_div_pow2 by lia.
    replace (int_from_bytes dv / 2 ^ 15) with 1; [reflexivity|].
    apply Z.div_unique with (int_from_bytes dv - 2 ^ 15).
    - change (256 ^ Z.of_nat 2) with 65536 in Rd. change (2 ^ 15) with 32768 in *.
      lia.
    - lia. }
  split.
  - unfold MidiFile.to_file.
    cbn [MidiFile._length MidiFile.tracks MidiFile.format MidiFile._num_tracks
         MidiFile._division MidiFile._trailing].
    assert (Hto : forall x (k : nat), 0 <= x < 256 ^ Z.of_nat k ->
              to_bytes x k = Ok (big_endian k x)).
    { intros x k Hx. unfold to_bytes.
      replace (0 <=? x) with true by (symmetry; apply Z.leb_le; lia).
      replace (x <? 256 ^ Z.of_nat k) with true
        by (symmetry; apply Z.ltb_lt; lia).
      reflexivity. }
    rewrite !Hto by assumption. cbn [bind].
    rewrite (file_to_file_loop _ _ _ Hb).
    eexists. split; [reflexivity|].
    rewrite !length_app, !big_endian_length.
    cbn [List.length MidiFile.MThd]. lia.
  - split; [exact Hn|]. split; [change (2 ^ 32) with (256 ^ Z.of_nat 4); lia|].
    split; [change (2 ^ 16) with (256 ^ Z.of_nat 2); lia|].
    split; [lia|]. split; [|exact Htr].
    apply Z.eqb_neq in Ed.
    rewrite Z.shiftr_div_pow2 by lia.
    rewrite Z.div_small by lia. reflexivity.
Qed.

Lemma parsed_file_serialises_witness :
  exists bs,
    MidiFile.to_file
      (MidiFile.mk 6 1 1 96 0 96 []
         [MidiTrack.mk [MidiEvent.mk 5 0 (Some 60) (Some 64) (Some 0) [] 144]]) =
      Ok bs /\
    Z.of_nat (List.length bs) <=
      file_requested
        (MidiFile.mk 6 1 1 96 0 96 []
           [MidiTrack.mk [MidiEvent.mk 5 0 (Some 60) (Some 64) (Some 0) [] 144]]).
Proof.
  apply (proj1 (parsed_file_serialises padded_file [] _ eq_refl)).
Defined.

(** ** What the track loop does with the declared length *)

Lemma event_raises_only (f : stream) (e : exn) :
  MidiEvent.__init__ f = Raise e -> e = MIDIError invalid_event_msg.
Proof.
  unfold MidiEvent.__init__.
  repeat match goal with
         | |- (let '(_, _) := ?r in _) = _ -> _ => destruct r
         | |- (if ?c then _ else _) = _ -> _ => destruct c
         end; intros H; try discriminate.
  now injection H as <-.
Qed.

Lemma partitions_nonneg (length : Z) (f f' : stream)
    (events : list MidiEvent.t) :
  partitions length f events f' -> 0 <= length.
Proof.
  induction 1 as [f|length f f' f'' event events E Hle _ IH]; [lia|].
  apply event_shrinks in E. lia.
Qed.

Lemma track_loop_partitions_inv (fuel : nat) :
  forall length f acc events f',
  MidiTrack.__init__loop fuel length f acc = Ok (events, f') ->
  exists new, events = acc ++ new /\ partitions length f new f'.
Proof.
  induction fuel as [|fuel IH]; intros length f acc events f' H.
  - cbn in H. destruct (length =? 0) eqn:E; [|discriminate].
    apply Z.eqb_eq in E. subst length. injection H as <- <-. exists [].
    rewrite app_nil_r. split; [reflexivity | constructor].
  - destruct (Z.eq_dec length 0) as [->|Hne].
    + rewrite track_loop_zero in H. injection H as <- <-. exists [].
      rewrite app_nil_r. split; [reflexivity | constructor].
    + rewrite track_loop_step in H by exact Hne.
      destruct (MidiEvent.__init__ f) as [[event f1]| |] eqn:Ev;
        cbn [bind] in H; try discriminate.
      apply IH in H as (new & -> & Hpart).
      exists (event :: new). rewrite <- app_assoc. split; [reflexivity|].
      pose proof (partitions_nonneg _ _ _ _ Hpart).
      apply (partitions_event length f f1 f' event new Ev); [lia | exact Hpart].
Qed.

(** Every track the parser returns was an exact partition: after "MTrk"
    and the declared length, the events it holds were parsed one after
    another, none beyond what was left of the declared length, and their
    counters sum to it. *)
Theorem parsed_track_partitions (f f' : stream) (track : MidiTrack.t) :
  MidiTrack.__init__ f = Ok (track, f') ->
  exists prefix rest,
    f = MidiTrack.MTrk ++ prefix ++ rest /\
    (List.length prefix <= 4)%nat /\
    partitions (int_from_bytes prefix) rest (MidiTrack.events track) f' /\
    int_from_bytes prefix = events_requested (MidiTrack.events track).
Proof.
  unfold MidiTrack.__init__. intros H.
  destruct (read f 4) as [header f1] eqn:E1.
  destruct (bytes_eqb header MidiTrack.MTrk) eqn:Eh; [|discriminate].
  apply bytes_eqb_eq in Eh. subst header. cbn [negb] in H.
  destruct (read f1 4) as [prefix f2] eqn:E2.
  destruct (MidiTrack.__init__loop _ _ f2 []) as [[events f3]| |] eqn:El;
    cbn [bind] in H; try discriminate.
  injection H as <- <-.
  apply read_inv in E1 as [Ef _]; [|lia].
  apply read_inv in E2 as [Ef1 Hp]; [|lia].
  apply track_loop_partitions_inv in El as (new & Enew & Hpart).
  cbn [app] in Enew. subst events. cbn [MidiTrack.events].
  exists prefix, f2. split; [now rewrite Ef, Ef1|]. split; [lia|].
  split; [exact Hpart | exact (partitions_requested _ _ _ _ Hpart)].
Qed.

Lemma parsed_track_partitions_witness :
  exists prefix rest,
    MidiTrack.MTrk ++ [x00; x00; x00; x03] ++ [x00; xc0; x05; xff] =
      MidiTrack.MTrk ++ prefix ++ rest /\
    (List.length prefix <= 4)%nat /\
    partitions (int_from_bytes prefix) rest
      (MidiTrack.events
         (MidiTrack.mk [MidiEvent.mk 3 0 None None None [x05] 192])) [xff] /\
    int_from_bytes prefix =
      events_requested
        (MidiTrack.events
           (MidiTrack.mk [MidiEvent.mk 3 0 None None None [x05] 192])).
Proof.
  apply (parsed_track_partitions
           (MidiTrack.MTrk ++ [x00; x00; x00; x03] ++ [x00; xc0; x05; xff])).
  reflexivity.
Defined.

Lemma track_loop_negative (fuel : nat) :
  forall length f acc,
  length < 0 -> (List.length f < fuel)%nat ->
  MidiTrack.__init__loop fuel length f acc =
  Raise (MIDIError invalid_event_msg).
Proof.
  induction fuel as [|fuel IH]; intros length f acc Hneg Hfuel; [lia|].
  rewrite track_loop_step by lia.
  destruct (MidiEvent.__init__ f) as [[event f1]| |] eqn:E; cbn [bind].
  - apply event_shrinks in E as (Hlt & _ & H2). apply IH; lia.
  - now rewrite (event_raises_only _ _ E).
  - now apply event_no_diverge in E.
Qed.

Lemma track_loop_partial (k : Z) (f f1 : stream) (events : list MidiEvent.t) :
  partitions k f events f1 ->
  forall r fuel acc,
  0 < r -> (List.length f < fuel)%nat ->
  exists fuel',
    (List.length f1 < fuel')%nat /\
    MidiTrack.__init__loop fuel (k + r) f acc =
    MidiTrack.__init__loop fuel' r f1 (acc ++ events).
Proof.
  induction 1 as [f|k f f' f'' event events E Hle Hpart IH];
    intros r fuel acc Hr Hfuel.
  - exists fuel. rewrite app_nil_r. split; [exact Hfuel | reflexivity].
  - destruct fuel as [|fuel]; [lia|].
    pose proof (event_shrinks _ _ _ E) as (Hlt & _ & H2).
    rewrite track_loop_step by lia. rewrite E. cbn [bind].
    destruct (IH r fuel (acc ++ [event]) Hr ltac:(lia)) as (fuel' & Hf' & Eq).
    exists fuel'. split; [exact Hf'|].
    replace (k + r - MidiEvent._length event)
      with (k - MidiEvent._length event + r) by lia.
    now rewrite Eq, <- app_assoc.
Qed.

(** A track whose next event needs more bytes than are left of the
    declared length is never returned: the countdown goes below zero,
    the loop reads on to the end of the file, and the parse ends in the
    [MIDIError] about an invalid event type. *)
Theorem track_overshoot_rejected (prefix : list byte) (f f1 f2 : stream)
    (events : list MidiEvent.t) (event : MidiEvent.t) (r : Z) :
  List.length prefix = 4%nat ->
  partitions (int_from_bytes prefix - r) f events f1 ->
  MidiEvent.__init__ f1 = Ok (event, f2) ->
  0 < r < MidiEvent._length event ->
  MidiTrack.__init__ (MidiTrack.MTrk ++ prefix ++ f) =
  Raise (MIDIError invalid_event_msg).
Proof.
  intros Hp Hpart Hev Hr.
  rewrite track_header by exact Hp.
  destruct (track_loop_partial _ _ _ _ Hpart r (S (List.length f)) []
              ltac:(lia) ltac:(lia)) as (fuel' & Hf' & Eq).
  replace (int_from_bytes prefix - r + r) with (int_from_bytes prefix) in Eq
    by lia.
  rewrite Eq. destruct fuel' as [|fuel']; [lia|].
  rewrite track_loop_step by lia. rewrite Hev. cbn [bind].
  pose proof (event_shrinks _ _ _ Hev) as (Hlt & _ & _).
  rewrite track_loop_negative by lia. reflexivity.
Qed.

Lemma track_overshoot_rejected_witness :
  MidiTrack.__init__
    (MidiTrack.MTrk ++ [x00; x00; x00; x05] ++
     [x00; xc0; x05; x00; x90; x3c; x40; x00; xc0; x05]) =
  Raise (MIDIError invalid_event_msg).
Proof.
  apply (track_overshoot_rejected [x00; x00; x00; x05]
           [x00; xc0; x05; x00; x90; x3c; x40; x00; xc0; x05]
           [x00; x90; x3c; x40; x00; xc0; x05] [x00; xc0; x05]
           [MidiEvent.mk 3 0 None None None [x05] 192]
           (MidiEvent.mk 4 0 (Some 60) (Some 64) (Some 0) [] 144) 2).
  - reflexivity.
  - apply (partitions_event 3 _ [x00; x90; x3c; x40; x00; xc0; x05] _
             (MidiEvent.mk 3 0 None None None [x05] 192));
      [reflexivity | cbn; lia | apply partitions_done].
  - reflexivity.
  - cbn. lia.
Defined.

(** ** How parsing can end *)

Lemma track_loop_raises_only (fuel : nat) :
  forall length f acc e,
  MidiTrack.__init__loop fuel length f acc = Raise e ->
  e = MIDIError invalid_event_msg.
Proof.
  induction fuel as [|fuel IH]; intros length f acc e H.
  - cbn in H. destruct (length =? 0); discriminate.
  - destruct (Z.eq_dec length 0) as [->|Hne].
    + rewrite track_loop_zero in H. discriminate.
    + rewrite track_loop_step in H by exact Hne.
      destruct (MidiEvent.__init__ f) as [[event f1]| |] eqn:E;
        cbn [bind] in H.
      * now apply IH in H.
      * injection H as <-. now apply event_raises_only in E.
      * discriminate.
Qed.

Lemma track_outcomes (f : stream) :
  MidiTrack.__init__ f <> Diverge /\
  forall e, MidiTrack.__init__ f = Raise e ->
            e = AssertionError \/ e = MIDIError invalid_event_msg.
Proof.
  unfold MidiTrack.__init__.
  destruct (read f 4) as [header f1].
  destruct (bytes_eqb header MidiTrack.MTrk); cbn [negb].
  - destruct (read f1 4) as [prefix f2].
    destruct (MidiTrack.__init__loop _ _ f2 []) as [[events f3]| |] eqn:El;
      cbn [bind].
    + split; [discriminate | intros e H; discriminate].
    + apply track_loop_raises_only in El. subst e.
      split; [discriminate|]. intros e0 H. injection H as <-. now right.
    + exfalso. revert El. apply MidiTrack_loop_total. lia.
  - split; [discriminate|]. intros e H. injection H as <-. now left.
Qed.

Lemma tracks_outcomes (n : nat) :
  forall f,
  MidiFile.__init__tracks n f <> Diverge /\
  forall e, MidiFile.__init__tracks n f = Raise e ->
            e = AssertionError \/ e = MIDIError invalid_event_msg.
Proof.
  induction n as [|n IH]; intros f; cbn [MidiFile.__init__tracks].
  - split; [discriminate | intros e H; discriminate].
  - destruct (track_outcomes f) as [Hd Hr].
    destruct (MidiTrack.__init__ f) as [[track f1]| |]; cbn [bind].
    + destruct (IH f1) as [Hd' Hr'].
      destruct (MidiFile.__init__tracks n f1) as [[tracks f2]| |]; cbn [bind].
      * split; [discriminate | intros e H; discriminate].
      * split; [discriminate|]. intros e0 H. injection H as <-.
        now apply Hr'.
      * congruence.
    + split; [discriminate|]. intros e0 H. injection H as <-. now apply Hr.
    + congruence.
Qed.

(** On every input, well formed or not, [MidiFile.__init__] comes to an
    end, and when it raises it is a failed assertion (chunk identifier,
    header length) or one of the two [MIDIError]s: no read past the end of
    the file and no arithmetic on what was read raises anything else. *)
Theorem parse_outcomes (f : stream) :
  MidiFile.__init__ f <> Diverge /\
  forall e,
    MidiFile.__init__ f = Raise e ->
    e = AssertionError \/ e = MIDIError seconds_msg \/
    e = MIDIError invalid_event_msg.
Proof.
  unfold MidiFile.__init__.
  destruct (read f 4) as [header f1].
  destruct (bytes_eqb header MidiFile.MThd); cbn [negb];
    [|split; [discriminate | intros e H; injection H as <-; now left]].
  destruct (read f1 4) as [prefix f2].
  destruct (6 <=? int_from_bytes prefix); cbn [negb];
    [|split; [discriminate | intros e H; injection H as <-; now left]].
  destruct (read f2 2) as [fmt f3]. destruct (read f3 2) as [num f4].
  destruct (read f4 2) as [dv f5].
  destruct (Z.land (Z.shiftr (int_from_bytes dv) 15) 1 =? 1);
    [split; [discriminate | intros e H; injection H as <-; right; now left]|].
  destruct (if 6 <? int_from_bytes prefix
            then read f5 (int_from_bytes prefix - 6)
            else (bytes 0, f5)) as [tr f6].
  destruct (tracks_outcomes (Z.to_nat (int_from_bytes num)) f6) as [Hd Hr].
  destruct (MidiFile.__init__tracks _ f6) as [[tracks f7]| |]; cbn [bind].
  - split; [discriminate | intros e H; discriminate].
  - split; [discriminate|]. intros e0 H. injection H as <-.
    destruct (Hr e eq_refl) as [->| ->]; [now left | right; now right].
  - congruence.
Qed.

(** ** The layout [MidiFile.to_file] writes *)

(** [to_file] writes "MThd", the stored header length, format, track count
    and division as 4, 2, 2 and 2 big-endian bytes, the stored trailing
    header bytes, and then the tracks' own serialisations in order.  The
    track count written is the stored [_num_tracks], whatever the number of
    tracks in the list. *)
Theorem file_to_file_layout (mf : MidiFile.t) (bodies : list (list byte)) :
  Forall2 (fun track body => MidiTrack.to_file track = Ok body)
    (MidiFile.tracks mf) bodies ->
  0 <= MidiFile._length mf < 2 ^ 32 ->
  0 <= MidiFile.format mf < 2 ^ 16 ->
  0 <= MidiFile._num_tracks mf < 2 ^ 16 ->
  0 <= MidiFile._division mf < 2 ^ 16 ->
  exists l fm n d,
    MidiFile.to_file mf =
      Ok (MidiFile.MThd ++ l ++ fm ++ n ++ d ++ MidiFile._trailing mf ++
          List.concat bodies) /\
    List.length l = 4%nat /\ int_from_bytes l = MidiFile._length mf /\
    List.length fm = 2%nat /\ int_from_bytes fm = MidiFile.format mf /\
    List.length n = 2%nat /\ int_from_bytes n = MidiFile._num_tracks mf /\
    List.length d = 2%nat /\ int_from_bytes d = MidiFile._division mf.
Proof.
  intros Hb Hl Hf Hn Hd.
  assert (Hto : forall x (k : nat), 0 <= x < 256 ^ Z.of_nat k ->
            to_bytes x k = Ok (big_endian k x) /\
            List.length (big_endian k x) = k /\
            int_from_bytes (big_endian k x) = x).
  { intros x k Hx.
    assert (E : to_bytes x k = Ok (big_endian k x)).
    { unfold to_bytes.
      replace (0 <=? x) with true by (symmetry; apply Z.leb_le; lia).
      replace (x <? 256 ^ Z.of_nat k) with true
        by (symmetry; apply Z.ltb_lt; lia).
      reflexivity. }
    split; [exact E|]. apply to_bytes_Ok in E. tauto. }
  destruct (Hto (MidiFile._length mf) 4%nat Hl) as (E1 & L1 & I1).
  destruct (Hto (MidiFile.format mf) 2%nat Hf) as (E2 & L2 & I2).
  destruct (Hto (MidiFile._num_tracks mf) 2%nat Hn) as (E3 & L3 & I3).
  destruct (Hto (MidiFile._division mf) 2%nat Hd) as (E4 & L4 & I4).
  exists (big_endian 4 (MidiFile._length mf)),
         (big_endian 2 (MidiFile.format mf)),
         (big_endian 2 (MidiFile._num_tracks mf)),
         (big_endian 2 (MidiFile._division mf)).
  split; [|tauto].
  unfold MidiFile.to_file. rewrite E1, E2, E3, E4. cbn [bind].
  rewrite (file_to_file_loop _ _ _ Hb). now rewrite <- !app_assoc.
Qed.

Lemma file_to_file_layout_witness :
  exists l fm n d,
    MidiFile.to_file (MidiFile.mk 6 1 7 96 0 96 [] []) =
      Ok (MidiFile.MThd ++ l ++ fm ++ n ++ d ++ [] ++ List.concat []) /\
    List.length l = 4%nat /\ int_from_bytes l = 6 /\
    List.length fm = 2%nat /\ int_from_bytes fm = 1 /\
    List.length n = 2%nat /\ int_from_bytes n = 7 /\
    List.length d = 2%nat /\ int_from_bytes d = 96.
Proof.
  apply (file_to_file_layout (MidiFile.mk 6 1 7 96 0 96 [] []) []);
    cbn; try lia. constructor.
Defined.

(** ** Delta times [to_file] cannot write *)

(** With a negative delta time the [while td] loop of [to_file] never
    leaves, whatever the rest of the event: shifting right keeps [td]
    negative. *)
Theorem negative_timedelta_diverges (event : MidiEvent.t) :
  MidiEvent.timedelta event < 0 ->
  MidiEvent.to_file event = Diverge /\
  forall fuel result first,
    MidiEvent.to_file_loop fuel (MidiEvent.timedelta event) result first =
    Diverge.
Proof.
  intros Htd. split.
  - unfold MidiEvent.to_file. now rewrite to_file_loop_negative.
  - intros fuel result first. now apply to_file_loop_negative.
Qed.

Lemma negative_timedelta_diverges_witness :
  MidiEvent.to_file (MidiEvent.mk 4 (-96) (Some 60) (Some 64) (Some 0) [] 144)
  = Diverge.
Proof.
  apply (proj1 (negative_timedelta_diverges
                  (MidiEvent.mk 4 (-96) (Some 60) (Some 64) (Some 0) [] 144)
                  ltac:(cbn; lia))).
Defined.

(** ** How many bytes a delta time takes *)

Lemma groups_value_upper (bs : list byte) :
  groups_value bs < 128 ^ Z.of_nat (List.length bs).
Proof.
  induction bs as [|b bs IH] using rev_ind.
  - cbn. lia.
  - rewrite groups_value_snoc, length_app. cbn [List.length].
    replace (Z.of_nat (List.length bs + 1)) with (Z.succ (Z.of_nat (List.length bs)))
      by lia.
    rewrite Z.pow_succ_r by lia. pose proof (group_range b). lia.
Qed.

Lemma groups_value_lower (bs : list byte) :
  bs <> [] -> group (hd x00 bs) <> 0 ->
  128 ^ (Z.of_nat (List.length bs) - 1) <= groups_value bs.
Proof.
  induction bs as [|b bs IH] using rev_ind; intros Hne Hlead; [congruence|].
  rewrite groups_value_snoc, length_app. cbn [List.length].
  pose proof (group_range b) as Hg.
  destruct bs as [|c bs'].
  - cbn in *. lia.
  - cbn [app hd] in Hlead.
    specialize (IH ltac:(discriminate) Hlead). cbn [List.length] in *.
    replace (Z.of_nat (S (List.length bs') + 1) - 1)
      with (Z.succ (Z.of_nat (S (List.length bs')) - 1)) by lia.
    rewrite Z.pow_succ_r by lia. lia.
Qed.

(** The delta time [v] is written in at most [k] bytes exactly when it is
    below [128 ^ k]: one byte below 128, two below 16384, and so on. *)
Theorem timedelta_encoded_length (v : Z) :
  0 <= v ->
  exists bs,
    to_file_timedelta v = Ok bs /\
    forall k : nat,
      (1 <= k)%nat ->
      ((List.length bs <= k)%nat <-> v < 128 ^ Z.of_nat k).
Proof.
  intros Hv.
  destruct (to_file_timedelta_shape v Hv) as (bs & E & Hs & Hval & Hm).
  exists bs. split; [exact E|]. intros k Hk. split.
  - intros Hle. rewrite <- Hval.
    eapply Z.lt_le_trans; [apply groups_value_upper|].
    apply Z.pow_le_mono_r; lia.
  - intros Hlt.
    destruct (Nat.le_gt_cases (List.length bs) k) as [Hle|Hgt]; [exact Hle|].
    exfalso.
    assert (Hlead : group (hd x00 bs) <> 0).
    { destruct bs as [|b [|c bs']]; cbn [List.length] in Hgt; try lia.
      cbn [vlq_minimal hd] in *. now apply negb_true_iff, Z.eqb_neq in Hm. }
    pose proof (groups_value_lower bs ltac:(destruct bs; [cbn in Hgt; lia | discriminate]) Hlead)
      as Hlow.
    assert (128 ^ Z.of_nat k <= 128 ^ (Z.of_nat (List.length bs) - 1))
      by (apply Z.pow_le_mono_r; lia).
    lia.
Qed.

Lemma timedelta_encoded_length_witness :
  exists bs,
    to_file_timedelta 16383 = Ok bs /\
    forall k : nat,
      (1 <= k)%nat ->
      ((List.length bs <= k)%nat <-> 16383 < 128 ^ Z.of_nat k).
Proof. apply (timedelta_encoded_length 16383). lia. Defined.

(** ** What [to_file] needs of an event *)

Lemma to_file_timedelta_nonneg (td : Z) (bs : list byte) :
  to_file_timedelta td = Ok bs -> 0 <= td.
Proof.
  intros H. destruct (Z_lt_le_dec td 0) as [Hneg|Hpos]; [|exact Hpos].
  unfold to_file_timedelta in H. rewrite to_file_loop_negative in H by exact Hneg.
  discriminate.
Qed.

Lemma to_bytes_one_inv (x : Z) (bs : list byte) :
  to_bytes x 1 = Ok bs -> 0 <= x < 256 /\ bs = [byte_of_Z x].
Proof.
  intros H. pose proof (to_bytes_Ok _ _ _ H) as (Hr & _ & _).
  change (256 ^ Z.of_nat 1) with 256 in Hr. split; [exact Hr|].
  rewrite to_bytes_one in H by exact Hr. now injection H as <-.
Qed.

(** [to_file] returns exactly when the delta time is non-negative, the
    status is a byte, and a note, if there is one, comes with a velocity,
    both of them bytes. *)
Lemma to_file_Ok_iff (event : MidiEvent.t) (bs : list byte) :
  MidiEvent.to_file event = Ok bs <->
  exists d,
    to_file_timedelta (MidiEvent.timedelta event) = Ok d /\
    0 <= MidiEvent._event_info event < 256 /\
    match MidiEvent.note event with
    | Some n =>
        exists v,
          MidiEvent.velocity event = Some v /\
          0 <= n < 256 /\ 0 <= v < 256 /\
          bs = d ++ [byte_of_Z (MidiEvent._event_info event); byte_of_Z n;
                     byte_of_Z v] ++ MidiEvent._trailing_ignore event
    | None =>
        bs = d ++ [byte_of_Z (MidiEvent._event_info event)] ++
             MidiEvent._trailing_ignore event
    end.
Proof.
  rewrite to_file_unfold. split.
  - intros H.
    destruct (to_file_timedelta (MidiEvent.timedelta event)) as [d| |];
      cbn [bind] in H; try discriminate.
    exists d. split; [reflexivity|].
    destruct (to_bytes (MidiEvent._event_info event) 1) as [ib| |] eqn:Ei;
      cbn [bind] in H; try discriminate.
    apply to_bytes_one_inv in Ei as [Hi ->]. split; [exact Hi|].
    destruct (MidiEvent.note event) as [n|].
    + destruct (to_bytes n 1) as [nb| |] eqn:En; cbn [bind] in H;
        try discriminate.
      apply to_bytes_one_inv in En as [Hn ->].
      destruct (MidiEvent.velocity event) as [v|]; [|discriminate].
      destruct (to_bytes v 1) as [vb| |] eqn:Ev; cbn [bind] in H;
        try discriminate.
      apply to_bytes_one_inv in Ev as [Hv ->].
      exists v. injection H as <-. repeat split; try lia.
      now rewrite <- !app_assoc.
    + cbn [bind] in H. injection H as <-. now rewrite <- !app_assoc.
  - intros (d & Ed & Hi & Hn). rewrite Ed. cbn [bind].
    rewrite to_bytes_one by exact Hi. cbn [bind].
    destruct (MidiEvent.note event) as [n|].
    + destruct Hn as (v & -> & Hn & Hv & ->).
      rewrite !to_bytes_one by assumption. cbn [bind].
      now rewrite <- !app_assoc.
    + subst bs. cbn [bind]. now rewrite <- !app_assoc.
Qed.

(** * The effects *)

(** ** Pitch *)

(** An event [to_file] can write is still one after [pitch]: the bytes
    are the same in number and differ in the note byte alone. *)
Theorem pitch_keeps_serialisable (amount : Z) (event : MidiEvent.t)
    (bs : list byte) :
  MidiEvent.to_file event = Ok bs ->
  exists bs',
    MidiEvent.to_file (pitch_event amount event) = Ok bs' /\
    List.length bs' = List.length bs /\
    match MidiEvent.note event with
    | None => bs' = bs
    | Some n =>
        exists pre post,
          bs = pre ++ byte_of_Z n :: post /\
          bs' = pre ++ byte_of_Z (Z.max 0 (Z.min 127 (n + amount))) :: post
    end.
Proof.
  intros H. apply to_file_Ok_iff in H as (d & Ed & Hi & Hn).
  unfold pitch_event. destruct (MidiEvent.note event) as [n|] eqn:En.
  - destruct Hn as (v & Ev & Hn & Hv & ->).
    exists (d ++ [byte_of_Z (MidiEvent._event_info event);
                  byte_of_Z (Z.max 0 (Z.min 127 (n + amount))); byte_of_Z v]
              ++ MidiEvent._trailing_ignore event).
    split; [|split].
    + apply to_file_Ok_iff. exists d.
      cbn [MidiEvent.timedelta MidiEvent._event_info MidiEvent.note
           MidiEvent.velocity MidiEvent._trailing_ignore].
      split; [exact Ed|]. split; [exact Hi|]. exists v.
      repeat split; try assumption; lia.
    + rewrite !length_app. reflexivity.
    + exists (d ++ [byte_of_Z (MidiEvent._event_info event)]),
             (byte_of_Z v :: MidiEvent._trailing_ignore event).
      rewrite <- !app_assoc. split; reflexivity.
  - exists bs. split; [|split; reflexivity].
    apply to_file_Ok_iff. exists d. rewrite En.
    split; [exact Ed | split; [exact Hi | exact Hn]].
Qed.

Lemma pitch_keeps_serialisable_witness :
  exists bs',
    MidiEvent.to_file
      (pitch_event 100 (MidiEvent.mk 4 0 (Some 60) (Some 64) (Some 0) [] 144)) =
      Ok bs' /\
    List.length bs' = List.length [x00; x90; x3c; x40] /\
    exists pre post,
      [x00; x90; x3c; x40] = pre ++ byte_of_Z 60 :: post /\
      bs' = pre ++ byte_of_Z (Z.max 0 (Z.min 127 (60 + 100))) :: post.
Proof.
  apply (pitch_keeps_serialisable 100
           (MidiEvent.mk 4 0 (Some 60) (Some 64) (Some 0) [] 144)
           [x00; x90; x3c; x40]).
  reflexivity.
Defined.

(** Two shifts in a row are the shift by their sum as long as the first
    one clamps no note. *)
Theorem pitch_compose (a b : Z) (tracks : list MidiTrack.t) :
  (forall track event n,
     In track tracks -> In event (MidiTrack.events track) ->
     MidiEvent.note event = Some n -> 0 <= n + a <= 127) ->
  pitch b (pitch a tracks) = pitch (a + b) tracks.
Proof.
  intros Hrange. unfold pitch. rewrite map_map. apply map_ext_in.
  intros track Ht. unfold pitch_track. cbn [MidiTrack.events].
  rewrite map_map. f_equal. apply map_ext_in. intros event He.
  unfold pitch_event. destruct (MidiEvent.note event) as [n|] eqn:En.
  - cbn [MidiEvent.note MidiEvent._length MidiEvent.timedelta
         MidiEvent.velocity MidiEvent.channel MidiEvent._trailing_ignore
         MidiEvent._event_info].
    specialize (Hrange track event n Ht He En).
    f_equal. f_equal. lia.
  - now rewrite En.
Qed.

Lemma pitch_compose_witness :
  pitch (-12)
    (pitch 12 [MidiTrack.mk [MidiEvent.mk 4 0 (Some 60) (Some 64) (Some 0) [] 144]])
  = pitch (12 + -12)
      [MidiTrack.mk [MidiEvent.mk 4 0 (Some 60) (Some 64) (Some 0) [] 144]].
Proof.
  apply (pitch_compose 12 (-12)).
  intros track event n [<-|[]] [<-|[]] Hn. injection Hn as <-. lia.
Defined.

(** ** Velocity *)

(** An answer outside 1..127 is refused and changes nothing.  An answer
    within sets the velocity of every event whose velocity is neither
    absent nor 0 and touches nothing else: an event with velocity 0, the
    usual spelling of a note-off, stays silent. *)
Theorem velocity_effect (amount : Z) (tracks : list MidiTrack.t) :
  (velocity amount tracks = None <-> amount < 1 \/ 127 < amount) /\
  forall tracks',
    velocity amount tracks = Some tracks' ->
    1 <= amount <= 127 /\
    Forall2
      (fun track track' =>
         Forall2
           (fun event event' =>
              match MidiEvent.velocity event with
              | None => event' = event
              | Some 0 => event' = event
              | Some _ =>
                  MidiEvent.velocity event' = Some amount /\
                  MidiEvent._length event' = MidiEvent._length event /\
                  MidiEvent.timedelta event' = MidiEvent.timedelta event /\
                  MidiEvent.note event' = MidiEvent.note event /\
                  MidiEvent.channel event' = MidiEvent.channel event /\
                  MidiEvent._trailing_ignore event' =
                    MidiEvent._trailing_ignore event /\
                  MidiEvent._event_info event' = MidiEvent._event_info event
              end)
           (MidiTrack.events track) (MidiTrack.events track'))
      tracks tracks'.
Proof.
  unfold velocity. split.
  - destruct (amount <? 1) eqn:E1; destruct (127 <? amount) eqn:E2; cbn [orb];
      try apply Z.ltb_lt in E1; try apply Z.ltb_lt in E2;
      try apply Z.ltb_ge in E1; try apply Z.ltb_ge in E2;
      split; intros H; try discriminate; try reflexivity; lia.
  - intros tracks' H.
    destruct (amount <? 1) eqn:E1; [discriminate|].
    destruct (127 <? amount) eqn:E2; [discriminate|].
    apply Z.ltb_ge in E1. apply Z.ltb_ge in E2. cbn [orb] in H.
    injection H as <-. split; [lia|].
    induction tracks as [|track tracks IH]; cbn [map]; constructor;
      [|exact IH].
    unfold velocity_track. cbn [MidiTrack.events].
    induction (MidiTrack.events track) as [|event events IHe]; cbn [map];
      constructor; [|exact IHe].
    unfold velocity_event.
    destruct (MidiEvent.velocity event) as [v|]; [|reflexivity].
    destruct v as [|p|p]; cbn [Z.eqb]; [reflexivity | |];
      cbn; repeat split.
Qed.

Lemma velocity_effect_witness :
  1 <= 100 <= 127 /\
  Forall2
    (fun track track' =>
       Forall2
         (fun event event' =>
            match MidiEvent.velocity event with
            | None => event' = event
            | Some 0 => event' = event
            | Some _ =>
                MidiEvent.velocity event' = Some 100 /\
                MidiEvent._length event' = MidiEvent._length event /\
                MidiEvent.timedelta event' = MidiEvent.timedelta event /\
                MidiEvent.note event' = MidiEvent.note event /\
                MidiEvent.channel event' = MidiEvent.channel event /\
                MidiEvent._trailing_ignore event' =
                  MidiEvent._trailing_ignore event /\
                MidiEvent._event_info event' = MidiEvent._event_info event
            end)
         (MidiTrack.events track) (MidiTrack.events track'))
    [MidiTrack.mk
       [MidiEvent.mk 4 0 (Some 60) (Some 64) (Some 0) [] 144;
        MidiEvent.mk 4 96 (Some 60) (Some 0) (Some 0) [] 144]]
    [MidiTrack.mk
       [MidiEvent.mk 4 0 (Some 60) (Some 100) (Some 0) [] 144;
        MidiEvent.mk 4 96 (Some 60) (Some 0) (Some 0) [] 144]].
Proof.
  apply (proj2 (velocity_effect 100
                  [MidiTrack.mk
                     [MidiEvent.mk 4 0 (Some 60) (Some 64) (Some 0) [] 144;
                      MidiEvent.mk 4 96 (Some 60) (Some 0) (Some 0) [] 144]])).
  reflexivity.
Defined.

(** Of two accepted answers the second one wins: the velocities the first
    set are not 0, so the second sets them again. *)
Theorem velocity_last_wins (a b : Z) (tracks t1 t2 : list MidiTrack.t) :
  velocity a tracks = Some t1 -> velocity b t1 = Some t2 ->
  velocity b tracks = Some t2.
Proof.
  unfold velocity. intros H1 H2.
  destruct ((a <? 1) || (127 <? a)) eqn:Ea; [discriminate|].
  destruct ((b <? 1) || (127 <? b)) eqn:Eb; [discriminate|].
  injection H1 as <-. injection H2 as <-. f_equal.
  apply orb_false_iff in Ea as [Ea _]. apply Z.ltb_ge in Ea.
  rewrite map_map. apply map_ext. intros track.
  unfold velocity_track. cbn [MidiTrack.events]. rewrite map_map. f_equal.
  apply map_ext. intros event. unfold velocity_event.
  destruct (MidiEvent.velocity event) as [v|] eqn:Ev.
  - destruct (v =? 0) eqn:Ez.
    + now rewrite Ev, Ez.
    + cbn [MidiEvent.velocity MidiEvent._length MidiEvent.timedelta
           MidiEvent.note MidiEvent.channel MidiEvent._trailing_ignore
           MidiEvent._event_info].
      replace (a =? 0) with false by (symmetry; apply Z.eqb_neq; lia).
      reflexivity.
  - now rewrite Ev.
Qed.

Lemma velocity_last_wins_witness :
  velocity 100
    [MidiTrack.mk [MidiEvent.mk 4 0 (Some 60) (Some 64) (Some 0) [] 144]] =
  Some [MidiTrack.mk [MidiEvent.mk 4 0 (Some 60) (Some 100) (Some 0) [] 144]].
Proof.
  apply (velocity_last_wins 1 100
           [MidiTrack.mk [MidiEvent.mk 4 0 (Some 60) (Some 64) (Some 0) [] 144]]
           [MidiTrack.mk [MidiEvent.mk 4 0 (Some 60) (Some 1) (Some 0) [] 144]]);
    reflexivity.
Defined.

(** ** Chorus *)

Lemma list_insert_app {A : Type} (pre post : list A) (x : A) :
  list_insert (List.length pre) x (pre ++ post) = pre ++ x :: post.
Proof.
  unfold list_insert.
  rewrite firstn_app, skipn_app, Nat.sub_diag, firstn_all, skipn_all.
  cbn [firstn skipn app]. now rewrite app_nil_r.
Qed.

Lemma nth_error_middle {A : Type} (pre post : list A) (x : A) :
  nth_error (pre ++ x :: post) (List.length pre) = Some x.
Proof.
  rewrite nth_error_app2 by lia. now rewrite Nat.sub_diag.
Qed.

Lemma chorus_pitches_spec (processed : list Z) (event : MidiEvent.t) (n : Z) :
  forall pre acc post,
  chorus_pitches processed event n (List.length pre)
    (pre ++ event :: acc ++ post) =
  pre ++ event :: rev (map (chorus_copy event n) processed) ++ acc ++ post.
Proof.
  induction processed as [|pitch processed IH]; intros pre acc post.
  - reflexivity.
  - cbn [chorus_pitches map rev].
    replace (List.length pre + 1)%nat with (List.length (pre ++ [event]))
      by (rewrite length_app; reflexivity).
    replace (pre ++ event :: acc ++ post)
      with ((pre ++ [event]) ++ acc ++ post) by now rewrite <- app_assoc.
    rewrite list_insert_app, <- app_assoc. cbn [app].
    pose proof (IH pre (chorus_copy event n pitch :: acc) post) as H.
    cbn [app] in H. rewrite H. now rewrite <- !app_assoc.
Qed.

Lemma chorus_spec_app (processed : list Z) (l1 l2 : list MidiEvent.t) :
  chorus_spec processed (l1 ++ l2) =
  chorus_spec processed l1 ++ chorus_spec processed l2.
Proof. unfold chorus_spec. apply flat_map_app. Qed.

Lemma chorus_loop_spec (processed : list Z) (pre : list MidiEvent.t) :
  forall post,
  chorus_loop (List.length pre) processed (pre ++ post) =
  Done (chorus_spec processed pre ++ post).
Proof.
  induction pre as [|event pre IH] using rev_ind; intros post.
  - reflexivity.
  - rewrite length_app, Nat.add_comm. cbn [List.length Nat.add chorus_loop].
    rewrite <- app_assoc. cbn [app]. rewrite nth_error_middle.
    rewrite chorus_spec_app. unfold chorus_spec at 2. cbn [flat_map].
    destruct (MidiEvent.note event) as [n|].
    + pose proof (chorus_pitches_spec processed event n pre [] post) as H.
      cbn [app] in H. rewrite H, IH. now rewrite <- !app_assoc.
    + rewrite IH. now rewrite <- !app_assoc.
Qed.

Lemma chorus_track_spec (processed : list Z) (track : MidiTrack.t) :
  chorus_track processed track =
  Done (MidiTrack.mk (chorus_spec processed (MidiTrack.events track))).
Proof.
  unfold chorus_track.
  pose proof (chorus_loop_spec processed (MidiTrack.events track) []) as H.
  rewrite !app_nil_r in H. now rewrite H.
Qed.

(** The index loop of [chorus], which inserts at [idx + 1] while walking
    down, never indexes out of range and gives each event with a note its
    copies right behind it, the copy for the last pitch first; every other
    event stays where it is in the order. *)
Theorem chorus_refines_spec (processed : list Z) (tracks : list MidiTrack.t) :
  chorus processed tracks =
  Done (map (fun track =>
               MidiTrack.mk (chorus_spec processed (MidiTrack.events track)))
          tracks).
Proof.
  induction tracks as [|track tracks IH]; cbn [chorus map]; [reflexivity|].
  unfold chorus_track.
  pose proof (chorus_loop_spec processed (MidiTrack.events track) []) as H.
  rewrite !app_nil_r in H. rewrite H, IH. reflexivity.
Qed.

Lemma timeline_app (l1 l2 : list MidiEvent.t) :
  forall t0,
  timeline t0 (l1 ++ l2) =
  timeline t0 l1 ++
  timeline (fold_left (fun t event => t + MidiEvent.timedelta event) l1 t0) l2.
Proof.
  induction l1 as [|event l1 IH]; intros t0; cbn [app timeline fold_left].
  - reflexivity.
  - now rewrite IH.
Qed.

Lemma timeline_copies (event : MidiEvent.t) (n : Z) (copies : list Z) :
  forall t,
  timeline t (map (chorus_copy event n) copies) =
    map (fun pitch => (t, chorus_copy event n pitch)) copies /\
  fold_left (fun t event => t + MidiEvent.timedelta event)
    (map (chorus_copy event n) copies) t = t.
Proof.
  induction copies as [|pitch copies IH]; intros t;
    cbn [map timeline fold_left]; [split; reflexivity|].
  cbn [chorus_copy MidiEvent.timedelta]. rewrite Z.add_0_r.
  destruct (IH t) as [-> ->]. split; reflexivity.
Qed.

Lemma chorus_spec_timeline (processed : list Z) (events : list MidiEvent.t)
    (t0 : Z) :
  timeline t0 (chorus_spec processed events) =
    chorus_timeline processed t0 events /\
  fold_left (fun t event => t + MidiEvent.timedelta event)
    (chorus_spec processed events) t0 =
  fold_left (fun t event => t + MidiEvent.timedelta event) events t0.
Proof.
  revert t0. induction events as [|event events IH]; intros t0.
  - split; reflexivity.
  - change (chorus_spec processed (event :: events))
      with (match MidiEvent.note event with
            | None => [event]
            | Some n => event :: rev (map (chorus_copy event n) processed)
            end ++ chorus_spec processed events).
    cbn [chorus_timeline fold_left].
    destruct (MidiEvent.note event) as [n|].
    + cbn [app timeline fold_left]. rewrite timeline_app, fold_left_app.
      rewrite <- map_rev.
      destruct (timeline_copies event n (rev processed)
                  (t0 + MidiEvent.timedelta event)) as [-> ->].
      destruct (IH (t0 + MidiEvent.timedelta event)) as [-> ->].
      rewrite <- map_rev. split; reflexivity.
    + cbn [app timeline fold_left].
      destruct (IH (t0 + MidiEvent.timedelta event)) as [-> ->].
      split; reflexivity.
Qed.

(** What holds between each track and what [chorus_track] returns for it
    holds, track by track, between the tracks given to [chorus] and the
    tracks it returns; and it does return. *)
Lemma chorus_tracks_related (P : MidiTrack.t -> MidiTrack.t -> Prop)
    (processed : list Z) (tracks : list MidiTrack.t) :
  (forall track track',
     In track tracks -> chorus_track processed track = Done track' ->
     P track track') ->
  exists tracks',
    chorus processed tracks = Done tracks' /\ Forall2 P tracks tracks'.
Proof.
  induction tracks as [|track tracks IH]; intros HP; cbn [chorus].
  - exists []. split; [reflexivity | constructor].
  - destruct IH as (tracks' & E & H);
      [intros t t' Hin; apply HP; now right|].
    rewrite chorus_track_spec, E. eexists. split; [reflexivity|].
    constructor; [|exact H].
    apply HP; [now left | apply chorus_track_spec].
Qed.

(** The loops of [chorus] (lines 252-261) return, and in each track they
    return every event is on the tick it was on in the track given, the
    copies of an event with a note are on that same tick right behind it
    (with the event's velocity, channel and status, the note shifted and
    clamped to 0..127), and the track lasts as long as before. *)
Theorem chorus_timeline_kept (processed : list Z)
    (tracks : list MidiTrack.t) :
  exists tracks',
    chorus processed tracks = Done tracks' /\
    Forall2
      (fun track track' =>
         forall t0,
           timeline t0 (MidiTrack.events track') =
             chorus_timeline processed t0 (MidiTrack.events track) /\
           fold_left (fun t event => t + MidiEvent.timedelta event)
             (MidiTrack.events track') t0 =
           fold_left (fun t event => t + MidiEvent.timedelta event)
             (MidiTrack.events track) t0)
      tracks tracks'.
Proof.
  apply chorus_tracks_related. intros track track' _ E t0.
  rewrite chorus_track_spec in E. injection E as <-.
  cbn [MidiTrack.events]. apply chorus_spec_timeline.
Qed.

Lemma chorus_spec_serialisable (processed : list Z)
    (events : list MidiEvent.t) :
  Forall (fun event => exists bs, MidiEvent.to_file event = Ok bs) events ->
  Forall (fun event => exists bs, MidiEvent.to_file event = Ok bs)
    (chorus_spec processed events).
Proof.
  intros H. unfold chorus_spec. apply Forall_flat_map.
  apply Forall_forall. intros event Hin.
  rewrite Forall_forall in H. specialize (H event Hin) as [bs Hbs].
  destruct (MidiEvent.note event) as [n|] eqn:En.
  - constructor; [now exists bs|].
    apply Forall_rev, Forall_map, Forall_forall. intros pitch _.
    apply to_file_Ok_iff in Hbs as (d & Ed & Hi & Hn). rewrite En in Hn.
    destruct Hn as (v & Ev & Hn & Hv & _).
    eexists. apply to_file_Ok_iff. exists [x00].
    cbn [chorus_copy MidiEvent.timedelta MidiEvent._event_info MidiEvent.note
         MidiEvent.velocity MidiEvent._trailing_ignore].
    split; [reflexivity|]. split; [exact Hi|]. exists v.
    split; [exact Ev|]. split; [lia|]. split; [exact Hv | reflexivity].
  - constructor; [now exists bs | constructor].
Qed.

(** If [to_file] can write every event of the tracks given to [chorus],
    the loops of [chorus] return tracks of which it can write every event,
    the inserted copies included. *)
Theorem chorus_keeps_serialisable (processed : list Z)
    (tracks : list MidiTrack.t) :
  Forall
    (fun track =>
       Forall (fun event => exists bs, MidiEvent.to_file event = Ok bs)
         (MidiTrack.events track))
    tracks ->
  exists tracks',
    chorus processed tracks = Done tracks' /\
    Forall
      (fun track =>
         Forall (fun event => exists bs, MidiEvent.to_file event = Ok bs)
           (MidiTrack.events track))
      tracks'.
Proof.
  intros H.
  destruct (chorus_tracks_related
              (fun track track' =>
                 Forall (fun event => exists bs, MidiEvent.to_file event = Ok bs)
                   (MidiTrack.events track'))
              processed tracks) as (tracks' & E & H2).
  - intros track track' Hin Et.
    rewrite chorus_track_spec in Et. injection Et as <-.
    cbn [MidiTrack.events]. apply chorus_spec_serialisable.
    rewrite Forall_forall in H. now apply H.
  - exists tracks'. split; [exact E|].
    clear E H. induction H2; constructor; assumption.
Qed.

Lemma chorus_keeps_serialisable_witness :
  exists tracks',
    chorus [4; 7]
      [MidiTrack.mk [MidiEvent.mk 4 96 (Some 60) (Some 64) (Some 0) [] 144;
                     MidiEvent.mk 3 0 None None None [x05] 192]] =
      Done tracks' /\
    Forall
      (fun track =>
         Forall (fun event => exists bs, MidiEvent.to_file event = Ok bs)
           (MidiTrack.events track))
      tracks'.
Proof.
  apply (chorus_keeps_serialisable [4; 7]).
  repeat constructor; eexists; reflexivity.
Defined.

(** ** Delay *)

Local Notation "'advance'" :=
  (fold_left (fun t event => t + MidiEvent.timedelta event)).

Lemma advance_shift (events : list MidiEvent.t) :
  forall t, advance events t = t + advance events 0.
Proof.
  induction events as [|event events IH]; intros t; cbn [fold_left].
  - lia.
  - rewrite IH, (IH (0 + MidiEvent.timedelta event)). lia.
Qed.

Lemma list_insert_end {A : Type} (i : nat) (x : A) (l : list A) :
  (List.length l <= i)%nat -> list_insert i x l = l ++ [x].
Proof.
  intros H. unfold list_insert. now rewrite firstn_all2, skipn_all2 by lia.
Qed.

Lemma retime_app (pre post : list MidiEvent.t) (event : MidiEvent.t)
    (ticks : Z) :
  retime (List.length pre) ticks (pre ++ event :: post) =
  pre ++ with_timedelta event (MidiEvent.timedelta event - ticks) :: post.
Proof.
  unfold retime. rewrite nth_error_middle.
  rewrite firstn_app, Nat.sub_diag, firstn_all. cbn [firstn].
  rewrite app_nil_r. f_equal. f_equal.
  rewrite skipn_app, skipn_all2 by lia.
  replace (List.length pre + 1 - List.length pre)%nat with 1%nat by lia.
  reflexivity.
Qed.

(** What the scan over [after] finds: the events it steps over, whose
    delta times it takes off [ticks], and either the event it breaks at,
    whose delta time is more than what is left, or the end of the list. *)
Lemma delay_scan_spec (after : list MidiEvent.t) :
  forall j i ticks,
  after <> [] \/ (exists i0, i = Some i0 /\ (j <= i0 + 1)%nat) ->
  exists skipped rest k ticks',
    delay_scan after j i ticks = Done (k, ticks') /\
    after = skipped ++ rest /\
    ticks' = ticks - advance skipped 0 /\
    (0 <= ticks -> 0 <= ticks') /\
    match rest with
    | [] => (j + List.length after <= k)%nat
    | a :: _ =>
        k = (j + List.length skipped)%nat /\ ticks' < MidiEvent.timedelta a
    end.
Proof.
  induction after as [|a after IH]; intros j i ticks Hcond.
  - destruct Hcond as [Hne|(i0 & -> & Hi)]; [congruence|].
    exists [], [], (i0 + 1)%nat, ticks. cbn.
    repeat split; lia.
  - cbn [delay_scan].
    destruct (ticks <? MidiEvent.timedelta a) eqn:E.
    + apply Z.ltb_lt in E. exists [], (a :: after), j, ticks.
      cbn [app List.length fold_left].
      repeat split; try lia.
    + apply Z.ltb_ge in E.
      destruct (IH (j + 1)%nat (Some j) (ticks - MidiEvent.timedelta a))
        as (skipped & rest & k & ticks' & Es & Ea & Et & Hpos & Hrest).
      { right. exists j. split; [reflexivity | lia]. }
      exists (a :: skipped), rest, k, ticks'.
      cbn [app List.length fold_left].
      split; [exact Es|]. split; [now rewrite Ea|].
      split; [rewrite advance_shift; lia|]. split; [lia|].
      destruct rest as [|b rest'].
      * cbn [List.length]. lia.
      * destruct Hrest as [-> Hlt]. split; [lia | exact Hlt].
Qed.

(** One insertion: the events up to [event] stay, the copy goes behind
    the events the scan stepped over, and the event behind the copy gives
    up the ticks the copy took. *)
Lemma delay_insert_spec (event : MidiEvent.t) (ticks : Z) (i : option nat)
    (pre after : list MidiEvent.t) :
  after <> [] \/ i <> None ->
  exists skipped rest ticks' k,
    after = skipped ++ rest /\
    ticks' = ticks - advance skipped 0 /\
    (0 <= ticks -> 0 <= ticks') /\
    match rest with [] => True | a :: _ => ticks' < MidiEvent.timedelta a end /\
    delay_insert event (List.length pre) ticks i (pre ++ event :: after) =
    Done (pre ++ event :: skipped ++ with_timedelta event ticks' ::
            match rest with
            | [] => []
            | a :: rest' =>
                with_timedelta a (MidiEvent.timedelta a - ticks') :: rest'
            end, Some k).
Proof.
  intros Hcond. unfold delay_insert.
  replace (skipn (List.length pre + 1) (pre ++ event :: after)) with after.
  2:{ replace (pre ++ event :: after) with ((pre ++ [event]) ++ after)
        by now rewrite <- app_assoc.
      rewrite skipn_app, skipn_all2 by (rewrite length_app; cbn; lia).
      rewrite length_app. cbn [List.length].
      now rewrite Nat.sub_diag. }
  destruct (delay_scan_spec after 1 i ticks)
    as (skipped & rest & k & ticks' & Es & Ea & Et & Hpos & Hrest).
  { destruct Hcond as [Hne|Hi]; [now left|]. right.
    destruct i as [i0|]; [|congruence]. exists i0. split; [reflexivity|lia]. }
  exists skipped, rest, ticks', k. rewrite Es.
  split; [exact Ea|]. split; [exact Et|]. split; [exact Hpos|].
  assert (Hlen : List.length (pre ++ event :: after) =
                 (List.length pre + 1 + List.length after)%nat)
    by (rewrite length_app; cbn [List.length]; lia).
  destruct rest as [|a rest'].
  - split; [trivial|].
    replace (List.length pre + k <? List.length (pre ++ event :: after))%nat
      with false by (symmetry; apply Nat.ltb_ge; lia).
    rewrite list_insert_end by lia.
    rewrite app_nil_r in Ea. subst after.
    now rewrite <- app_assoc.
  - destruct Hrest as [-> Hlt]. split; [exact Hlt|].
    assert (Hsplit : pre ++ event :: after =
                     (pre ++ event :: skipped) ++ a :: rest')
      by (rewrite Ea, <- app_assoc; reflexivity).
    assert (Hk : (List.length pre + (1 + List.length skipped))%nat =
                 List.length (pre ++ event :: skipped))
      by (rewrite length_app; cbn [List.length]; lia).
    replace (List.length pre + (1 + List.length skipped) <?
             List.length (pre ++ event :: after))%nat
      with true
      by (symmetry; apply Nat.ltb_lt; rewrite Hlen, Ea, length_app;
          cbn [List.length]; lia).
    rewrite Hk, Hsplit, retime_app, list_insert_app.
    now rewrite <- app_assoc.
Qed.

Lemma untimed_with_timedelta (event : MidiEvent.t) (td : Z) :
  untimed (with_timedelta event td) = untimed event.
Proof. reflexivity. Qed.

(** On the time line, one insertion adds one entry, [ticks] after the
    event, and moves nothing. *)
Lemma delay_insert_timeline (event : MidiEvent.t) (ticks ticks' : Z)
    (pre skipped rest : list MidiEvent.t) (t0 : Z) :
  ticks' = ticks - advance skipped 0 ->
  let te := advance pre t0 + MidiEvent.timedelta event in
  exists l1 l2,
    timeline t0 (pre ++ event :: skipped ++ rest) = l1 ++ l2 /\
    timeline t0
      (pre ++ event :: skipped ++ with_timedelta event ticks' ::
         match rest with
         | [] => []
         | a :: rest' =>
             with_timedelta a (MidiEvent.timedelta a - ticks') :: rest'
         end) =
    l1 ++ (te + ticks, untimed event) :: l2.
Proof.
  intros Et te.
  exists (timeline t0 (pre ++ event :: skipped)),
         (timeline (advance (pre ++ event :: skipped) t0) rest).
  replace (pre ++ event :: skipped ++ rest)
    with ((pre ++ event :: skipped) ++ rest) by now rewrite <- app_assoc.
  split; [apply timeline_app|].
  match goal with
  | |- timeline t0 (pre ++ event :: skipped ++ ?tail) = _ =>
      replace (pre ++ event :: skipped ++ tail)
        with ((pre ++ event :: skipped) ++ tail) by now rewrite <- app_assoc
  end.
  rewrite timeline_app. f_equal.
  assert (Hadv : advance (pre ++ event :: skipped) t0 + ticks' = te + ticks).
  { rewrite fold_left_app. cbn [fold_left]. rewrite advance_shift.
    subst te ticks'. lia. }
  cbn [timeline with_timedelta MidiEvent.timedelta].
  rewrite Hadv, untimed_with_timedelta. f_equal.
  destruct rest as [|a rest']; [reflexivity|].
  cbn [timeline with_timedelta MidiEvent.timedelta].
  rewrite untimed_with_timedelta.
  replace (te + ticks + (MidiEvent.timedelta a - ticks'))
    with (advance (pre ++ event :: skipped) t0 + MidiEvent.timedelta a)
    by lia.
  reflexivity.
Qed.

Local Notation "'on_time'" :=
  (Forall (fun event => 0 <= MidiEvent.timedelta event)).

Lemma delay_insert_step (event : MidiEvent.t) (ticks : Z) (i : option nat)
    (pre after : list MidiEvent.t) :
  after <> [] \/ i <> None ->
  exists after' k,
    delay_insert event (List.length pre) ticks i (pre ++ event :: after) =
      Done (pre ++ event :: after', Some k) /\
    after' <> [] /\
    (forall t0,
       Permutation (timeline t0 (pre ++ event :: after'))
         ((advance pre t0 + MidiEvent.timedelta event + ticks, untimed event)
            :: timeline t0 (pre ++ event :: after))) /\
    (0 <= ticks -> on_time (pre ++ event :: after) ->
     on_time (pre ++ event :: after')).
Proof.
  intros Hcond.
  destruct (delay_insert_spec event ticks i pre after Hcond)
    as (skipped & rest & ticks' & k & Ea & Et & Hpos & Hrest & E).
  eexists. exists k. split; [exact E|]. split; [destruct skipped; discriminate|].
  split.
  - intros t0.
    destruct (delay_insert_timeline event ticks ticks' pre skipped rest t0 Et)
      as (l1 & l2 & H1 & H2).
    rewrite H2, Ea, H1. symmetry. apply Permutation_middle.
  - intros Hticks Hon. rewrite Ea in Hon.
    apply Forall_app in Hon as [Hpre Hon].
    apply Forall_cons_iff in Hon as [Hev Hon].
    apply Forall_app in Hon as [Hsk Hre].
    apply Forall_app. split; [exact Hpre|].
    constructor; [exact Hev|]. apply Forall_app. split; [exact Hsk|].
    constructor; [cbn; lia|].
    destruct rest as [|a rest']; [constructor|].
    apply Forall_cons_iff in Hre as [Ha Hre].
    constructor; [cbn; lia | exact Hre].
Qed.

Lemma delay_ticks_spec (event : MidiEvent.t) (pre : list MidiEvent.t)
    (processed : list Z) :
  forall i after,
  after <> [] \/ i <> None \/ processed = [] ->
  exists after' i',
    delay_ticks processed event (List.length pre) i (pre ++ event :: after) =
      Done (pre ++ event :: after', i') /\
    (i <> None -> i' <> None) /\
    (forall t0,
       Permutation (timeline t0 (pre ++ event :: after'))
         (map (fun ticks =>
                 (advance pre t0 + MidiEvent.timedelta event + ticks,
                  untimed event)) processed ++
          timeline t0 (pre ++ event :: after))) /\
    (Forall (fun ticks => 0 <= ticks) processed ->
     on_time (pre ++ event :: after) -> on_time (pre ++ event :: after')).
Proof.
  induction processed as [|ticks processed IH]; intros i after Hcond.
  - exists after, i. cbn [delay_ticks map app].
    repeat split; trivial.
  - cbn [delay_ticks].
    destruct (delay_insert_step event ticks i pre after)
      as (after1 & k & E & Hne & Hperm & Hon).
    { destruct Hcond as [H|[H|H]]; [now left | now right | discriminate]. }
    rewrite E.
    destruct (IH (Some k) after1 ltac:(now left))
      as (after' & i' & E' & Hi' & Hperm' & Hon').
    exists after', i'. split; [exact E'|].
    split; [intros _; apply Hi'; discriminate|]. split.
    + intros t0. rewrite (Hperm' t0). cbn [map app].
      rewrite (Hperm t0). symmetry. apply Permutation_middle.
    + intros Hp Hall. apply Forall_cons_iff in Hp as [Ht Hp].
      apply Hon'; [exact Hp|]. now apply Hon.
Qed.

Lemma delay_copies_app (processed : list Z) (l1 l2 : list MidiEvent.t) :
  forall t0,
  delay_copies processed t0 (l1 ++ l2) =
  delay_copies processed t0 l1 ++ delay_copies processed (advance l1 t0) l2.
Proof.
  induction l1 as [|event l1 IH]; intros t0; cbn [app delay_copies fold_left].
  - reflexivity.
  - rewrite IH. destruct (MidiEvent.note event); [|reflexivity].
    now rewrite <- app_assoc.
Qed.

(** The index loop over the first [length pre] events, when the scan
    cannot meet an empty list with [i] unbound. *)
Lemma delay_loop_spec (processed : list Z) (pre : list MidiEvent.t) :
  forall post i,
  post <> [] \/ i <> None \/ processed = [] ->
  exists events' i',
    delay_loop (List.length pre) processed i (pre ++ post) =
      Done (events', i') /\
    (i <> None -> i' <> None) /\
    (forall t0,
       Permutation (timeline t0 events')
         (delay_copies processed t0 pre ++ timeline t0 (pre ++ post))) /\
    (Forall (fun ticks => 0 <= ticks) processed ->
     on_time (pre ++ post) -> on_time events').
Proof.
  induction pre as [|event pre IH] using rev_ind; intros post i Hcond.
  - exists post, i. cbn [delay_loop List.length app delay_copies].
    repeat split; trivial.
  - rewrite length_app, Nat.add_comm. cbn [List.length Nat.add delay_loop].
    rewrite <- app_assoc. cbn [app]. rewrite nth_error_middle.
    destruct (MidiEvent.note event) as [n|] eqn:En.
    + destruct (delay_ticks_spec event pre processed i post Hcond)
        as (post1 & i1 & E1 & Hi1 & Hperm1 & Hon1).
      rewrite E1.
      destruct (IH (event :: post1) i1 ltac:(left; discriminate))
        as (events' & i' & E' & Hi' & Hperm' & Hon').
      exists events', i'. split; [exact E'|].
      split; [intros Hi; apply Hi', Hi1, Hi|]. split.
      * intros t0. rewrite (Hperm' t0), (Hperm1 t0).
        rewrite delay_copies_app. cbn [delay_copies]. rewrite En, app_nil_r.
        rewrite <- !app_assoc. reflexivity.
      * intros Hp Hall. apply Hon'; [exact Hp|]. now apply Hon1.
    + destruct (IH (event :: post) i ltac:(left; discriminate))
        as (events' & i' & E' & Hi' & Hperm' & Hon').
      exists events', i'. split; [exact E'|]. split; [exact Hi'|]. split.
      * intros t0. rewrite (Hperm' t0).
        rewrite delay_copies_app. cbn [delay_copies]. rewrite En, app_nil_r.
        reflexivity.
      * exact Hon'.
Qed.

(** When a track does not end on an event with a note (or [i] is bound
    from an earlier track, or there is no tick count), the loops of [delay]
    return.  On the time line of the result every event of the track is on
    the tick it was on, and the entries added are, for each event with a
    note and each tick count, that event that many ticks later.  With
    non-negative tick counts no delta time becomes negative. *)
Theorem delay_track_timeline (processed : list Z) (i : option nat)
    (events : list MidiEvent.t) :
  i <> None \/ processed = [] \/
  (forall pre event, events = pre ++ [event] -> MidiEvent.note event = None) ->
  exists events' i',
    delay_loop (List.length events) processed i events = Done (events', i') /\
    (i <> None -> i' <> None) /\
    (forall t0,
       Permutation (timeline t0 events')
         (timeline t0 events ++ delay_copies processed t0 events)) /\
    (Forall (fun ticks => 0 <= ticks) processed ->
     on_time events -> on_time events').
Proof.
  intros Hcond.
  assert (Hmain : exists events' i',
            delay_loop (List.length events) processed i events =
              Done (events', i') /\
            (i <> None -> i' <> None) /\
            (forall t0,
               Permutation (timeline t0 events')
                 (delay_copies processed t0 events ++ timeline t0 events)) /\
            (Forall (fun ticks => 0 <= ticks) processed ->
             on_time events -> on_time events')).
  { destruct Hcond as [Hi|[Hp|Hlast]].
    - pose proof (delay_loop_spec processed events [] i ltac:(tauto)) as H.
      now rewrite app_nil_r in H.
    - pose proof (delay_loop_spec processed events [] i ltac:(tauto)) as H.
      now rewrite app_nil_r in H.
    - destruct events as [|e0 events0] using rev_ind.
      + exists [], i. cbn. repeat split; trivial.
      + clear IHevents0. specialize (Hlast events0 e0 eq_refl).
        rewrite length_app, Nat.add_comm. cbn [List.length Nat.add delay_loop].
        rewrite nth_error_middle, Hlast.
        destruct (delay_loop_spec processed events0 [e0] i
                    ltac:(left; discriminate))
          as (events' & i' & E' & Hi' & Hperm' & Hon').
        exists events', i'. split; [exact E'|]. split; [exact Hi'|].
        split; [|exact Hon'].
        intros t0. rewrite (Hperm' t0), delay_copies_app.
        cbn [delay_copies]. now rewrite Hlast, app_nil_r. }
  destruct Hmain as (events' & i' & E & Hi & Hperm & Hon).
  exists events', i'. split; [exact E|]. split; [exact Hi|].
  split; [|exact Hon].
  intros t0. rewrite (Hperm t0). apply Permutation_app_comm.
Qed.

Lemma delay_track_timeline_witness :
  exists events' i',
    delay_loop 3 [12] None
      [MidiEvent.mk 4 0 (Some 60) (Some 64) (Some 0) [] 144;
       MidiEvent.mk 4 10 (Some 60) (Some 0) (Some 0) [] 144;
       MidiEvent.mk 4 5 None None None [x2f; x00] 255] =
      Done (events', i') /\
    forall t0,
      Permutation (timeline t0 events')
        (timeline t0
           [MidiEvent.mk 4 0 (Some 60) (Some 64) (Some 0) [] 144;
            MidiEvent.mk 4 10 (Some 60) (Some 0) (Some 0) [] 144;
            MidiEvent.mk 4 5 None None None [x2f; x00] 255] ++
         delay_copies [12] t0
           [MidiEvent.mk 4 0 (Some 60) (Some 64) (Some 0) [] 144;
            MidiEvent.mk 4 10 (Some 60) (Some 0) (Some 0) [] 144;
            MidiEvent.mk 4 5 None None None [x2f; x00] 255]).
Proof.
  destruct (delay_track_timeline [12] None
              [MidiEvent.mk 4 0 (Some 60) (Some 64) (Some 0) [] 144;
               MidiEvent.mk 4 10 (Some 60) (Some 0) (Some 0) [] 144;
               MidiEvent.mk 4 5 None None None [x2f; x00] 255])
    as (events' & i' & E & _ & Hperm & _).
  - right. right. intros pre event H.
    destruct pre as [|a [|b [|c pre]]]; try discriminate.
    + injection H as _ _ <-. reflexivity.
    + destruct pre; discriminate.
  - exists events', i'. split; [exact E | exact Hperm].
Defined.

Example delay_worked :
  delay_loop 3 [12] None
    [MidiEvent.mk 4 0 (Some 60) (Some 64) (Some 0) [] 144;
     MidiEvent.mk 4 10 None None None [x07; x64] 176;
     MidiEvent.mk 4 5 None None None [x2f; x00] 255] =
  Done ([MidiEvent.mk 4 0 (Some 60) (Some 64) (Some 0) [] 144;
         MidiEvent.mk 4 10 None None None [x07; x64] 176;
         MidiEvent.mk 4 2 (Some 60) (Some 64) (Some 0) [] 144;
         MidiEvent.mk 4 3 None None None [x2f; x00] 255], Some 2%nat).
Proof. reflexivity. Qed.

Lemma delay_loop_no_notes (processed : list Z) (i : option nat)
    (pre : list MidiEvent.t) :
  forall post,
  Forall (fun event => MidiEvent.note event = None) pre ->
  delay_loop (List.length pre) processed i (pre ++ post) =
  Done (pre ++ post, i).
Proof.
  induction pre as [|event pre IH] using rev_ind; intros post H.
  - reflexivity.
  - apply Forall_app in H as [Hpre Hev].
    apply Forall_cons_iff in Hev as [Hev _].
    rewrite length_app, Nat.add_comm. cbn [List.length Nat.add delay_loop].
    rewrite <- app_assoc. cbn [app]. rewrite nth_error_middle, Hev.
    now apply IH.
Qed.

Lemma delay_tracks_no_notes (processed : list Z) (quiet : list MidiTrack.t) :
  forall rest,
  Forall (fun track =>
            Forall (fun event => MidiEvent.note event = None)
              (MidiTrack.events track)) quiet ->
  delay_tracks processed None (quiet ++ rest) =
  match delay_tracks processed None rest with
  | Raised e => Raised e
  | Done (tracks', i) =>
      Done (map (fun track => MidiTrack.mk (MidiTrack.events track)) quiet
              ++ tracks', i)
  end.
Proof.
  induction quiet as [|track quiet IH]; intros rest H.
  - cbn [app map]. destruct (delay_tracks processed None rest) as [[? ?]|];
      reflexivity.
  - apply Forall_cons_iff in H as [Ht Hq].
    cbn [app delay_tracks map].
    pose proof (delay_loop_no_notes processed None (MidiTrack.events track)
                  [] Ht) as E.
    rewrite !app_nil_r in E. rewrite E, (IH rest Hq).
    destruct (delay_tracks processed None rest) as [[? ?]|]; reflexivity.
Qed.

(** [delay] raises [UnboundLocalError] when the first track that holds an
    event with a note ends on such an event: nothing follows it, the
    [for ... else] runs [i += 1], and no loop has bound [i] yet. *)
Theorem delay_unbound_local (processed : list Z)
    (quiet tracks : list MidiTrack.t) (track : MidiTrack.t)
    (pre : list MidiEvent.t) (event : MidiEvent.t) :
  processed <> [] ->
  Forall (fun track =>
            Forall (fun event => MidiEvent.note event = None)
              (MidiTrack.events track)) quiet ->
  MidiTrack.events track = pre ++ [event] ->
  MidiEvent.note event <> None ->
  delay processed (quiet ++ track :: tracks) = Raised UnboundLocalError.
Proof.
  intros Hp Hq Ht Hn. unfold delay.
  rewrite delay_tracks_no_notes by exact Hq.
  cbn [delay_tracks]. rewrite Ht.
  rewrite length_app, Nat.add_comm. cbn [List.length Nat.add delay_loop].
  rewrite nth_error_middle.
  destruct (MidiEvent.note event) as [n|]; [|congruence].
  destruct processed as [|ticks processed]; [congruence|].
  cbn [delay_ticks]. unfold delay_insert.
  replace (skipn (List.length pre + 1) (pre ++ [event])) with (@nil MidiEvent.t)
    by (rewrite skipn_all2; [reflexivity | rewrite length_app; cbn; lia]).
  reflexivity.
Qed.

Lemma delay_unbound_local_witness :
  delay [48]
    ([MidiTrack.mk [MidiEvent.mk 4 0 None None None [x2f; x00] 255]] ++
     MidiTrack.mk
       [MidiEvent.mk 4 0 (Some 60) (Some 64) (Some 0) [] 144;
        MidiEvent.mk 4 96 (Some 60) (Some 0) (Some 0) [] 128] :: []) =
  Raised UnboundLocalError.
Proof.
  apply (delay_unbound_local [48] _ [] _
           [MidiEvent.mk 4 0 (Some 60) (Some 64) (Some 0) [] 144]
           (MidiEvent.mk 4 96 (Some 60) (Some 0) (Some 0) [] 128)).
  - discriminate.
  - repeat constructor.
  - reflexivity.
  - discriminate.
Defined.

Lemma delay_tracks_spec (processed : list Z) (tracks : list MidiTrack.t) :
  forall i,
  Forall (fun track =>
            forall pre event,
              MidiTrack.events track = pre ++ [event] ->
              MidiEvent.note event = None) tracks ->
  exists tracks' i',
    delay_tracks processed i tracks = Done (tracks', i') /\
    Forall2
      (fun track track' =>
         (forall t0,
            Permutation (timeline t0 (MidiTrack.events track'))
              (timeline t0 (MidiTrack.events track) ++
               delay_copies processed t0 (MidiTrack.events track))) /\
         (Forall (fun ticks => 0 <= ticks) processed ->
          on_time (MidiTrack.events track) ->
          on_time (MidiTrack.events track')))
      tracks tracks'.
Proof.
  induction tracks as [|track tracks IH]; intros i H.
  - exists [], i. split; [reflexivity | constructor].
  - apply Forall_cons_iff in H as [Ht Hts].
    destruct (delay_track_timeline processed i (MidiTrack.events track)
                ltac:(right; right; exact Ht))
      as (events' & i1 & E & _ & Hperm & Hon).
    destruct (IH i1 Hts) as (tracks' & i' & E' & Hall).
    exists (MidiTrack.mk events' :: tracks'), i'.
    cbn [delay_tracks]. rewrite E, E'. split; [reflexivity|].
    constructor; [|exact Hall]. cbn [MidiTrack.events].
    split; [exact Hperm | exact Hon].
Qed.

(** When no track ends on an event with a note, [delay] returns, and for
    each track the time line of the result is the time line of the track
    together with, for each event with a note and each tick count, that
    event that many ticks later; non-negative tick counts keep every delta
    time non-negative. *)
Theorem delay_timeline (processed : list Z) (tracks : list MidiTrack.t) :
  Forall (fun track =>
            forall pre event,
              MidiTrack.events track = pre ++ [event] ->
              MidiEvent.note event = None) tracks ->
  exists tracks',
    delay processed tracks = Done tracks' /\
    Forall2
      (fun track track' =>
         (forall t0,
            Permutation (timeline t0 (MidiTrack.events track'))
              (timeline t0 (MidiTrack.events track) ++
               delay_copies processed t0 (MidiTrack.events track))) /\
         (Forall (fun ticks => 0 <= ticks) processed ->
          on_time (MidiTrack.events track) ->
          on_time (MidiTrack.events track')))
      tracks tracks'.
Proof.
  intros H.
  destruct (delay_tracks_spec processed tracks None H)
    as (tracks' & i' & E & Hall).
  exists tracks'. unfold delay. rewrite E. split; [reflexivity | exact Hall].
Qed.

Lemma delay_timeline_witness :
  exists tracks',
    delay [12]
      [MidiTrack.mk
         [MidiEvent.mk 4 0 (Some 60) (Some 64) (Some 0) [] 144;
          MidiEvent.mk 4 5 None None None [x2f; x00] 255]] = Done tracks'.
Proof.
  destruct (delay_timeline [12]
              [MidiTrack.mk
                 [MidiEvent.mk 4 0 (Some 60) (Some 64) (Some 0) [] 144;
                  MidiEvent.mk 4 5 None None None [x2f; x00] 255]])
    as (tracks' & E & _).
  - constructor; [|constructor]. intros pre event H. cbn in H.
    destruct pre as [|a [|b pre]]; try discriminate.
    + injection H as _ <-. reflexivity.
    + destruct pre; discriminate.
  - exists tracks'. exact E.
Defined.

(** *** What [delay] leaves can be saved *)

Lemma timeline_In (events : list MidiEvent.t) (event : MidiEvent.t) :
  forall t0,
  In event events -> exists t, In (t, untimed event) (timeline t0 events).
Proof.
  induction events as [|e events IH]; intros t0 Hin; [contradiction|].
  cbn [timeline]. destruct Hin as [->|Hin].
  - eexists. left. reflexivity.
  - destruct (IH (t0 + MidiEvent.timedelta e) Hin) as [t Ht].
    exists t. now right.
Qed.

Lemma timeline_In_inv (events : list MidiEvent.t) (t : Z) (u : MidiEvent.t) :
  forall t0,
  In (t, u) (timeline t0 events) ->
  exists event, In event events /\ u = untimed event.
Proof.
  induction events as [|e events IH]; intros t0 Hin; [contradiction|].
  cbn [timeline] in Hin. destruct Hin as [Heq|Hin].
  - injection Heq as _ <-. exists e. split; [now left | reflexivity].
  - destruct (IH _ Hin) as (event & He & ->).
    exists event. split; [now right | reflexivity].
Qed.

Lemma delay_copies_In_inv (processed : list Z) (events : list MidiEvent.t)
    (t : Z) (u : MidiEvent.t) :
  forall t0,
  In (t, u) (delay_copies processed t0 events) ->
  exists event, In event events /\ u = untimed event.
Proof.
  induction events as [|e events IH]; intros t0 Hin; [contradiction|].
  cbn [delay_copies] in Hin.
  destruct (MidiEvent.note e).
  - apply in_app_or in Hin as [Hin|Hin].
    + apply in_map_iff in Hin as (ticks & Heq & _).
      injection Heq as _ <-. exists e. split; [now left | reflexivity].
    + destruct (IH _ Hin) as (event & He & ->).
      exists event. split; [now right | reflexivity].
  - destruct (IH _ Hin) as (event & He & ->).
    exists event. split; [now right | reflexivity].
Qed.

Lemma to_file_untimed (event : MidiEvent.t) :
  (exists bs, MidiEvent.to_file event = Ok bs) <->
  0 <= MidiEvent.timedelta event /\
  exists bs, MidiEvent.to_file (untimed event) = Ok bs.
Proof.
  assert (Hmove : forall e1 e2 d2 bs,
            MidiEvent.to_file e1 = Ok bs ->
            to_file_timedelta (MidiEvent.timedelta e2) = Ok d2 ->
            MidiEvent._event_info e2 = MidiEvent._event_info e1 ->
            MidiEvent.note e2 = MidiEvent.note e1 ->
            MidiEvent.velocity e2 = MidiEvent.velocity e1 ->
            exists bs', MidiEvent.to_file e2 = Ok bs').
  { intros e1 e2 d2 bs H Ed2 Hinfo Hnote Hvel.
    apply to_file_Ok_iff in H as (d & Ed & Hi & Hn).
    destruct (MidiEvent.note e1) as [n|] eqn:En.
    - destruct Hn as (v & Ev & Hn & Hv & _).
      eexists. apply to_file_Ok_iff. exists d2.
      rewrite Hinfo, Hnote, Hvel. split; [exact Ed2|]. split; [exact Hi|].
      exists v. split; [exact Ev|]. split; [exact Hn|].
      split; [exact Hv | reflexivity].
    - eexists. apply to_file_Ok_iff. exists d2.
      rewrite Hinfo, Hnote. split; [exact Ed2|]. split; [exact Hi|].
      reflexivity. }
  split.
  - intros [bs H]. pose proof H as H'.
    apply to_file_Ok_iff in H' as (d & Ed & _).
    split; [exact (to_file_timedelta_nonneg _ _ Ed)|].
    apply (Hmove event (untimed event) [x00] bs H); reflexivity.
  - intros [Htd [bs H]].
    destruct (to_file_timedelta_shape _ Htd) as (d' & Ed' & _).
    apply (Hmove (untimed event) event d' bs H Ed'); reflexivity.
Qed.

(** If [to_file] can write every event of a track and the tick counts are
    non-negative, it can write every event of the track [delay] returns. *)
Theorem delay_keeps_serialisable (processed : list Z) (i : option nat)
    (events events' : list MidiEvent.t) (i' : option nat) :
  Forall (fun ticks => 0 <= ticks) processed ->
  Forall (fun event => exists bs, MidiEvent.to_file event = Ok bs) events ->
  delay_loop (List.length events) processed i events = Done (events', i') ->
  Forall (fun event => exists bs, MidiEvent.to_file event = Ok bs) events'.
Proof.
  intros Hp Hser E.
  assert (Hon : on_time events).
  { eapply Forall_impl; [|exact Hser]. intros e He.
    now apply to_file_untimed in He. }
  assert (Hcond : i <> None \/ processed = [] \/
                  (forall pre event, events = pre ++ [event] ->
                                     MidiEvent.note event = None)).
  { destruct i as [i0|]; [left; discriminate|].
    destruct processed as [|ticks processed]; [right; now left|].
    right. right. intros pre event Hev.
    destruct (MidiEvent.note event) as [n|] eqn:En; [|reflexivity].
    exfalso. subst events.
    rewrite length_app, Nat.add_comm in E.
    cbn [List.length Nat.add delay_loop] in E.
    rewrite nth_error_middle, En in E.
    cbn [delay_ticks] in E. unfold delay_insert in E.
    replace (skipn (List.length pre + 1) (pre ++ [event]))
      with (@nil MidiEvent.t) in E
      by (rewrite skipn_all2; [reflexivity | rewrite length_app; cbn; lia]).
    discriminate. }
  destruct (delay_track_timeline processed i events Hcond)
    as (events2 & i2 & E2 & _ & Hperm & Hon2).
  rewrite E in E2. injection E2 as <- <-.
  specialize (Hon2 Hp Hon).
  apply Forall_forall. intros e' Hin.
  apply to_file_untimed. split.
  - rewrite Forall_forall in Hon2. now apply Hon2.
  - destruct (timeline_In events' e' 0 Hin) as [t Ht].
    apply (Permutation_in _ (Hperm 0)) in Ht.
    assert (Hsrc : exists event, In event events /\
                     untimed e' = untimed event).
    { apply in_app_or in Ht as [Ht|Ht].
      - now apply timeline_In_inv in Ht.
      - now apply delay_copies_In_inv in Ht. }
    destruct Hsrc as (event & Hev & ->).
    rewrite Forall_forall in Hser.
    exact (proj2 (proj1 (to_file_untimed event) (Hser event Hev))).
Qed.

Lemma delay_keeps_serialisable_witness :
  Forall (fun event => exists bs, MidiEvent.to_file event = Ok bs)
    [MidiEvent.mk 4 0 (Some 60) (Some 64) (Some 0) [] 144;
     MidiEvent.mk 4 10 None None None [x07; x64] 176;
     MidiEvent.mk 4 2 (Some 60) (Some 64) (Some 0) [] 144;
     MidiEvent.mk 4 3 None None None [x2f; x00] 255].
Proof.
  apply (delay_keeps_serialisable [12] None
           [MidiEvent.mk 4 0 (Some 60) (Some 64) (Some 0) [] 144;
            MidiEvent.mk 4 10 None None None [x07; x64] 176;
            MidiEvent.mk 4 5 None None None [x2f; x00] 255] _ (Some 2%nat)).
  - repeat constructor. lia.
  - repeat constructor; eexists; reflexivity.
  - reflexivity.
Defined.

Lemma same_length_iff_minimal_witness :
  exists delta body,
    [x80; x00; x90; x3c; x40] = delta ++ body ++ [] /\
    vlq_shape delta = true /\
    MidiEvent.timedelta
      (MidiEvent.mk 5 0 (Some 60) (Some 64) (Some 0) [] 144) =
      groups_value delta /\
    (same_length (MidiEvent.mk 5 0 (Some 60) (Some 64) (Some 0) [] 144) = true
     <-> vlq_minimal delta = true).
Proof.
  apply (same_length_iff_minimal [x80; x00; x90; x3c; x40] []
           (MidiEvent.mk 5 0 (Some 60) (Some 64) (Some 0) [] 144));
    reflexivity.
Defined.

(** * Saving an edited file and loading it again *)

Lemma init_body (f : stream) :
  MidiEvent.__init__ f =
  let '(td, len, f1) := MidiEvent.__init__timedelta f 0 0 in
  event_body td len f1.
Proof.
  unfold MidiEvent.__init__, event_body.
  destruct (MidiEvent.__init__timedelta f 0 0) as [[td len] f1].
  reflexivity.
Qed.

Lemma ignore_len_shift (f : stream) :
  forall trailing n len trailing' n' l' f',
  MidiEvent.__init__ignore f trailing n 0 = (trailing', n', l', f') ->
  MidiEvent.__init__ignore f trailing n len = (trailing', n', len + l', f').
Proof.
  induction f as [|b f IH]; intros trailing n len trailing' n' l' f' H;
    cbn [MidiEvent.__init__ignore] in *.
  - assert (l' = 0 + 1) by congruence. subst l'.
    assert (Ht : trailing ++ [] = trailing') by congruence.
    assert (Hn : n + Z.land (int_from_bytes []) 127 = n') by congruence.
    assert (Hf : [] = f') by congruence.
    rewrite Ht, Hn, Hf. reflexivity.
  - destruct (Z.land (Z.shiftr (int_from_bytes [b]) 7) 1 =? 0).
    + assert (l' = 0 + 1) by congruence. subst l'.
      assert (Ht : trailing ++ [b] = trailing') by congruence.
      assert (Hn : n + Z.land (int_from_bytes [b]) 127 = n') by congruence.
      assert (Hf : f = f') by congruence.
      rewrite Ht, Hn, Hf. reflexivity.
    + destruct (MidiEvent.__init__ignore f (trailing ++ [b])
                  (n + Z.land (int_from_bytes [b]) 127) 0)
        as [[[t0 n0] l0] f0] eqn:E0.
      rewrite (IH _ _ (0 + 1) _ _ _ _ E0) in H.
      rewrite (IH _ _ (len + 1) _ _ _ _ E0).
      assert (l' = 0 + 1 + l0) by congruence. subst l'.
      assert (Ht : t0 = trailing') by congruence.
      assert (Hn : n0 = n') by congruence.
      assert (Hf : f0 = f') by congruence.
      rewrite Ht, Hn, Hf. f_equal. f_equal. lia.
Qed.

(** The loop over the length bytes, when it did not run into the end of
    the file: it read a well-shaped quantity and summed its groups. *)
Lemma ignore_shape (f : stream) :
  forall trailing n len trailing' n' len' f',
  MidiEvent.__init__ignore f trailing n len = (trailing', n', len', f') ->
  0 <= n ->
  exists bs,
    f = bs ++ f' /\ trailing' = trailing ++ bs /\
    len + Z.of_nat (List.length bs) <= len' /\ 0 <= n' /\
    (len' = len + Z.of_nat (List.length bs) ->
     vlq_shape bs = true /\
     n' = fold_left (fun acc b => acc + group b) bs n).
Proof.
  induction f as [|b f IH]; intros trailing n len trailing' n' len' f' H Hn.
  - cbn in H. injection H as <- <- <- <-. exists [].
    cbn [List.length app]. repeat split; lia.
  - cbn [MidiEvent.__init__ignore] in H. rewrite int_from_bytes_one in H.
    fold (group b) in H. pose proof (group_range b) as Hg.
    destruct (Z.land (Z.shiftr (Z_of_byte b) 7) 1 =? 0) eqn:Eb.
    + injection H as <- <- <- <-. exists [b].
      cbn [List.length app fold_left].
      split; [reflexivity|]. split; [reflexivity|]. split; [lia|].
      split; [lia|]. intros _. split; [|reflexivity].
      cbn. unfold continues. now rewrite Eb.
    + apply IH in H as (bs & E & Et & Hle & Hn' & Heq); [|lia].
      exists (b :: bs). cbn [List.length app fold_left].
      split; [now rewrite E|]. split; [now rewrite Et, <- app_assoc|].
      split; [lia|]. split; [exact Hn'|].
      intros Hl. destruct Heq as [Hs Hv]; [lia|]. split; [|exact Hv].
      rewrite vlq_shape_cons by (destruct bs; [discriminate Hs|discriminate]).
      unfold continues at 1. now rewrite Eb, Hs.
Qed.

(** The end of each case of [body_stable]: the same reads, done again on
    the bytes of the body followed by anything, and what [to_file] writes
    for the event. *)
Ltac body_case Hfin :=
  cbn [MidiEvent._length MidiEvent.timedelta MidiEvent.note
       MidiEvent.velocity MidiEvent.channel MidiEvent._trailing_ignore
       MidiEvent._event_info];
  split; [subst; rewrite <- ?app_assoc; reflexivity|];
  split;
  [ intros d td2 Ed; rewrite to_file_unfold; unfold with_timedelta;
    cbn [MidiEvent.timedelta MidiEvent.note MidiEvent.velocity
         MidiEvent._trailing_ignore MidiEvent._event_info];
    rewrite Ed; cbn [bind]; rewrite Hfin; cbn [bind];
    rewrite ?to_bytes_from_bytes by lia; cbn [bind];
    rewrite ?app_nil_r, <- ?app_assoc; reflexivity
  | ].

(** The body of an accepted event.  The counter grows by at least the
    number of bytes read; when it grows by exactly that number, no read ran
    into the end of the file, and then the bytes read parse to the same
    fields whatever follows them and whatever the delta time before them
    was, and [to_file] writes exactly them behind the delta time. *)
Lemma body_stable (td len : Z) (f f' : stream) (event : MidiEvent.t) :
  event_body td len f = Ok (event, f') ->
  Z.of_nat (List.length f) <=
    MidiEvent._length event - len + Z.of_nat (List.length f') /\
  (Z.of_nat (List.length f) =
     MidiEvent._length event - len + Z.of_nat (List.length f') ->
   exists body,
     f = body ++ f' /\
     (forall d td2,
        to_file_timedelta td2 = Ok d ->
        MidiEvent.to_file (with_timedelta event td2) = Ok (d ++ body)) /\
     (forall n v,
        MidiEvent.note event <> None -> 0 <= n < 256 -> 0 <= v < 256 ->
        exists body',
          (forall d td2,
             to_file_timedelta td2 = Ok d ->
             MidiEvent.to_file (with_note (with_timedelta event td2) n v) =
             Ok (d ++ body')) /\
          forall td2 len2 rest,
            event_body td2 len2 (body' ++ rest) =
            Ok (with_length (with_note (with_timedelta event td2) n v)
                  (len2 + Z.of_nat (List.length body')), rest)) /\
     forall td2 len2 rest,
       event_body td2 len2 (body ++ rest) =
       Ok (with_length (with_timedelta event td2)
             (len2 + Z.of_nat (List.length body)), rest)).
Proof.
  unfold event_body at 1. intros H.
  destruct (MidiEvent._read_bytes len f 1) as [[sb len2] f2] eqn:Es.
  apply read_bytes_inv in Es as (-> & Ef1 & Hsb); [|lia].
  destruct sb as [|s sb']; [cbn in H; discriminate|].
  destruct sb' as [|s' sb']; [|cbn [List.length] in Hsb; lia].
  assert (Hfin : to_bytes (int_from_bytes [s]) 1 = Ok [s])
    by now apply to_bytes_from_bytes.
  rewrite Ef1. cbn [app]. unfold event_body.
  destruct (Z.shiftr (int_from_bytes [s]) 4 =? 15) eqn:T15.
  { destruct (Z.land (int_from_bytes [s]) 15 =? 15) eqn:Tsub.
    - destruct (MidiEvent._read_bytes (len + 1) f2 1) as [[tr len3] f3] eqn:Et.
      apply read_bytes_inv in Et as (-> & Ef2 & Htr); [|lia].
      destruct (MidiEvent.__init__ignore f3 tr 0 (len + 1 + 1))
        as [[[tr' ign] len4] f4] eqn:Ei.
      apply ignore_shape in Ei as (ib & Ef3 & -> & Hl4 & Hign & Heq); [|lia].
      destruct (MidiEvent._read_bytes len4 f4 ign) as [[pb len5] f5] eqn:Ep.
      apply read_bytes_inv in Ep as (-> & Ef4 & Hpb); [|lia].
      injection H as <- <-. subst f2 f3 f4.
      cbn [MidiEvent._length List.length]. rewrite ?length_app.
    cbn [List.length].
      split; [lia|]. intros Hall.
      destruct Heq as [Hs ->]; [lia|].
      destruct (one_byte tr ltac:(lia)) as [t ->].
      exists ([s] ++ ([t] ++ ib) ++ pb). body_case Hfin.
      split; [intros n v Hnote; now exfalso|].
      intros td2 len0 rest. rewrite <- !app_assoc. cbn [app].
      rewrite read_bytes_one, T15, Tsub, read_bytes_one.
      rewrite (ignore_sums_groups ib (pb ++ rest)) by exact Hs.
      replace (fold_left (fun acc b => acc + group b) ib 0)
        with (Z.of_nat (List.length pb)) by lia.
      rewrite read_bytes_app. unfold with_length, with_timedelta.
      cbn [MidiEvent._length MidiEvent.timedelta MidiEvent.note
           MidiEvent.velocity MidiEvent.channel MidiEvent._trailing_ignore
           MidiEvent._event_info].
      cbn [List.length app]. rewrite ?length_app. cbn [List.length].
      rewrite <- ?app_assoc. do 3 f_equal. lia.
    - destruct (MidiEvent.__init__ignore f2 [] 0 (len + 1))
        as [[[tr' ign] len4] f4] eqn:Ei.
      apply ignore_shape in Ei as (ib & Ef3 & -> & Hl4 & Hign & Heq); [|lia].
      destruct (MidiEvent._read_bytes len4 f4 ign) as [[pb len5] f5] eqn:Ep.
      apply read_bytes_inv in Ep as (-> & Ef4 & Hpb); [|lia].
      injection H as <- <-. subst f2 f4.
      cbn [MidiEvent._length List.length]. rewrite ?length_app.
    cbn [List.length].
      split; [lia|]. intros Hall.
      destruct Heq as [Hs ->]; [lia|].
      exists ([s] ++ ([] ++ ib) ++ pb). body_case Hfin.
      split; [intros n v Hnote; now exfalso|].
      intros td2 len0 rest. rewrite <- !app_assoc. cbn [app].
      rewrite read_bytes_one, T15, Tsub.
      rewrite (ignore_sums_groups ib (pb ++ rest)) by exact Hs.
      replace (fold_left (fun acc b => acc + group b) ib 0)
        with (Z.of_nat (List.length pb)) by lia.
      rewrite read_bytes_app. unfold with_length, with_timedelta.
      cbn [MidiEvent._length MidiEvent.timedelta MidiEvent.note
           MidiEvent.velocity MidiEvent.channel MidiEvent._trailing_ignore
           MidiEvent._event_info].
      cbn [List.length app]. rewrite ?length_app. cbn [List.length]. do 3 f_equal. lia. }
  destruct ((Z.shiftr (int_from_bytes [s]) 4 =? 10)
            || (Z.shiftr (int_from_bytes [s]) 4 =? 11)
            || (Z.shiftr (int_from_bytes [s]) 4 =? 14)) eqn:T2.
  { destruct (MidiEvent._read_bytes (len + 1) f2 2) as [[pb len5] f5] eqn:Ep.
    apply read_bytes_inv in Ep as (-> & Ef4 & Hpb); [|lia].
    injection H as <- <-. subst f2.
    cbn [MidiEvent._length List.length]. rewrite ?length_app.
    cbn [List.length].
    split; [lia|]. intros Hall.
    exists ([s] ++ pb). body_case Hfin.
    split; [intros n v Hnote; now exfalso|].
    intros td2 len0 rest. rewrite <- !app_assoc. cbn [app].
    rewrite read_bytes_one, T15, T2.
    replace 2 with (Z.of_nat (List.length pb)) by lia.
    rewrite read_bytes_app. unfold with_length, with_timedelta.
    cbn [MidiEvent._length MidiEvent.timedelta MidiEvent.note
         MidiEvent.velocity MidiEvent.channel MidiEvent._trailing_ignore
         MidiEvent._event_info].
    cbn [List.length app]. rewrite ?length_app. cbn [List.length]. do 3 f_equal. lia. }
  destruct ((Z.shiftr (int_from_bytes [s]) 4 =? 12)
            || (Z.shiftr (int_from_bytes [s]) 4 =? 13)) eqn:T1.
  { destruct (MidiEvent._read_bytes (len + 1) f2 1) as [[pb len5] f5] eqn:Ep.
    apply read_bytes_inv in Ep as (-> & Ef4 & Hpb); [|lia].
    injection H as <- <-. subst f2.
    cbn [MidiEvent._length List.length]. rewrite ?length_app.
    cbn [List.length].
    split; [lia|]. intros Hall.
    destruct (one_byte pb ltac:(lia)) as [p1 ->].
    exists ([s] ++ [p1]). body_case Hfin.
    split; [intros n v Hnote; now exfalso|].
    intros td2 len0 rest. cbn [app].
    rewrite read_bytes_one, T15, T2, T1, read_bytes_one.
    unfold with_length, with_timedelta.
    cbn [MidiEvent._length MidiEvent.timedelta MidiEvent.note
         MidiEvent.velocity MidiEvent.channel MidiEvent._trailing_ignore
         MidiEvent._event_info List.length]. do 3 f_equal. lia. }
  destruct ((Z.shiftr (int_from_bytes [s]) 4 =? 8)
            || (Z.shiftr (int_from_bytes [s]) 4 =? 9)) eqn:T0;
    [|discriminate].
  destruct (MidiEvent._read_bytes (len + 1) f2 1) as [[nb len4] f4] eqn:En.
  apply read_bytes_inv in En as (-> & Ef2 & Hnb); [|lia].
  destruct (MidiEvent._read_bytes (len + 1 + 1) f4 1) as [[vb len5] f5] eqn:Ev.
  apply read_bytes_inv in Ev as (-> & Ef4 & Hvb); [|lia].
  injection H as <- <-. subst f2 f4.
  cbn [MidiEvent._length List.length]. rewrite ?length_app.
    cbn [List.length].
  split; [lia|]. intros Hall.
  destruct (one_byte nb ltac:(lia)) as [n1 ->].
  destruct (one_byte vb ltac:(lia)) as [v1 ->].
  exists ([s] ++ [n1] ++ [v1]). body_case Hfin.
  split.
  { intros n v _ Hn Hv. exists [s; byte_of_Z n; byte_of_Z v]. split.
    - intros d td2 Ed. rewrite to_file_unfold.
      unfold with_note, with_timedelta.
      cbn [MidiEvent.timedelta MidiEvent.note MidiEvent.velocity
           MidiEvent._trailing_ignore MidiEvent._event_info].
      rewrite Ed. cbn [bind]. rewrite Hfin. cbn [bind].
      rewrite !to_bytes_one by assumption. cbn [bind].
      now rewrite app_nil_r, <- !app_assoc.
    - intros td2 len0 rest. cbn [app].
      rewrite read_bytes_one, T15, T2, T1, T0, !read_bytes_one.
      rewrite !int_from_bytes_one, !Z_of_byte_of_Z by assumption.
      unfold with_length, with_note, with_timedelta.
      cbn [MidiEvent._length MidiEvent.timedelta MidiEvent.note
           MidiEvent.velocity MidiEvent.channel MidiEvent._trailing_ignore
           MidiEvent._event_info List.length].
      rewrite ?int_from_bytes_one. do 3 f_equal. lia. }
  intros td2 len0 rest. cbn [app].
  rewrite read_bytes_one, T15, T2, T1, T0, !read_bytes_one.
  unfold with_length, with_timedelta.
  cbn [MidiEvent._length MidiEvent.timedelta MidiEvent.note
       MidiEvent.velocity MidiEvent.channel MidiEvent._trailing_ignore
       MidiEvent._event_info List.length]. do 3 f_equal. lia.
Qed.

(** An event that was parsed with all its bytes there reloads, also with
    another non-negative delta time and, if it has a note, with another
    note and velocity that fit a byte. *)
Lemma parsed_event_edits (f f' : stream) (event : MidiEvent.t) :
  MidiEvent.__init__ f = Ok (event, f') ->
  Z.of_nat (List.length f) =
    MidiEvent._length event + Z.of_nat (List.length f') ->
  forall td,
  0 <= td ->
  reloads (with_timedelta event td) /\
  forall n v,
    MidiEvent.note event <> None -> 0 <= n < 256 -> 0 <= v < 256 ->
    reloads (with_note (with_timedelta event td) n v).
Proof.
  rewrite init_body. intros H Hfull td' Htd'.
  destruct (MidiEvent.__init__timedelta f 0 0) as [[td len] f1] eqn:Etd.
  apply timedelta_inv in Etd as (delta & Ef & Hle & _ & _ & _).
  destruct (body_stable _ _ _ _ _ H) as [Hb Heq].
  assert (Hlen : Z.of_nat (List.length f) =
                 Z.of_nat (List.length delta) + Z.of_nat (List.length f1))
    by (rewrite Ef, length_app; lia).
  destruct Heq as (body & Ef1 & Hto & Hnote & Hre); [lia|].
  destruct (to_file_timedelta_shape td' Htd') as (d & Ed & Hs & Hval & _).
  unfold groups_value in Hval.
  assert (Hinit : forall body0 e0,
            (forall len2 rest,
               event_body td' len2 (body0 ++ rest) =
               Ok (with_length e0 (len2 + Z.of_nat (List.length body0)), rest)) ->
            forall rest,
              MidiEvent.__init__ ((d ++ body0) ++ rest) =
              Ok (with_length e0 (Z.of_nat (List.length (d ++ body0))), rest)).
  { intros body0 e0 Hbody rest. rewrite init_body, <- app_assoc.
    rewrite timedelta_decode by exact Hs.
    rewrite Hval, Hbody, length_app. do 3 f_equal. lia. }
  split.
  - exists (d ++ body). split; [now apply Hto|].
    apply Hinit. intros len2 rest. apply Hre.
  - intros n v Hn Hnr Hvr.
    destruct (Hnote n v Hn Hnr Hvr) as (body' & Hto' & Hre').
    exists (d ++ body'). split; [now apply Hto'|].
    apply Hinit. intros len2 rest. apply Hre'.
Qed.

Lemma to_file_with_length (event : MidiEvent.t) (len : Z) :
  MidiEvent.to_file (with_length event len) = MidiEvent.to_file event.
Proof. now rewrite !to_file_unfold. Qed.

Lemma reloads_with_length (event : MidiEvent.t) (len : Z) :
  reloads (with_length event len) -> reloads event.
Proof.
  intros (bs & E & H). exists bs. rewrite to_file_with_length in E.
  split; [exact E | exact H].
Qed.

(** The parser sets note and velocity together or not at all. *)
Lemma parse_both_or_neither (f f' : stream) (event : MidiEvent.t) :
  MidiEvent.__init__ f = Ok (event, f') ->
  match MidiEvent.note event, MidiEvent.velocity event with
  | Some _, Some _ | None, None => True
  | _, _ => False
  end.
Proof.
  unfold MidiEvent.__init__.
  repeat match goal with
         | |- (let '(_, _) := ?r in _) = _ -> _ => destruct r
         | |- (if ?c then _ else _) = _ -> _ => destruct c
         end; intros H; try discriminate; injection H as <- <-; exact I.
Qed.

(** What is known of an event that reloads. *)
Lemma reloads_fields (event : MidiEvent.t) :
  reloads event ->
  0 <= MidiEvent.timedelta event /\
  match MidiEvent.note event, MidiEvent.velocity event with
  | Some n, Some v => 0 <= n < 256 /\ 0 <= v < 256
  | None, None => True
  | _, _ => False
  end.
Proof.
  intros (bs & E & H).
  pose proof (parse_both_or_neither _ _ _ (H [])) as Hnv.
  cbn [with_length MidiEvent.note MidiEvent.velocity] in Hnv.
  apply to_file_Ok_iff in E as (d & Ed & _ & Hn).
  split; [exact (to_file_timedelta_nonneg _ _ Ed)|].
  destruct (MidiEvent.note event) as [n|].
  - destruct Hn as (v & -> & Hnr & Hvr & _). split; assumption.
  - exact Hnv.
Qed.

(** An event that reloads still does with another non-negative delta
    time and, if it has a note, with another note and velocity that fit a
    byte. *)
Lemma reloads_edits (event : MidiEvent.t) :
  reloads event ->
  forall td,
  0 <= td ->
  reloads (with_timedelta event td) /\
  forall n v,
    MidiEvent.note event <> None -> 0 <= n < 256 -> 0 <= v < 256 ->
    reloads (with_note (with_timedelta event td) n v).
Proof.
  intros (bs & E & H) td Htd.
  pose proof (H []) as Hparse.
  destruct (parsed_event_edits _ _ _ Hparse
              ltac:(cbn [with_length MidiEvent._length List.length];
                    rewrite app_nil_r; lia) td Htd) as [Ht Hn].
  split.
  - exact (reloads_with_length (with_timedelta event td) _ Ht).
  - intros n v Hnote Hnr Hvr.
    exact (reloads_with_length (with_note (with_timedelta event td) n v) _
             (Hn n v Hnote Hnr Hvr)).
Qed.

Lemma with_timedelta_same (event : MidiEvent.t) :
  with_timedelta event (MidiEvent.timedelta event) = event.
Proof. destruct event. reflexivity. Qed.

(** ** The effects keep events that reload *)

Lemma pitch_event_reloads (amount : Z) (event : MidiEvent.t) :
  reloads event -> reloads (pitch_event amount event).
Proof.
  intros Hr. unfold pitch_event.
  destruct (MidiEvent.note event) as [n|] eqn:En; [|exact Hr].
  pose proof (reloads_fields _ Hr) as [Htd Hnv]. rewrite En in Hnv.
  destruct (MidiEvent.velocity event) as [v|] eqn:Ev; [|contradiction].
  destruct (reloads_edits _ Hr _ Htd) as [_ Hn].
  specialize (Hn (Z.max 0 (Z.min 127 (n + amount))) v
                ltac:(congruence) ltac:(lia) ltac:(tauto)).
  rewrite with_timedelta_same in Hn. exact Hn.
Qed.

Lemma velocity_event_reloads (amount : Z) (event : MidiEvent.t) :
  1 <= amount <= 127 ->
  reloads event -> reloads (velocity_event amount event).
Proof.
  intros Ha Hr. unfold velocity_event.
  destruct (MidiEvent.velocity event) as [v|] eqn:Ev; [|exact Hr].
  destruct (v =? 0); [exact Hr|].
  pose proof (reloads_fields _ Hr) as [Htd Hnv]. rewrite Ev in Hnv.
  destruct (MidiEvent.note event) as [n|] eqn:En; [|contradiction].
  destruct (reloads_edits _ Hr _ Htd) as [_ Hn].
  specialize (Hn n amount ltac:(congruence) ltac:(tauto) ltac:(lia)).
  rewrite with_timedelta_same in Hn. exact Hn.
Qed.

Lemma chorus_copy_reloads (event : MidiEvent.t) (n pitch : Z) :
  reloads event -> MidiEvent.note event = Some n ->
  reloads (chorus_copy event n pitch).
Proof.
  intros Hr En.
  pose proof (reloads_fields _ Hr) as [Htd Hnv]. rewrite En in Hnv.
  destruct (MidiEvent.velocity event) as [v|] eqn:Ev; [|contradiction].
  destruct (reloads_edits _ Hr 0 ltac:(lia)) as [_ Hn].
  specialize (Hn (Z.max 0 (Z.min 127 (n + pitch))) v
                ltac:(congruence) ltac:(lia) ltac:(tauto)).
  unfold chorus_copy. rewrite Ev. exact Hn.
Qed.

Lemma untimed_eq (a b : MidiEvent.t) :
  untimed a = untimed b -> a = with_timedelta b (MidiEvent.timedelta a).
Proof.
  destruct a, b. unfold untimed, with_timedelta. cbn. intros H.
  injection H as -> -> -> -> -> ->. reflexivity.
Qed.

Lemma delay_loop_reloads (processed : list Z) (i i' : option nat)
    (events events' : list MidiEvent.t) :
  Forall (fun ticks => 0 <= ticks) processed ->
  Forall reloads events ->
  delay_loop (List.length events) processed i events = Done (events', i') ->
  Forall reloads events'.
Proof.
  intros Hp Hrel E.
  assert (Hon : on_time events).
  { eapply Forall_impl; [|exact Hrel]. intros e He.
    now apply reloads_fields in He. }
  assert (Hcond : i <> None \/ processed = [] \/
                  (forall pre event, events = pre ++ [event] ->
                                     MidiEvent.note event = None)).
  { destruct i as [i0|]; [left; discriminate|].
    destruct processed as [|ticks processed]; [right; now left|].
    right. right. intros pre event Hev.
    destruct (MidiEvent.note event) as [n|] eqn:En; [|reflexivity].
    exfalso. subst events.
    rewrite length_app, Nat.add_comm in E.
    cbn [List.length Nat.add delay_loop] in E.
    rewrite nth_error_middle, En in E.
    cbn [delay_ticks] in E. unfold delay_insert in E.
    replace (skipn (List.length pre + 1) (pre ++ [event]))
      with (@nil MidiEvent.t) in E
      by (rewrite skipn_all2; [reflexivity | rewrite length_app; cbn; lia]).
    discriminate. }
  destruct (delay_track_timeline processed i events Hcond)
    as (events2 & i2 & E2 & _ & Hperm & Hon2).
  rewrite E in E2. injection E2 as <- <-.
  specialize (Hon2 Hp Hon).
  apply Forall_forall. intros e' Hin.
  destruct (timeline_In events' e' 0 Hin) as [t Ht].
  apply (Permutation_in _ (Hperm 0)) in Ht.
  assert (Hsrc : exists event, In event events /\ untimed e' = untimed event).
  { apply in_app_or in Ht as [Ht|Ht].
    - now apply timeline_In_inv in Ht.
    - now apply delay_copies_In_inv in Ht. }
  destruct Hsrc as (event & Hev & Hu).
  rewrite (untimed_eq _ _ Hu).
  rewrite Forall_forall in Hrel, Hon2.
  apply reloads_edits; [now apply Hrel | now apply Hon2].
Qed.

Lemma delay_tracks_reloads (processed : list Z) (tracks : list MidiTrack.t) :
  forall i tracks' i',
  Forall (fun ticks => 0 <= ticks) processed ->
  all_reload tracks ->
  delay_tracks processed i tracks = Done (tracks', i') ->
  List.length tracks' = List.length tracks /\ all_reload tracks'.
Proof.
  induction tracks as [|track tracks IH]; intros i tracks' i' Hp Hrel E;
    cbn [delay_tracks] in E.
  - injection E as <- <-. split; [reflexivity | constructor].
  - apply Forall_cons_iff in Hrel as [Ht Hts].
    destruct (delay_loop _ processed i (MidiTrack.events track))
      as [[events1 i1]|] eqn:E1; [|discriminate].
    destruct (delay_tracks processed i1 tracks) as [[tracks1 i2]|] eqn:E2;
      [|discriminate].
    injection E as <- <-.
    destruct (IH _ _ _ Hp Hts E2) as [Hl Hr].
    split; [cbn; now rewrite Hl|].
    constructor; [|exact Hr]. cbn [MidiTrack.events].
    exact (delay_loop_reloads _ _ _ _ _ Hp Ht E1).
Qed.

Lemma pitch_reloads (amount : Z) (tracks : list MidiTrack.t) :
  all_reload tracks -> all_reload (pitch amount tracks).
Proof.
  intros Hrel. unfold all_reload, pitch in *.
  apply Forall_map. eapply Forall_impl; [|exact Hrel].
  intros track Ht. cbn [pitch_track MidiTrack.events].
  apply Forall_map. eapply Forall_impl; [|exact Ht].
  intros event. apply pitch_event_reloads.
Qed.

Lemma chorus_spec_reloads (processed : list Z) (events : list MidiEvent.t) :
  Forall reloads events -> Forall reloads (chorus_spec processed events).
Proof.
  intros Ht. unfold chorus_spec.
  apply Forall_flat_map. rewrite Forall_forall in Ht |- *.
  intros event Hin. specialize (Ht event Hin).
  destruct (MidiEvent.note event) as [n|] eqn:En.
  - constructor; [exact Ht|].
    apply Forall_rev, Forall_map, Forall_forall. intros p _.
    now apply chorus_copy_reloads.
  - constructor; [exact Ht | constructor].
Qed.

Lemma chorus_tracks_reloads (processed : list Z) (tracks : list MidiTrack.t) :
  forall tracks',
  all_reload tracks ->
  chorus processed tracks = Done tracks' ->
  List.length tracks' = List.length tracks /\ all_reload tracks'.
Proof.
  induction tracks as [|track tracks IH]; intros tracks' Hrel E;
    cbn [chorus] in E.
  - injection E as <-. split; [reflexivity | constructor].
  - apply Forall_cons_iff in Hrel as [Ht Hts].
    rewrite chorus_track_spec in E.
    destruct (chorus processed tracks) as [tracks1|] eqn:E1; [|discriminate].
    injection E as <-. destruct (IH _ Hts eq_refl) as [Hl Hr].
    split; [cbn; now rewrite Hl|].
    constructor; [|exact Hr]. cbn [MidiTrack.events].
    now apply chorus_spec_reloads.
Qed.

(** Each of the four effects, run on tracks whose events all reload,
    leaves as many tracks, and all their events reload: the events it
    changed and the copies it put in as well. *)
Theorem effects_keep_reloads (tracks : list MidiTrack.t) :
  all_reload tracks ->
  (forall amount,
     List.length (pitch amount tracks) = List.length tracks /\
     all_reload (pitch amount tracks)) /\
  (forall amount tracks',
     velocity amount tracks = Some tracks' ->
     List.length tracks' = List.length tracks /\ all_reload tracks') /\
  (forall processed tracks',
     chorus processed tracks = Done tracks' ->
     List.length tracks' = List.length tracks /\ all_reload tracks') /\
  (forall processed tracks',
     Forall (fun ticks => 0 <= ticks) processed ->
     delay processed tracks = Done tracks' ->
     List.length tracks' = List.length tracks /\ all_reload tracks').
Proof.
  intros Hrel. unfold all_reload in *. split; [|split; [|split]].
  - intros amount. split; [apply length_map | now apply pitch_reloads].
  - intros amount tracks' H. unfold velocity in H.
    destruct ((amount <? 1) || (127 <? amount)) eqn:Ea; [discriminate|].
    injection H as <-. apply orb_false_iff in Ea as [E1 E2].
    apply Z.ltb_ge in E1. apply Z.ltb_ge in E2.
    split; [apply length_map|].
    apply Forall_map. eapply Forall_impl; [|exact Hrel].
    intros track Ht. cbn [velocity_track MidiTrack.events].
    apply Forall_map. eapply Forall_impl; [|exact Ht].
    intros event. apply velocity_event_reloads. lia.
  - intros processed tracks' H.
    exact (chorus_tracks_reloads _ _ _ Hrel H).
  - intros processed tracks' Hp H. unfold delay in H.
    destruct (delay_tracks processed None tracks) as [[tracks1 i1]|] eqn:E;
      [|discriminate].
    injection H as <-. exact (delay_tracks_reloads _ _ _ _ _ Hp Hrel E).
Qed.

(** ** Tracks and files *)

Lemma relength_Ok (event : MidiEvent.t) (bs : list byte) :
  MidiEvent.to_file event = Ok bs ->
  relength event = with_length event (Z.of_nat (List.length bs)).
Proof. intros E. unfold relength. now rewrite E. Qed.

Lemma to_file_relength (event : MidiEvent.t) :
  MidiEvent.to_file (relength event) = MidiEvent.to_file event.
Proof.
  unfold relength.
  destruct (MidiEvent.to_file event) eqn:E;
    [rewrite to_file_with_length|..]; exact E.
Qed.

Lemma events_reload_partitions (events : list MidiEvent.t) :
  Forall reloads events ->
  exists bodies,
    Forall2 (fun event body => MidiEvent.to_file event = Ok body)
      events bodies /\
    forall rest,
      partitions (Z.of_nat (List.length (List.concat bodies)))
        (List.concat bodies ++ rest) (map relength events) rest.
Proof.
  induction 1 as [|event events (bs & E & Hparse) _ (bodies & Hb & Hp)].
  - exists []. split; [constructor|]. intros rest. cbn. constructor.
  - exists (bs :: bodies). split; [now constructor|].
    intros rest. cbn [List.concat map]. rewrite <- app_assoc.
    rewrite (relength_Ok _ _ E).
    eapply partitions_event.
    + apply Hparse.
    + cbn [with_length MidiEvent._length]. rewrite length_app. lia.
    + cbn [with_length MidiEvent._length].
      replace (Z.of_nat (List.length (bs ++ List.concat bodies)) -
               Z.of_nat (List.length bs))
        with (Z.of_nat (List.length (List.concat bodies)))
        by (rewrite length_app; lia).
      apply Hp.
Qed.

Lemma track_reload (track : MidiTrack.t) (bs : list byte) :
  Forall reloads (MidiTrack.events track) ->
  MidiTrack.to_file track = Ok bs ->
  forall rest,
  MidiTrack.__init__ (bs ++ rest) = Ok (relength_track track, rest).
Proof.
  intros Hr E rest.
  destruct (events_reload_partitions _ Hr) as (bodies & Hb & Hp).
  unfold MidiTrack.to_file in E. rewrite (track_to_file_loop _ _ _ Hb) in E.
  cbn [bind bytes repeat app] in E.
  destruct (to_bytes _ 4) as [l| |] eqn:El; cbn [bind] in E; try discriminate.
  replace bs with (MidiTrack.MTrk ++ l ++ List.concat bodies)
    by (injection E as <-; reflexivity).
  apply to_bytes_Ok in El as (_ & Hl & Hv).
  rewrite <- !app_assoc. rewrite track_header by exact Hl.
  rewrite Hv. rewrite (track_loop_partitions _ _ _ _ (Hp rest)) by lia.
  reflexivity.
Qed.

Lemma tracks_reload (tracks : list MidiTrack.t) :
  all_reload tracks ->
  forall bodies,
  Forall2 (fun track body => MidiTrack.to_file track = Ok body)
    tracks bodies ->
  forall rest,
  MidiFile.__init__tracks (List.length tracks) (List.concat bodies ++ rest) =
  Ok (map relength_track tracks, rest).
Proof.
  induction 1 as [|track tracks Ht _ IH]; intros bodies Hb rest;
    inversion Hb as [|? body ? bodies' Eb Hbs]; subst.
  - reflexivity.
  - cbn [List.length MidiFile.__init__tracks List.concat map].
    rewrite <- app_assoc, (track_reload _ _ Ht Eb). cbn [bind].
    rewrite (IH _ Hbs). reflexivity.
Qed.

Lemma track_to_file_loop_inv (events : list MidiEvent.t) :
  forall result bs,
  MidiTrack.to_file_loop events result = Ok bs ->
  exists bodies,
    Forall2 (fun event body => MidiEvent.to_file event = Ok body)
      events bodies /\
    bs = result ++ List.concat bodies.
Proof.
  induction events as [|event events IH]; intros result bs H;
    cbn [MidiTrack.to_file_loop] in H.
  - injection H as <-. exists []. split; [constructor|].
    cbn. now rewrite app_nil_r.
  - destruct (MidiEvent.to_file event) as [b| |] eqn:Eb; cbn [bind] in H;
      try discriminate.
    apply IH in H as (bodies & Hb & ->). exists (b :: bodies).
    split; [now constructor|]. cbn [List.concat]. now rewrite app_assoc.
Qed.

Lemma file_to_file_loop_inv (tracks : list MidiTrack.t) :
  forall result bs,
  MidiFile.to_file_loop tracks result = Ok bs ->
  exists bodies,
    Forall2 (fun track body => MidiTrack.to_file track = Ok body)
      tracks bodies /\
    bs = result ++ List.concat bodies.
Proof.
  induction tracks as [|track tracks IH]; intros result bs H;
    cbn [MidiFile.to_file_loop] in H.
  - injection H as <-. exists []. split; [constructor|].
    cbn. now rewrite app_nil_r.
  - destruct (MidiTrack.to_file track) as [b| |] eqn:Eb; cbn [bind] in H;
      try discriminate.
    apply IH in H as (bodies & Hb & ->). exists (b :: bodies).
    split; [now constructor|]. cbn [List.concat]. now rewrite app_assoc.
Qed.

Lemma read_exact (bs rest : list byte) (n : Z) :
  Z.of_nat (List.length bs) = n -> read (bs ++ rest) n = (bs, rest).
Proof.
  intros <-. unfold read. rewrite Nat2Z.id.
  rewrite firstn_app, skipn_app, Nat.sub_diag, firstn_all, skipn_all.
  cbn. now rewrite app_nil_r.
Qed.

Lemma top_bit_clear (d : Z) :
  0 <= d < 32768 -> Z.land (Z.shiftr d 15) 1 = 0.
Proof.
  intros Hd. rewrite Z.shiftr_div_pow2 by lia.
  change (2 ^ 15) with 32768. now rewrite Z.div_small.
Qed.

Lemma file_reload (mf : MidiFile.t) (bs : list byte) :
  6 <= MidiFile._length mf ->
  Z.of_nat (List.length (MidiFile._trailing mf)) = MidiFile._length mf - 6 ->
  MidiFile._division mf < 32768 ->
  MidiFile._num_tracks mf = Z.of_nat (List.length (MidiFile.tracks mf)) ->
  all_reload (MidiFile.tracks mf) ->
  MidiFile.to_file mf = Ok bs ->
  forall rest, MidiFile.__init__ (bs ++ rest) = Ok (reloaded mf, rest).
Proof.
  intros H6 Htr Hd Hn Hr E rest. unfold MidiFile.to_file in E.
  destruct (to_bytes (MidiFile._length mf) 4) as [l| |] eqn:El;
    cbn [bind] in E; try discriminate.
  destruct (to_bytes (MidiFile.format mf) 2) as [fm| |] eqn:Ef;
    cbn [bind] in E; try discriminate.
  destruct (to_bytes (MidiFile._num_tracks mf) 2) as [n| |] eqn:En;
    cbn [bind] in E; try discriminate.
  destruct (to_bytes (MidiFile._division mf) 2) as [d| |] eqn:Ed;
    cbn [bind] in E; try discriminate.
  apply file_to_file_loop_inv in E as (bodies & Hb & ->).
  apply to_bytes_Ok in El as (_ & Hl & Hlv).
  apply to_bytes_Ok in Ef as (_ & Hf & Hfv).
  apply to_bytes_Ok in En as (_ & Hnl & Hnv).
  apply to_bytes_Ok in Ed as (Hdr & Hdl & Hdv).
  rewrite <- !app_assoc. rewrite file_header by assumption.
  rewrite Hlv, Hfv, Hnv, Hdv. cbv zeta.
  apply Z.leb_le in H6 as H6b. rewrite H6b. cbn [negb].
  unfold reloaded.
  rewrite (top_bit_clear (MidiFile._division mf)) by lia.
  change (0 =? 1) with false. cbv iota.
  destruct (6 <? MidiFile._length mf) eqn:E6.
  - rewrite read_exact by exact Htr.
    rewrite Hn, Nat2Z.id, (tracks_reload _ Hr _ Hb). reflexivity.
  - apply Z.ltb_ge in E6.
    destruct (MidiFile._trailing mf) as [|b tr];
      [|cbn [List.length] in Htr; lia].
    cbn [app bytes repeat].
    rewrite Hn, Nat2Z.id, (tracks_reload _ Hr _ Hb). reflexivity.
Qed.

(** Recounting the events changes nothing in the bytes. *)
Lemma track_to_file_loop_relength (events : list MidiEvent.t) :
  forall result,
  MidiTrack.to_file_loop (map relength events) result =
  MidiTrack.to_file_loop events result.
Proof.
  induction events as [|event events IH]; intros result;
    cbn [map MidiTrack.to_file_loop]; [reflexivity|].
  rewrite to_file_relength.
  destruct (MidiEvent.to_file event); cbn [bind]; [apply IH | | ]; reflexivity.
Qed.

Lemma to_file_relength_track (track : MidiTrack.t) :
  MidiTrack.to_file (relength_track track) = MidiTrack.to_file track.
Proof.
  unfold MidiTrack.to_file, relength_track. cbn [MidiTrack.events].
  now rewrite track_to_file_loop_relength.
Qed.

Lemma file_to_file_loop_relength (tracks : list MidiTrack.t) :
  forall result,
  MidiFile.to_file_loop (map relength_track tracks) result =
  MidiFile.to_file_loop tracks result.
Proof.
  induction tracks as [|track tracks IH]; intros result;
    cbn [map MidiFile.to_file_loop]; [reflexivity|].
  rewrite to_file_relength_track.
  destruct (MidiTrack.to_file track); cbn [bind]; [apply IH | | ]; reflexivity.
Qed.

Lemma to_file_reloaded (mf : MidiFile.t) :
  MidiFile.to_file (reloaded mf) = MidiFile.to_file mf.
Proof.
  unfold MidiFile.to_file, reloaded.
  cbn [MidiFile._length MidiFile.format MidiFile._num_tracks
       MidiFile._division MidiFile._trailing MidiFile.tracks].
  destruct (to_bytes (MidiFile._length mf) 4); cbn [bind]; try reflexivity.
  destruct (to_bytes (MidiFile.format mf) 2); cbn [bind]; try reflexivity.
  destruct (to_bytes (MidiFile._num_tracks mf) 2); cbn [bind];
    try reflexivity.
  destruct (to_bytes (MidiFile._division mf) 2); cbn [bind];
    try reflexivity.
  apply file_to_file_loop_relength.
Qed.

(** The recounted counters are the numbers of bytes written. *)
Lemma events_relength_requested (events : list MidiEvent.t) :
  forall bodies,
  Forall2 (fun event body => MidiEvent.to_file event = Ok body)
    events bodies ->
  events_requested (map relength events) =
    Z.of_nat (List.length (List.concat bodies)) /\
  forallb same_length (map relength events) = true.
Proof.
  induction events as [|event events IH]; intros bodies H;
    inversion H as [|? body ? bodies' Eb Hbs]; subst.
  - split; reflexivity.
  - destruct (IH _ Hbs) as [Hreq Hsame].
    cbn [map events_requested fold_right forallb List.concat].
    fold (events_requested (map relength events)).
    rewrite Hreq, Hsame, length_app, (relength_Ok _ _ Eb).
    split.
    + cbn [with_length MidiEvent._length]. lia.
    + unfold same_length. rewrite to_file_with_length, Eb.
      cbn [with_length MidiEvent._length]. now rewrite Z.eqb_refl.
Qed.

Lemma track_relength_requested (track : MidiTrack.t) (bs : list byte) :
  MidiTrack.to_file track = Ok bs ->
  track_requested (relength_track track) = Z.of_nat (List.length bs) /\
  forallb same_length (MidiTrack.events (relength_track track)) = true.
Proof.
  unfold MidiTrack.to_file. intros E.
  destruct (MidiTrack.to_file_loop _ _) as [result| |] eqn:Eloop;
    cbn [bind] in E; try discriminate.
  apply track_to_file_loop_inv in Eloop as (bodies & Hb & ->).
  destruct (to_bytes _ 4) as [l| |] eqn:El; cbn [bind] in E; try discriminate.
  apply to_bytes_Ok in El as (_ & Hl & _).
  replace bs with (MidiTrack.MTrk ++ l ++ bytes 0 ++ List.concat bodies)
    by (injection E as <-; reflexivity).
  destruct (events_relength_requested _ _ Hb) as [Hreq Hsame].
  unfold track_requested, relength_track. cbn [MidiTrack.events].
  rewrite Hreq, !length_app, Hl. cbn [List.length MidiTrack.MTrk bytes repeat].
  split; [lia | exact Hsame].
Qed.

Lemma tracks_relength_requested (tracks : list MidiTrack.t) :
  forall bodies,
  Forall2 (fun track body => MidiTrack.to_file track = Ok body)
    tracks bodies ->
  tracks_requested (map relength_track tracks) =
    Z.of_nat (List.length (List.concat bodies)) /\
  all_same_length (map relength_track tracks) = true.
Proof.
  induction tracks as [|track tracks IH]; intros bodies H;
    inversion H as [|? body ? bodies' Eb Hbs]; subst.
  - split; reflexivity.
  - destruct (IH _ Hbs) as [Hreq Hsame].
    destruct (track_relength_requested _ _ Eb) as [Hreq1 Hsame1].
    cbn [map tracks_requested fold_right all_same_length forallb List.concat].
    fold (tracks_requested (map relength_track tracks)).
    fold (all_same_length (map relength_track tracks)).
    rewrite Hreq, Hsame, Hreq1, Hsame1, length_app. split; [lia | reflexivity].
Qed.

Lemma file_relength_requested (mf : MidiFile.t) (bs : list byte) :
  Z.of_nat (List.length (MidiFile._trailing mf)) = MidiFile._length mf - 6 ->
  MidiFile.to_file mf = Ok bs ->
  file_requested (reloaded mf) = Z.of_nat (List.length bs) /\
  all_same_length (MidiFile.tracks (reloaded mf)) = true.
Proof.
  intros Htr E. unfold MidiFile.to_file in E.
  destruct (to_bytes (MidiFile._length mf) 4) as [l| |] eqn:El;
    cbn [bind] in E; try discriminate.
  destruct (to_bytes (MidiFile.format mf) 2) as [fm| |] eqn:Ef;
    cbn [bind] in E; try discriminate.
  destruct (to_bytes (MidiFile._num_tracks mf) 2) as [n| |] eqn:En;
    cbn [bind] in E; try discriminate.
  destruct (to_bytes (MidiFile._division mf) 2) as [d| |] eqn:Ed;
    cbn [bind] in E; try discriminate.
  apply file_to_file_loop_inv in E as (bodies & Hb & ->).
  apply to_bytes_Ok in El as (_ & Hl & _).
  apply to_bytes_Ok in Ef as (_ & Hf & _).
  apply to_bytes_Ok in En as (_ & Hnl & _).
  apply to_bytes_Ok in Ed as (_ & Hdl & _).
  destruct (tracks_relength_requested _ _ Hb) as [Hreq Hsame].
  unfold file_requested, reloaded.
  cbn [MidiFile._length MidiFile.tracks].
  rewrite Hreq, !length_app, Hl, Hf, Hnl, Hdl.
  cbn [List.length MidiFile.MThd]. split; [lia | exact Hsame].
Qed.

(** ** What a parsed file is known to satisfy *)

Lemma parsed_event_reloads (f f' : stream) (event : MidiEvent.t) :
  MidiEvent.__init__ f = Ok (event, f') ->
  Z.of_nat (List.length f) =
    MidiEvent._length event + Z.of_nat (List.length f') ->
  reloads event.
Proof.
  intros E Hfull.
  destruct (event_parse_serialises _ _ _ E) as (bs & Ebs & _).
  apply to_file_Ok_iff in Ebs as (d & Ed & _).
  apply to_file_timedelta_nonneg in Ed.
  destruct (parsed_event_edits _ _ _ E Hfull _ Ed) as [Hr _].
  now rewrite with_timedelta_same in Hr.
Qed.

Lemma track_loop_reloads (fuel : nat) :
  forall length f acc events f',
  MidiTrack.__init__loop fuel length f acc = Ok (events, f') ->
  exists new,
    events = acc ++ new /\
    Z.of_nat (List.length f) <=
      events_requested new + Z.of_nat (List.length f') /\
    (Z.of_nat (List.length f) =
       events_requested new + Z.of_nat (List.length f') ->
     Forall reloads new).
Proof.
  induction fuel as [|fuel IH]; intros length f acc events f' H.
  - cbn in H. destruct (length =? 0); [|discriminate].
    injection H as <- <-. exists [].
    rewrite app_nil_r. cbn. repeat split; try lia. constructor.
  - destruct (Z.eq_dec length 0) as [->|Hne].
    + rewrite track_loop_zero in H. injection H as <- <-. exists [].
      rewrite app_nil_r. cbn. repeat split; try lia. constructor.
    + rewrite track_loop_step in H by exact Hne.
      destruct (MidiEvent.__init__ f) as [[event f1]| |] eqn:Ev;
        cbn [bind] in H; try discriminate.
      apply IH in H as (new & -> & Hle & Heq).
      pose proof (event_shrinks _ _ _ Ev) as (_ & Hev & _).
      exists (event :: new). rewrite <- app_assoc.
      cbn [app events_requested fold_right]. fold (events_requested new).
      split; [reflexivity|]. split; [lia|].
      intros Hfull. constructor.
      * apply (parsed_event_reloads _ _ _ Ev). lia.
      * apply Heq. lia.
Qed.

Lemma track_parse_reloads (f f' : stream) (track : MidiTrack.t) :
  MidiTrack.__init__ f = Ok (track, f') ->
  Z.of_nat (List.length f) <=
    track_requested track + Z.of_nat (List.length f') /\
  (Z.of_nat (List.length f) =
     track_requested track + Z.of_nat (List.length f') ->
   Forall reloads (MidiTrack.events track)).
Proof.
  unfold MidiTrack.__init__. intros H.
  destruct (read f 4) as [header f1] eqn:E1.
  destruct (bytes_eqb header MidiTrack.MTrk) eqn:Eh; [|discriminate].
  apply bytes_eqb_eq in Eh. subst header. cbn [negb] in H.
  destruct (read f1 4) as [prefix f2] eqn:E2.
  destruct (MidiTrack.__init__loop _ _ f2 []) as [[events f3]| |] eqn:El;
    cbn [bind] in H; try discriminate.
  injection H as <- <-.
  apply read_inv in E1 as [Ef _]; [|lia].
  apply read_inv in E2 as [Ef1 Hp]; [|lia].
  apply track_loop_reloads in El as (new & Enew & Hle & Heq).
  cbn [app] in Enew. subst events.
  unfold track_requested. cbn [MidiTrack.events].
  assert (Hlen : Z.of_nat (List.length f) =
                 4 + Z.of_nat (List.length prefix) + Z.of_nat (List.length f2))
    by (rewrite Ef, Ef1, !length_app; cbn [List.length MidiTrack.MTrk]; lia).
  split; [lia|]. intros Hfull. apply Heq. lia.
Qed.

Lemma tracks_parse_reload (n : nat) :
  forall f tracks f',
  MidiFile.__init__tracks n f = Ok (tracks, f') ->
  List.length tracks = n /\
  Z.of_nat (List.length f) <=
    tracks_requested tracks + Z.of_nat (List.length f') /\
  (Z.of_nat (List.length f) =
     tracks_requested tracks + Z.of_nat (List.length f') ->
   all_reload tracks).
Proof.
  induction n as [|n IH]; intros f tracks f' H;
    cbn [MidiFile.__init__tracks] in H.
  - injection H as <- <-. cbn. repeat split; try lia. constructor.
  - destruct (MidiTrack.__init__ f) as [[track f1]| |] eqn:Et;
      cbn [bind] in H; try discriminate.
    destruct (MidiFile.__init__tracks n f1) as [[tracks' f2]| |] eqn:Ets;
      cbn [bind] in H; try discriminate.
    injection H as <- <-.
    apply track_parse_reloads in Et as [Hle1 Heq1].
    apply IH in Ets as (Hn & Hle2 & Heq2).
    cbn [tracks_requested fold_right List.length].
    fold (tracks_requested tracks').
    split; [now rewrite Hn|]. split; [lia|]. intros Hfull.
    constructor; [apply Heq1 | apply Heq2]; lia.
Qed.

(** A file that was parsed with all its bytes there has a header that
    [to_file] writes back as it was read, and events that all reload. *)
Lemma parsed_file_reloads (f f' : stream) (mf : MidiFile.t) :
  MidiFile.__init__ f = Ok (mf, f') ->
  Z.of_nat (List.length f) = file_requested mf + Z.of_nat (List.length f') ->
  6 <= MidiFile._length mf /\
  Z.of_nat (List.length (MidiFile._trailing mf)) = MidiFile._length mf - 6 /\
  MidiFile._division mf < 32768 /\
  MidiFile._num_tracks mf = Z.of_nat (List.length (MidiFile.tracks mf)) /\
  all_reload (MidiFile.tracks mf) /\
  MidiFile.division_type mf =
    Z.land (Z.shiftr (MidiFile._division mf) 15) 1 /\
  MidiFile.per_quarter_note mf = Z.land (MidiFile._division mf) 16383.
Proof.
  unfold MidiFile.__init__. intros H.
  destruct (read f 4) as [header f1] eqn:E1.
  destruct (bytes_eqb header MidiFile.MThd) eqn:Eh; [|discriminate].
  apply bytes_eqb_eq in Eh. subst header. cbn [negb] in H.
  destruct (read f1 4) as [prefix f2] eqn:E2.
  destruct (6 <=? int_from_bytes prefix) eqn:E6; [|discriminate].
  apply Z.leb_le in E6. cbn [negb] in H.
  destruct (read f2 2) as [fmt f3] eqn:E3.
  destruct (read f3 2) as [num f4] eqn:E4.
  destruct (read f4 2) as [dv f5] eqn:E5.
  destruct (Z.land (Z.shiftr (int_from_bytes dv) 15) 1 =? 1) eqn:Ety;
    [discriminate|].
  destruct (if 6 <? int_from_bytes prefix
            then read f5 (int_from_bytes prefix - 6)
            else (bytes 0, f5)) as [tr f6] eqn:E7.
  destruct (MidiFile.__init__tracks _ f6) as [[tracks f7]| |] eqn:Et;
    cbn [bind] in H; try discriminate.
  injection H as <- <-.
  unfold file_requested.
  cbn [MidiFile._length MidiFile.tracks MidiFile.format MidiFile._num_tracks
       MidiFile._division MidiFile._trailing MidiFile.division_type
       MidiFile.per_quarter_note].
  intros Hfull.
  apply read_inv in E1 as [Ef _]; [|lia].
  apply read_inv in E2 as [Ef1 Hp]; [|lia].
  apply read_inv in E3 as [Ef2 Hfmt]; [|lia].
  apply read_inv in E4 as [Ef3 Hnum]; [|lia].
  apply read_inv in E5 as [Ef4 Hdv]; [|lia].
  assert (Htr : f5 = tr ++ f6 /\
                Z.of_nat (List.length tr) <= int_from_bytes prefix - 6).
  { destruct (6 <? int_from_bytes prefix) eqn:El.
    - apply Z.ltb_lt in El. apply read_inv in E7; [exact E7 | lia].
    - injection E7 as <- <-. cbn. split; [reflexivity | lia]. }
  destruct Htr as [Ef5 Htr].
  apply tracks_parse_reload in Et as (Hn & Hle & Heq).
  assert (Hlen : Z.of_nat (List.length f) =
                 4 + Z.of_nat (List.length prefix) + Z.of_nat (List.length fmt)
                 + Z.of_nat (List.length num) + Z.of_nat (List.length dv)
                 + Z.of_nat (List.length tr) + Z.of_nat (List.length f6))
    by (rewrite Ef, Ef1, Ef2, Ef3, Ef4, Ef5, !length_app;
        cbn [List.length MidiFile.MThd]; lia).
  pose proof (int_from_bytes_range num) as Hnr.
  pose proof (int_from_bytes_range dv) as Hdr.
  split; [exact E6|]. split; [lia|]. split.
  - destruct (Z_lt_le_dec (int_from_bytes dv) 32768) as [Hlt|Hge];
      [exact Hlt|].
    exfalso. apply Z.eqb_neq in Ety. apply Ety, top_bit_set.
    assert (Hd2 : List.length dv = 2%nat) by lia.
    rewrite Hd2 in Hdr. change (256 ^ Z.of_nat 2) with 65536 in Hdr.
    rewrite Z.testbit_true by lia. change (2 ^ 15) with 32768.
    replace (int_from_bytes dv / 32768) with 1; [reflexivity|].
    apply Z.div_unique with (r := int_from_bytes dv - 32768); lia.
  - split; [rewrite Hn; lia|]. split; [apply Heq; lia|].
    split; reflexivity.
Qed.

Lemma sample_midi_parsed : MidiFile.__init__ sample_file = Ok (sample_midi, []).
Proof. reflexivity. Qed.

Lemma sample_tracks_reload : all_reload [sample_track].
Proof.
  exact (proj1 (proj2 (proj2 (proj2 (proj2
    (parsed_file_reloads sample_file [] sample_midi sample_midi_parsed
       eq_refl)))))).
Qed.

(** ** Save and load *)

(** A track whose events all reload, once saved, loads again from its own
    bytes whatever follows them: the loaded track has the same events, each
    with its counter set to the number of bytes written for it; saving the
    loaded track gives the same bytes, and the bytes its parse asks for are
    as many as were written. *)
Theorem track_save_load (track : MidiTrack.t) (bs : list byte) :
  Forall reloads (MidiTrack.events track) ->
  MidiTrack.to_file track = Ok bs ->
  (forall rest,
     MidiTrack.__init__ (bs ++ rest) = Ok (relength_track track, rest)) /\
  MidiTrack.to_file (relength_track track) = Ok bs /\
  track_requested (relength_track track) = Z.of_nat (List.length bs).
Proof.
  intros Hr E. split; [|split].
  - now apply track_reload.
  - now rewrite to_file_relength_track.
  - now apply track_relength_requested.
Qed.

Lemma track_save_load_witness :
  exists bs,
    MidiTrack.to_file sample_track = Ok bs /\
    (forall rest,
       MidiTrack.__init__ (bs ++ rest) =
       Ok (relength_track sample_track, rest)) /\
    MidiTrack.to_file (relength_track sample_track) = Ok bs /\
    track_requested (relength_track sample_track) =
      Z.of_nat (List.length bs).
Proof.
  eexists. split; [reflexivity|].
  apply (track_save_load sample_track);
    [exact (Forall_inv sample_tracks_reload) | reflexivity].
Defined.

(** A file object in memory whose header fields agree with one another
    (the declared header length is at least 6 and counts the extra header
    bytes kept, the division has bit 15 clear, the number of tracks is the
    length of the track list) and whose events all reload: once saved, it
    loads again from its own bytes whatever follows them, as [reloaded]
    says; [division_type] and [per_quarter_note] are not written, so what
    they hold in memory is lost.  Saving the loaded file gives the same
    bytes; its parse asked for exactly the bytes written, and each of its
    events serialises to as many bytes as its counter says. *)
Theorem file_save_load (mf : MidiFile.t) (bs : list byte) :
  6 <= MidiFile._length mf ->
  Z.of_nat (List.length (MidiFile._trailing mf)) = MidiFile._length mf - 6 ->
  MidiFile._division mf < 32768 ->
  MidiFile._num_tracks mf = Z.of_nat (List.length (MidiFile.tracks mf)) ->
  all_reload (MidiFile.tracks mf) ->
  MidiFile.to_file mf = Ok bs ->
  (forall rest, MidiFile.__init__ (bs ++ rest) = Ok (reloaded mf, rest)) /\
  MidiFile.to_file (reloaded mf) = Ok bs /\
  file_requested (reloaded mf) = Z.of_nat (List.length bs) /\
  all_same_length (MidiFile.tracks (reloaded mf)) = true.
Proof.
  intros H6 Htr Hd Hn Hr E. split; [|split].
  - now apply file_reload.
  - now rewrite to_file_reloaded.
  - now apply file_relength_requested.
Qed.

Lemma file_save_load_witness :
  exists bs,
    MidiFile.to_file (MidiFile.mk 6 1 1 96 1 0 [] [sample_track]) = Ok bs /\
    (forall rest,
       MidiFile.__init__ (bs ++ rest) = Ok (sample_midi, rest)) /\
    MidiFile.to_file sample_midi = Ok bs /\
    file_requested sample_midi = Z.of_nat (List.length bs) /\
    all_same_length (MidiFile.tracks sample_midi) = true.
Proof.
  eexists. split; [reflexivity|].
  apply (file_save_load (MidiFile.mk 6 1 1 96 1 0 [] [sample_track]));
    [cbn; lia | reflexivity | cbn; lia | reflexivity
    | exact sample_tracks_reload | reflexivity].
Defined.

(** From a file to a file: when [f] was parsed with all its bytes there,
    all the events of the file object reload; and when its track list is
    then replaced by as many tracks whose events all reload (as the effects
    leave it) and the object is saved, the bytes load again, whatever
    follows them, to the same header and the same tracks, every event with
    its counter recounted. *)
Theorem edited_file_save_load (f f' : stream) (mf : MidiFile.t) :
  MidiFile.__init__ f = Ok (mf, f') ->
  Z.of_nat (List.length f) = file_requested mf + Z.of_nat (List.length f') ->
  all_reload (MidiFile.tracks mf) /\
  forall tracks' bs,
    List.length tracks' = List.length (MidiFile.tracks mf) ->
    all_reload tracks' ->
    MidiFile.to_file (with_tracks mf tracks') = Ok bs ->
    forall rest,
    MidiFile.__init__ (bs ++ rest) =
    Ok (with_tracks mf (map relength_track tracks'), rest).
Proof.
  intros H Hfull.
  destruct (parsed_file_reloads _ _ _ H Hfull)
    as (H6 & Htr & Hd & Hn & Hall & Hdt & Hpq).
  split; [exact Hall|]. intros tracks' bs Hlen Hr E rest.
  rewrite (file_reload (with_tracks mf tracks') bs); try assumption.
  - unfold reloaded, with_tracks.
    cbn [MidiFile._length MidiFile.format MidiFile._num_tracks
         MidiFile._division MidiFile.division_type
         MidiFile.per_quarter_note MidiFile._trailing MidiFile.tracks].
    now rewrite <- Hdt, <- Hpq.
  - cbn [with_tracks MidiFile._num_tracks MidiFile.tracks].
    now rewrite Hlen.
Qed.

Lemma edited_file_save_load_witness :
  all_reload (MidiFile.tracks sample_midi) /\
  exists bs,
    MidiFile.to_file (with_tracks sample_midi (pitch 12 [sample_track])) =
      Ok bs /\
    forall rest,
      MidiFile.__init__ (bs ++ rest) =
      Ok (with_tracks sample_midi
            (map relength_track (pitch 12 [sample_track])), rest).
Proof.
  destruct (edited_file_save_load sample_file [] sample_midi
              sample_midi_parsed eq_refl) as [Hall Hload].
  split; [exact Hall|].
  eexists. split; [reflexivity|].
  apply Hload;
    [reflexivity | exact (pitch_reloads 12 _ sample_tracks_reload)
    | reflexivity].
Defined.

Lemma effects_keep_reloads_witness :
  all_reload (pitch 12 [sample_track]) /\
  (exists tracks',
     velocity 100 [sample_track] = Some tracks' /\ all_reload tracks') /\
  (exists tracks',
     chorus [4; 7] [sample_track] = Done tracks' /\ all_reload tracks') /\
  exists tracks',
    delay [48] [sample_track] = Done tracks' /\ all_reload tracks'.
Proof.
  destruct (effects_keep_reloads [sample_track] sample_tracks_reload)
    as (Hp & Hv & Hc & Hd).
  split; [apply Hp|]. split; [|split].
  - eexists. split; [reflexivity|]. now apply (Hv 100).
  - eexists. split; [reflexivity|]. now apply (Hc [4; 7]).
  - eexists. split; [reflexivity|].
    apply (Hd [48]); [repeat constructor; lia | reflexivity].
Defined.

(** * Canonical files are reproduced *)

Lemma low_length_byte (len : byte) :
  Z_of_byte len < 128 -> continues len = false.
Proof. byte_cases len. Qed.

Lemma ignore_one_byte (lb : byte) (f : stream) (trailing : list byte)
    (len : Z) :
  Z_of_byte lb < 128 ->
  MidiEvent.__init__ignore (lb :: f) trailing 0 len =
  (trailing ++ [lb], Z_of_byte lb, len + 1, f).
Proof.
  intros Hlb. apply low_length_byte in Hlb.
  rewrite (ignore_sums_groups [lb] f) by (cbn; now rewrite Hlb).
  cbn [fold_left List.length]. now rewrite (group_low _ Hlb).
Qed.

Lemma to_file_opaque (len td : Z) (status : byte) (body d : list byte) :
  to_file_timedelta td = Ok d ->
  MidiEvent.to_file
    (MidiEvent.mk len td None None None body (Z_of_byte status)) =
  Ok (d ++ status :: body).
Proof.
  intros Ed. rewrite to_file_unfold.
  cbn [MidiEvent.timedelta MidiEvent._event_info MidiEvent.note
       MidiEvent.velocity MidiEvent._trailing_ignore].
  rewrite Ed. cbn [bind].
  rewrite to_bytes_one by apply Z_of_byte_range. cbn [bind].
  now rewrite byte_of_Z_of_byte, <- !app_assoc.
Qed.

Lemma to_file_note (len td : Z) (ch : option Z) (status n v : byte)
    (d : list byte) :
  to_file_timedelta td = Ok d ->
  MidiEvent.to_file
    (MidiEvent.mk len td (Some (Z_of_byte n)) (Some (Z_of_byte v)) ch []
       (Z_of_byte status)) =
  Ok (d ++ [status; n; v]).
Proof.
  intros Ed. rewrite to_file_unfold.
  cbn [MidiEvent.timedelta MidiEvent._event_info MidiEvent.note
       MidiEvent.velocity MidiEvent._trailing_ignore].
  rewrite Ed. cbn [bind].
  rewrite !to_bytes_one by apply Z_of_byte_range. cbn [bind].
  now rewrite !byte_of_Z_of_byte, app_nil_r, <- !app_assoc.
Qed.

Ltac dispatch_on H :=
  unfold event_body; rewrite read_bytes_one, int_from_bytes_one;
  unfold event_type in H; rewrite H; cbn [Z.eqb Pos.eqb orb]; cbv iota.

(** The body of an event, as the format has it, is read by lines 111-139
    as one event, with nothing of it left over, and written back as it
    was. *)
Lemma canonical_body_parses (body : list byte) :
  canonical_body body ->
  forall td len,
  exists event,
    (forall rest, event_body td len (body ++ rest) = Ok (event, rest)) /\
    MidiEvent._length event = len + Z.of_nat (List.length body) /\
    forall d, to_file_timedelta td = Ok d ->
              MidiEvent.to_file event = Ok (d ++ body).
Proof.
  intros Hb td len.
  destruct Hb as [status n v Ht|status a b Ht|status a Ht
                 |ty lb payload Hlb Hlen|status lb payload Ht Hsub Hlb Hlen].
  - exists (MidiEvent.mk (len + 1 + 1 + 1) td (Some (Z_of_byte n))
              (Some (Z_of_byte v)) (Some (Z.land (Z_of_byte status) 15)) []
              (Z_of_byte status)).
    split; [|split].
    + intros rest. cbn [app].
      destruct Ht as [Ht|Ht]; dispatch_on Ht;
        now rewrite !read_bytes_one, !int_from_bytes_one.
    + cbn [MidiEvent._length List.length]. lia.
    + intros d Ed. now apply to_file_note.
  - exists (MidiEvent.mk (len + 1 + 2) td None None None [a; b]
              (Z_of_byte status)).
    split; [|split].
    + intros rest. cbn [app].
      destruct Ht as [Ht|[Ht|Ht]]; dispatch_on Ht;
        exact (f_equal (fun r => Ok (MidiEvent.mk (snd (fst r)) td None None
                                       None (fst (fst r)) (Z_of_byte status),
                                     snd r))
                 (read_bytes_app (len + 1) [a; b] rest)).
    + cbn [MidiEvent._length List.length]. lia.
    + intros d Ed. now apply to_file_opaque.
  - exists (MidiEvent.mk (len + 1 + 1) td None None None [a]
              (Z_of_byte status)).
    split; [|split].
    + intros rest. cbn [app].
      destruct Ht as [Ht|Ht]; dispatch_on Ht;
        now rewrite read_bytes_one.
    + cbn [MidiEvent._length List.length]. lia.
    + intros d Ed. now apply to_file_opaque.
  - exists (MidiEvent.mk (len + 1 + 1 + 1 + Z_of_byte lb) td None None None
              (ty :: lb :: payload) 255).
    split; [|split].
    + intros rest. cbn [app]. unfold event_body.
      rewrite read_bytes_one, int_from_bytes_one.
      change (Z_of_byte xff) with 255.
      change (Z.shiftr 255 4 =? 15) with true.
      change (Z.land 255 15 =? 15) with true. cbv iota.
      rewrite read_bytes_one, ignore_one_byte by exact Hlb.
      rewrite <- Hlen, read_bytes_app. reflexivity.
    + cbn [MidiEvent._length List.length]. lia.
    + intros d Ed. exact (to_file_opaque _ td xff _ d Ed).
  - exists (MidiEvent.mk (len + 1 + 1 + Z_of_byte lb) td None None None
              (lb :: payload) (Z_of_byte status)).
    split; [|split].
    + intros rest. cbn [app]. dispatch_on Ht.
      apply Z.eqb_neq in Hsub. rewrite Hsub.
      rewrite ignore_one_byte by exact Hlb.
      rewrite <- Hlen, read_bytes_app. reflexivity.
    + cbn [MidiEvent._length List.length]. lia.
    + intros d Ed. now apply to_file_opaque.
Qed.

Lemma canonical_event_parses (c : list byte) :
  canonical_event c -> exists event, parsed_from event c.
Proof.
  intros (delta & body & -> & Hs & Hm & Hb).
  destruct (canonical_body_parses _ Hb (groups_value delta)
              (0 + Z.of_nat (List.length delta))) as (event & Hp & Hl & Hto).
  exists event. split; [|split].
  - intros rest. rewrite init_body, <- app_assoc.
    rewrite timedelta_decode by exact Hs. apply Hp.
  - apply Hto. now apply to_file_timedelta_minimal.
  - rewrite Hl, length_app. lia.
Qed.

Lemma canonical_events_parse (chunks : list (list byte)) :
  Forall canonical_event chunks ->
  exists events, Forall2 parsed_from events chunks.
Proof.
  induction 1 as [|c chunks Hc _ (events & IH)].
  - exists []. constructor.
  - destruct (canonical_event_parses _ Hc) as [event He].
    exists (event :: events). now constructor.
Qed.

Lemma parsed_from_partitions (events : list MidiEvent.t)
    (chunks : list (list byte)) :
  Forall2 parsed_from events chunks ->
  Forall2 (fun event c => MidiEvent.to_file event = Ok c) events chunks /\
  forall rest,
    partitions (Z.of_nat (List.length (List.concat chunks)))
      (List.concat chunks ++ rest) events rest.
Proof.
  induction 1 as [|event c events chunks (Hp & Hto & Hl) _ (IH1 & IH2)].
  - split; [constructor|]. intros rest. constructor.
  - split; [now constructor|]. intros rest.
    cbn [List.concat]. rewrite <- app_assoc.
    eapply partitions_event.
    + apply Hp.
    + rewrite Hl, length_app. lia.
    + replace (Z.of_nat (List.length (c ++ List.concat chunks)) -
               MidiEvent._length event)
        with (Z.of_nat (List.length (List.concat chunks)))
        by (rewrite Hl, length_app; lia).
      apply IH2.
Qed.

Lemma canonical_track_parses (prefix : list byte)
    (chunks : list (list byte)) :
  canonical_track prefix chunks ->
  exists track,
    (forall rest,
       MidiTrack.__init__ (track_bytes prefix chunks ++ rest) =
       Ok (track, rest)) /\
    MidiTrack.to_file track = Ok (track_bytes prefix chunks) /\
    Forall2 parsed_from (MidiTrack.events track) chunks.
Proof.
  intros (Hp & Hlen & Hc).
  destruct (canonical_events_parse _ Hc) as [events Hev].
  destruct (parsed_from_partitions _ _ Hev) as [Hto Hpart].
  exists (MidiTrack.mk events). split; [|split].
  - intros rest. unfold track_bytes. rewrite <- !app_assoc.
    rewrite track_header by exact Hp. rewrite Hlen.
    rewrite (track_loop_partitions _ _ _ _ (Hpart rest)) by lia.
    reflexivity.
  - unfold MidiTrack.to_file, track_bytes. cbn [MidiTrack.events].
    rewrite (track_to_file_loop _ _ _ Hto). cbn [bind bytes repeat app].
    rewrite <- Hlen, to_bytes_from_bytes by exact Hp. reflexivity.
  - exact Hev.
Qed.

Lemma canonical_tracks_parse
    (tracks : list (list byte * list (list byte))) :
  Forall (fun t => canonical_track (fst t) (snd t)) tracks ->
  exists ts,
    (forall rest,
       MidiFile.__init__tracks (List.length tracks)
         (List.concat (map (fun t => track_bytes (fst t) (snd t)) tracks) ++
          rest) = Ok (ts, rest)) /\
    Forall2 (fun track body => MidiTrack.to_file track = Ok body) ts
      (map (fun t => track_bytes (fst t) (snd t)) tracks) /\
    Forall2
      (fun track t => Forall2 parsed_from (MidiTrack.events track) (snd t))
      ts tracks.
Proof.
  induction 1 as [|t tracks Ht _ (ts & IHp & IHto & IHev)].
  - exists []. split; [reflexivity|]. split; constructor.
  - destruct (canonical_track_parses _ _ Ht) as (track & Hp & Hto & Hev).
    exists (track :: ts). split; [|split].
    + intros rest.
      cbn [List.length map List.concat MidiFile.__init__tracks].
      rewrite <- app_assoc, Hp. cbn [bind]. now rewrite IHp.
    + cbn [map]. now constructor.
    + now constructor.
Qed.

(** C1, amended: a canonical file (the chunks of the format with exact
    lengths, every delta time minimally encoded, every system or meta
    length in one byte) is accepted by [MidiFile.__init__], which reads it
    to its last byte and no further; [to_file] of the object returned
    gives the file back, byte for byte; and each event of each track was
    parsed from exactly its bytes in the file, counts them, and is written
    by [MidiEvent.to_file] as those same bytes. *)
Theorem C1_canonical_roundtrip (prefix fmt num dv trailing : list byte)
    (tracks : list (list byte * list (list byte))) :
  canonical_file prefix fmt num dv trailing tracks ->
  exists mf,
    (forall rest,
       MidiFile.__init__
         (file_bytes prefix fmt num dv trailing tracks ++ rest) =
       Ok (mf, rest)) /\
    MidiFile.to_file mf = Ok (file_bytes prefix fmt num dv trailing tracks) /\
    Forall2
      (fun track t => Forall2 parsed_from (MidiTrack.events track) (snd t))
      (MidiFile.tracks mf) tracks.
Proof.
  intros (Hp & Hf & Hn & Hd & H6 & Htr & Htop & Hnum & Htracks).
  destruct (canonical_tracks_parse _ Htracks) as (ts & Hparse & Hto & Hev).
  exists (MidiFile.mk (int_from_bytes prefix) (int_from_bytes fmt)
            (int_from_bytes num) (int_from_bytes dv)
            (Z.land (Z.shiftr (int_from_bytes dv) 15) 1)
            (Z.land (int_from_bytes dv) 16383) trailing ts).
  split; [|split].
  - intros rest. unfold file_bytes. rewrite <- !app_assoc.
    rewrite file_header by assumption. cbv zeta.
    apply Z.leb_le in H6 as H6b. rewrite H6b. cbn [negb].
    rewrite (top_bit_unset _ Htop). change (0 =? 1) with false. cbv iota.
    rewrite Hnum, Nat2Z.id.
    destruct (6 <? int_from_bytes prefix) eqn:E6.
    + rewrite read_exact by exact Htr. now rewrite Hparse.
    + apply Z.ltb_ge in E6.
      destruct trailing as [|b trailing];
        [|cbn [List.length] in Htr; lia].
      cbn [app bytes repeat]. now rewrite Hparse.
  - unfold MidiFile.to_file, file_bytes.
    cbn [MidiFile._length MidiFile.format MidiFile._num_tracks
         MidiFile._division MidiFile._trailing MidiFile.tracks].
    rewrite !to_bytes_from_bytes by assumption. cbn [bind].
    rewrite (file_to_file_loop _ _ _ Hto). now rewrite <- !app_assoc.
  - exact Hev.
Qed.

Lemma C1_canonical_roundtrip_witness :
  exists mf,
    (forall rest,
       MidiFile.__init__
         (file_bytes [x00; x00; x00; x06] [x00; x01] [x00; x01] [x00; x60] []
            [([x00; x00; x00; x0d],
              [[x00; x90; x3c; x40]; [x81; x00; x80; x3c; x00];
               [x00; xff; x2f; x00]])] ++ rest) = Ok (mf, rest)) /\
    MidiFile.to_file mf =
      Ok (file_bytes [x00; x00; x00; x06] [x00; x01] [x00; x01] [x00; x60] []
            [([x00; x00; x00; x0d],
              [[x00; x90; x3c; x40]; [x81; x00; x80; x3c; x00];
               [x00; xff; x2f; x00]])]) /\
    Forall2
      (fun track t => Forall2 parsed_from (MidiTrack.events track) (snd t))
      (MidiFile.tracks mf)
      [([x00; x00; x00; x0d],
        [[x00; x90; x3c; x40]; [x81; x00; x80; x3c; x00];
         [x00; xff; x2f; x00]])].
Proof.
  apply (C1_canonical_roundtrip [x00; x00; x00; x06] [x00; x01] [x00; x01]
           [x00; x60] []).
  repeat (split; [reflexivity|]).
  constructor; [|constructor].
  split; [reflexivity|]. split; [reflexivity|].
  repeat constructor.
  - exists [x00], [x90; x3c; x40]. repeat split.
    apply body_note. now right.
  - exists [x81; x00], [x80; x3c; x00]. repeat split.
    apply body_note. now left.
  - exists [x00], [xff; x2f; x00]. repeat split.
    apply body_meta; [cbn; lia | reflexivity].
Defined.
